(** * PortalMaze: the minimum-action solver, the level generator, the game
    and the editor

    A shallow embedding of [src/utils/pathfinding.ts] (the breadth-first
    solver over augmented states [(x, y, breaksUsed)]) and of
    [src/utils/mazeGenerator.ts] (the generate-and-validate level generator),
    with the properties the specification states about them; and of the code
    around them: the game component (the handlers of the key presses), the
    editor (clicks and validation), the demo level of [constants.ts] and
    [generateAndStart] of [App.tsx], with what the solver's counts mean for
    a player.

    Conventions of the embedding:
    - a JavaScript [number] holding a coordinate, a counter or a budget is a
      [Z]; floating-point and [NaN] budgets are outside the model;
    - [Cell[][]] is a list of rows; an index expression [grid[y][x]] is
      [grid_at], which is [None] exactly where the JavaScript expression
      yields [undefined] (or throws on the way), and reading a property of
      that [undefined] is the outcome [TypeError];
    - the [Set<string>] of visit keys ["x,y,b"] is a [gset] of triples:
      formatting three integers with commas is injective;
    - the [while] loops run on fuel; the theorems show which fuel is enough,
      and the entry points are supplied with it;
    - the state of a React component is passed explicitly: a handler maps
      the state it is called in to the state of the next render, and the
      rendering itself is left out. *)

From stdpp Require Import gmap list strings pretty.
From Stdlib Require Import ZArith Lia.

(** ** Data model ([types.ts]) *)

Inductive CellType := TEmpty | TWall | TStart | TGoal | TPortal.

Inductive PortalColor := Blue | Red | Green | Yellow.

#[global] Instance CellType_eq_dec : EqDecision CellType.
Proof. solve_decision. Defined.

#[global] Instance PortalColor_eq_dec : EqDecision PortalColor.
Proof. solve_decision. Defined.

Definition PortalColor_code (c : PortalColor) : nat :=
  match c with Blue => 0 | Red => 1 | Green => 2 | Yellow => 3 end.

Definition PortalColor_decode (n : nat) : option PortalColor :=
  match n with
  | 0 => Some Blue | 1 => Some Red | 2 => Some Green | 3 => Some Yellow
  | _ => None
  end.

#[global] Instance PortalColor_countable : Countable PortalColor.
Proof.
  apply (inj_countable PortalColor_code PortalColor_decode).
  intros []; reflexivity.
Defined.

(** [interface Cell]: the fields [x], [y], [type], [portalColor?], [id]. *)
Record Cell := mkCell {
  cell_x : Z;
  cell_y : Z;
  cell_type : CellType;
  portalColor : option PortalColor;
  cell_id : string
}.

Abbreviation Grid := (list (list Cell)).

(** A position [{x, y}]. *)
Abbreviation Pos := (Z * Z)%type.

(** A visit key ["x,y,breaksUsed"], that is an augmented search state. *)
Abbreviation Key := (Z * Z * Z)%type.

(** [interface PathNode]. *)
Record PathNode := mkNode {
  node_x : Z;
  node_y : Z;
  breaksUsed : Z;
  node_steps : Z;
  node_path : list Pos
}.

(** The non-null value returned by [solveMaze]: [{ steps, path }]. *)
Record Solution := mkSolution {
  steps : Z;
  path : list Pos
}.

(** What running a piece of the program can end in. [OutOfFuel] is an
    artefact of the fuel of the loops, not a behaviour of the program. *)
Inductive Outcome (A : Type) :=
  | Returns (a : A)
  | TypeError
  | OutOfFuel.
Arguments Returns {A} a.
Arguments TypeError {A}.
Arguments OutOfFuel {A}.

(** ** Grid access *)

(** [grid[y][x]]: [None] when the row or the cell is [undefined]. *)
Definition grid_at (grid : Grid) (x y : Z) : option Cell :=
  if decide (0 <= x)%Z then
    if decide (0 <= y)%Z then
      match grid !! Z.to_nat y with
      | Some row => row !! Z.to_nat x
      | None => None
      end
    else None
  else None.

(** [grid.length] and [grid[0].length]. *)
Definition grid_rows (grid : Grid) : Z := Z.of_nat (length grid).

Definition grid_cols (grid : Grid) : option Z :=
  match grid with
  | [] => None
  | row :: _ => Some (Z.of_nat (length row))
  end.

(** ** The solver ([pathfinding.ts]) *)

(** Direction vectors: Up, Right, Down, Left. *)
Definition DIRECTIONS : list (Z * Z) :=
  [(0, -1); (1, 0); (0, 1); (-1, 0)]%Z.

(** The body of the inner [forEach] of [findPortals]. *)
Definition add_portal (portals : gmap PortalColor (list Pos)) (cell : Cell)
  : gmap PortalColor (list Pos) :=
  match cell_type cell, portalColor cell with
  | TPortal, Some c =>
      <[c := default [] (portals !! c) ++ [(cell_x cell, cell_y cell)]]> portals
  | _, _ => portals
  end.

(** Finds the coordinates of all portals grouped by color. *)
Definition findPortals (grid : Grid) : gmap PortalColor (list Pos) :=
  foldl (fun portals row => foldl add_portal portals row) ∅ grid.

(** The body of the inner [forEach] of [findEndpoints]. *)
Definition note_endpoint (acc : option Pos * option Pos) (cell : Cell)
  : option Pos * option Pos :=
  let start := if decide (cell_type cell = TStart)
               then Some (cell_x cell, cell_y cell) else acc.1 in
  let goal := if decide (cell_type cell = TGoal)
              then Some (cell_x cell, cell_y cell) else acc.2 in
  (start, goal).

(** Finds Start and Goal positions: the last cell of each kind in row-major
    order wins. *)
Definition findEndpoints (grid : Grid) : option Pos * option Pos :=
  foldl (fun acc row => foldl note_endpoint acc row) (None, None) grid.

(** Step 1 of the loop body: the teleport destinations tried from a cell at
    [(x, y)], in the order of the portal group. *)
Definition teleport_targets (portals : gmap PortalColor (list Pos))
    (currentCell : Cell) (x y : Z) : list Pos :=
  match cell_type currentCell, portalColor currentCell with
  | TPortal, Some c =>
      match portals !! c with
      | Some group =>
          if decide (1 < length group) then
            filter (fun dest : Pos => ¬ (dest.1 = x ∧ dest.2 = y)) group
          else []
      | None => []
      end
  | _, _ => []
  end.

(** Step 2 of the loop body for one direction: [Some None] when the
    neighbour is out of bounds or out of budget, [Some (Some key)] when it may
    be entered, [None] when [grid[ny][nx]] is [undefined] and reading its
    [type] throws. *)
Definition move_target (grid : Grid) (maxBreaksAllowed rows cols : Z)
    (x y b : Z) (dir : Z * Z) : option (option Key) :=
  let nx := (x + dir.1)%Z in
  let ny := (y + dir.2)%Z in
  if decide (0 <= nx ∧ nx < cols ∧ 0 <= ny ∧ ny < rows)%Z then
    match grid_at grid nx ny with
    | None => None
    | Some neighbor =>
        let isWall := bool_decide (cell_type neighbor = TWall) in
        let newBreaks := if isWall then (b + 1)%Z else b in
        if decide (newBreaks <= maxBreaksAllowed)%Z
        then Some (Some (nx, ny, newBreaks))
        else Some None
    end
  else Some None.

(** The candidate successor keys of a dequeued state, in the order the loop
    body tries them: teleports first, then the four directions. [None] is a
    [TypeError] (the current cell or a neighbour is [undefined]). *)
Definition successors (grid : Grid) (portals : gmap PortalColor (list Pos))
    (maxBreaksAllowed rows cols : Z) (k : Key) : option (list Key) :=
  let '(x, y, b) := k in
  currentCell ← grid_at grid x y;
  moves ← mapM (move_target grid maxBreaksAllowed rows cols x y b) DIRECTIONS;
  Some (map (fun dest : Pos => (dest.1, dest.2, b))
            (teleport_targets portals currentCell x y)
        ++ omap id moves).
Arguments successors : simpl never.

(** The search state of the [while] loop, with a ghost history of the
    [queue.push] and [queue.shift] calls made so far (oldest first). *)
Record Search := mkSearch {
  visited : gset Key;
  queue : list PathNode;
  enqueued : list PathNode;
  dequeued : list PathNode
}.

Definition node_key (n : PathNode) : Key := (node_x n, node_y n, breaksUsed n).

(** The node pushed for a successor key of [current]. *)
Definition child (current : PathNode) (k : Key) : PathNode :=
  {| node_x := k.1.1; node_y := k.1.2; breaksUsed := k.2;
     node_steps := (node_steps current + 1)%Z;
     node_path := node_path current ++ [(k.1.1, k.1.2)] |}.

(** [if (!visited.has(visitKey)) { visited.add(visitKey); queue.push(...) }] *)
Definition visit (current : PathNode) (st : Search) (k : Key) : Search :=
  if decide (k ∈ visited st) then st
  else {| visited := {[k]} ∪ visited st;
          queue := queue st ++ [child current k];
          enqueued := enqueued st ++ [child current k];
          dequeued := dequeued st |}.

(** One iteration of the [while] loop. *)
Inductive Iteration :=
  | Finished (result : option Solution) (st : Search)
  | Continue (st : Search)
  | Crashed (st : Search).

Definition iterate (grid : Grid) (portals : gmap PortalColor (list Pos))
    (maxBreaksAllowed rows cols : Z) (goal : Pos) (st : Search) : Iteration :=
  match queue st with
  | [] => Finished None st
  | current :: rest =>
      let st' := {| visited := visited st; queue := rest;
                    enqueued := enqueued st;
                    dequeued := dequeued st ++ [current] |} in
      if decide (node_x current = goal.1 ∧ node_y current = goal.2) then
        Finished (Some {| steps := node_steps current;
                          path := node_path current |}) st'
      else
        match successors grid portals maxBreaksAllowed rows cols
                (node_key current) with
        | None => Crashed st'
        | Some succs => Continue (foldl (visit current) st' succs)
        end
  end.

Fixpoint search (fuel : nat) (grid : Grid)
    (portals : gmap PortalColor (list Pos))
    (maxBreaksAllowed rows cols : Z) (goal : Pos) (st : Search)
  : Outcome (option Solution) * Search :=
  match fuel with
  | O => (OutOfFuel, st)
  | S fuel' =>
      match iterate grid portals maxBreaksAllowed rows cols goal st with
      | Finished result st' => (Returns result, st')
      | Crashed st' => (TypeError, st')
      | Continue st' =>
          search fuel' grid portals maxBreaksAllowed rows cols goal st'
      end
  end.

Definition no_search : Search :=
  {| visited := ∅; queue := []; enqueued := []; dequeued := [] |}.

(** The state after the initial [queue.push] and [visited.add]. *)
Definition initial_search (start : Pos) : Search :=
  let first := {| node_x := start.1; node_y := start.2; breaksUsed := 0;
                  node_steps := 0; node_path := [(start.1, start.2)] |} in
  {| visited := {[ (start.1, start.2, 0%Z) ]};
     queue := [first]; enqueued := [first]; dequeued := [] |}.

(** [solveMaze] with the loop on [fuel], together with the final search
    state. *)
Definition solveMaze_run (fuel : nat) (grid : Grid) (maxBreaksAllowed : Z)
  : Outcome (option Solution) * Search :=
  match findEndpoints grid with
  | (Some start, Some goal) =>
      match grid_cols grid with
      | None => (TypeError, no_search)
      | Some cols =>
          search fuel grid (findPortals grid) maxBreaksAllowed
                 (grid_rows grid) cols goal (initial_search start)
      end
  | _ => (Returns None, no_search)
  end.

(** The number of augmented states [(x, y, breaksUsed)] of a grid under a
    budget: rows x cols x (maxBreaksAllowed + 1). *)
Definition state_space (grid : Grid) (maxBreaksAllowed : Z) : nat :=
  length grid * Z.to_nat (default 0%Z (grid_cols grid))
  * Z.to_nat (maxBreaksAllowed + 1).

(** Fuel that lets the loop dequeue every augmented state once and then see
    the queue empty (a negative budget still has the states with no break).
    The count is that of a rectangular grid whose cells store their own
    coordinates ([wf_grid] below), the grids of the data model; where
    portals store other coordinates the loop of the source can run
    longer. *)
Definition solveMaze_fuel (grid : Grid) (maxBreaksAllowed : Z) : nat :=
  S (state_space grid (Z.max 0 maxBreaksAllowed)).

Definition solveMaze (grid : Grid) (maxBreaksAllowed : Z)
  : Outcome (option Solution) :=
  (solveMaze_run (solveMaze_fuel grid maxBreaksAllowed) grid maxBreaksAllowed).1.

(** ** Vocabulary of the search invariants *)

(** All cells of a grid in row-major order, the order of the nested
    [forEach] loops. *)
Definition cells (grid : Grid) : list Cell := mjoin grid.

Definition cell_pos (c : Cell) : Pos := (cell_x c, cell_y c).

Definition key_pos (k : Key) : Pos := (k.1.1, k.1.2).

(** A state stands on the goal position: the test [x === goal.x && y ===
    goal.y] of the loop. *)
Definition at_goal (goal : Pos) (k : Key) : Prop :=
  k.1.1 = goal.1 ∧ k.1.2 = goal.2.

(** [trail next k0 ks k]: [ks] lists the states of a walk that starts in
    [k0], follows candidate successors of [next], and ends in [k]. *)
Inductive trail (next : Key → option (list Key)) (k0 : Key)
  : list Key → Key → Prop :=
  | trail_start : trail next k0 [k0] k0
  | trail_step ks k succs k' :
      trail next k0 ks k →
      next k = Some succs →
      k' ∈ succs →
      trail next k0 (ks ++ [k']) k'.

(** A node records a walk to its state: its [path] is the positions of the
    walk and its [steps] the number of edges. *)
Definition good_node (next : Key → option (list Key)) (k0 : Key)
    (n : PathNode) : Prop :=
  ∃ ks, trail next k0 ks (node_key n)
        ∧ node_path n = key_pos <$> ks
        ∧ node_steps n = (Z.of_nat (length ks) - 1)%Z.

(** The invariant of the [while] loop. [U] bounds the state space. *)
Record search_inv (next : Key → option (list Key)) (goal : Pos) (k0 : Key)
    (U : list Key) (st : Search) : Prop := {
  inv_keys : ∀ k, k ∈ visited st ↔ k ∈ node_key <$> enqueued st;
  inv_fifo : enqueued st = dequeued st ++ queue st;
  inv_nodup : NoDup (node_key <$> enqueued st);
  inv_bound : ∀ k, k ∈ visited st → k ∈ U;
  inv_start : k0 ∈ visited st;
  inv_good : ∀ n, n ∈ enqueued st → good_node next k0 n;
  inv_least : ∀ n ks, n ∈ queue st → trail next k0 ks (node_key n) →
              (node_steps n + 1 <= Z.of_nat (length ks))%Z;
  inv_level : ∃ d front back, queue st = front ++ back
              ∧ (∀ n, n ∈ front → node_steps n = d)
              ∧ (∀ n, n ∈ back → node_steps n = (d + 1)%Z);
  inv_closed : ∀ n, n ∈ dequeued st →
               ¬ at_goal goal (node_key n)
               ∧ ∃ succs, next (node_key n) = Some succs
                          ∧ ∀ k', k' ∈ succs → k' ∈ visited st
}.

(** What holds of the result and the final search state when the loop
    returns. *)
Definition search_post (next : Key → option (list Key)) (goal : Pos)
    (k0 : Key) (U : list Key) (result : option Solution) (st' : Search)
  : Prop :=
  match result with
  | None =>
      search_inv next goal k0 U st' ∧ queue st' = []
      ∧ ∀ ks k, trail next k0 ks k → ¬ at_goal goal k
  | Some sol =>
      ∃ st h rest,
        search_inv next goal k0 U st ∧ queue st = h :: rest
        ∧ at_goal goal (node_key h)
        ∧ sol = {| steps := node_steps h; path := node_path h |}
        ∧ st' = {| visited := visited st; queue := rest;
                   enqueued := enqueued st;
                   dequeued := dequeued st ++ [h] |}
        ∧ ∀ ks k, trail next k0 ks k → at_goal goal k →
                  (node_steps h + 1 <= Z.of_nat (length ks))%Z
  end.

(** ** Well-formed grids and the specification's transition system *)

(** The grid invariant of the data model: rows of one width, and every cell
    stores the coordinates of the place it stands at. *)
Definition wf_grid (grid : Grid) : Prop :=
  Forall (fun row : list Cell => length row = length (default [] (head grid)))
         grid
  ∧ Forall (fun jr : nat * list Cell =>
              Forall (fun ic : nat * Cell =>
                        cell_x ic.2 = Z.of_nat ic.1
                        ∧ cell_y ic.2 = Z.of_nat jr.1)
                     (imap pair jr.2))
           (imap pair grid).

#[global] Instance wf_grid_dec grid : Decision (wf_grid grid).
Proof. unfold wf_grid. apply _. Defined.

(** The number of cells of a kind: "exactly one start" is [count_type TStart
    grid = 1]. *)
Definition count_type (t : CellType) (grid : Grid) : nat :=
  length (filter (fun c => cell_type c = t) (cells grid)).

(** The augmented states of a grid under a budget (a negative budget leaves
    the states with no break used). *)
Definition all_states (grid : Grid) (maxBreaksAllowed : Z) : list Key :=
  cprod (cprod (seqZ 0 (default 0%Z (grid_cols grid)))
               (seqZ 0 (grid_rows grid)))
        (seqZ 0 (Z.max 0 maxBreaksAllowed + 1)).

(** A unit step in one of the four cardinal directions. *)
Definition cardinal (dx dy : Z) : Prop :=
  (dx = 0 ∧ (dy = 1 ∨ dy = -1))%Z ∨ (dy = 0 ∧ (dx = 1 ∨ dx = -1))%Z.

(** The transitions of the specification from a state [(x, y, b)]:
    teleport to another cell of the same portal color, move to a cardinal
    neighbour that is not a wall, or break into one that is, within the
    budget. *)
Inductive action (grid : Grid) (maxBreaksAllowed : Z) : Key → Key → Prop :=
  | action_teleport x y b c color c' :
      grid_at grid x y = Some c →
      cell_type c = TPortal → portalColor c = Some color →
      c' ∈ cells grid →
      cell_type c' = TPortal → portalColor c' = Some color →
      cell_pos c' ≠ (x, y) →
      action grid maxBreaksAllowed (x, y, b) (cell_x c', cell_y c', b)
  | action_move x y b dx dy n :
      cardinal dx dy →
      grid_at grid (x + dx) (y + dy) = Some n →
      cell_type n ≠ TWall →
      action grid maxBreaksAllowed (x, y, b) (cell_x n, cell_y n, b)
  | action_break x y b dx dy n :
      cardinal dx dy →
      grid_at grid (x + dx) (y + dy) = Some n →
      cell_type n = TWall →
      (b + 1 <= maxBreaksAllowed)%Z →
      action grid maxBreaksAllowed (x, y, b) (cell_x n, cell_y n, (b + 1)%Z).

(** [plan grid K k n k']: a sequence of [n] actions leads from [k] to [k']. *)
Inductive plan (grid : Grid) (maxBreaksAllowed : Z) (k : Key)
  : nat → Key → Prop :=
  | plan_done : plan grid maxBreaksAllowed k 0 k
  | plan_more n k1 k2 :
      plan grid maxBreaksAllowed k n k1 →
      action grid maxBreaksAllowed k1 k2 →
      plan grid maxBreaksAllowed k (S n) k2.

(** [solvable_in grid K n]: some sequence of [n] actions leads from the start
    cell, with no break used, onto the goal cell with at most [K] breaks. *)
Definition solvable_in (grid : Grid) (maxBreaksAllowed : Z) (n : nat) : Prop :=
  ∃ s g b,
    s ∈ cells grid ∧ cell_type s = TStart
    ∧ g ∈ cells grid ∧ cell_type g = TGoal
    ∧ (b <= maxBreaksAllowed)%Z
    ∧ plan grid maxBreaksAllowed (cell_x s, cell_y s, 0%Z) n
           (cell_x g, cell_y g, b).

(** A portal cell of a given color. *)
Definition portal_of (color : PortalColor) (c : Cell) : Prop :=
  cell_type c = TPortal ∧ portalColor c = Some color.

(** ** Concrete grids: the scenarios of the specification *)

(** A grid from rows of cell kinds; every cell gets the coordinates of its
    place. *)
Definition cell_of (y x : nat) (kind : CellType * option PortalColor) : Cell :=
  {| cell_x := Z.of_nat x; cell_y := Z.of_nat y; cell_type := kind.1;
     portalColor := kind.2; cell_id := "" |}.

Definition grid_of (kinds : list (list (CellType * option PortalColor)))
  : Grid :=
  imap (fun y row => imap (cell_of y) row) kinds.

(** Scenario 1: [start, empty, goal]. *)
Definition corridor_grid : Grid :=
  grid_of [[(TStart, None); (TEmpty, None); (TGoal, None)]].

(** Scenario 2: [start, wall, goal]. *)
Definition walled_grid : Grid :=
  grid_of [[(TStart, None); (TWall, None); (TGoal, None)]].

(** Scenario 3: two rows, the goal is behind a wall and only the blue portal
    pair leads to it. *)
Definition portal_grid : Grid :=
  grid_of [[(TStart, None); (TPortal, Some Blue); (TWall, None); (TGoal, None)];
           [(TEmpty, None); (TWall, None); (TWall, None);
            (TPortal, Some Blue)]].

(** A grid with no goal cell. *)
Definition goalless_grid : Grid :=
  grid_of [[(TStart, None); (TEmpty, None); (TEmpty, None)]].

(** ** Paths as the caller sees them *)

(** One position follows another by a single action: a step to a cardinal
    neighbour inside the grid (a move, or a wall entry), or a teleport
    between two different portal cells of one color. *)
Definition hop (grid : Grid) (p q : Pos) : Prop :=
  (is_Some (grid_at grid q.1 q.2) ∧ cardinal (q.1 - p.1) (q.2 - p.2))
  ∨ (∃ color c c', grid_at grid p.1 p.2 = Some c
                   ∧ grid_at grid q.1 q.2 = Some c'
                   ∧ portal_of color c ∧ portal_of color c' ∧ p ≠ q).

(** The cell at a position is a wall. *)
Definition wall_at (grid : Grid) (p : Pos) : bool :=
  match grid_at grid p.1 p.2 with
  | Some c => bool_decide (cell_type c = TWall)
  | None => false
  end.

(** The number of wall cells a path enters (its first position is where it
    starts, not an entry). *)
Definition wall_entries (grid : Grid) (ps : list Pos) : nat :=
  length (filter (fun p => wall_at grid p = true) (tail ps)).

(** Every node pushed so far is within the budget. *)
Definition within_budget (K : Z) (st : Search) : Prop :=
  ∀ n, n ∈ enqueued st ∨ n ∈ queue st → (0 <= breaksUsed n <= K)%Z.

(** ** The generator ([mazeGenerator.ts]) *)

(** [interface Level]. *)
Record Level := mkLevel {
  level_id : string;
  level_name : string;
  level_grid : Grid;
  maxBreaks : Z;
  optimalStepsNoBreak : option Z;
  optimalStepsWithBreak : option Z;
  createdAt : Z
}.

(** What the generator draws from outside: [Math.random] behind each of its
    uses, and the clock. A [World] is the state of the random source; every
    draw returns the next state. The two laws are all the generator may rely
    on: [Math.floor(Math.random() * n)] is an index below [n], and sorting
    with a random comparator permutes the array. *)
Record Oracle (World : Type) := mkOracle {
  generateId : World → string * World;
  random_floor : nat → World → nat * World;
  random_floor_lt : ∀ n w, 0 < n → (random_floor n w).1 < n;
  random_sort : list Pos → World → list Pos * World;
  random_sort_perm : ∀ l w, (random_sort l w).1 ≡ₚ l;
  random_below_tenth : World → bool * World;
  date_now : World → Z * World
}.
Arguments generateId {World} _ _.
Arguments random_floor {World} _ _ _.
Arguments random_sort {World} _ _ _.
Arguments random_below_tenth {World} _ _.
Arguments date_now {World} _ _.

(** Default size for new maps ([constants.ts]). *)
Definition GRID_SIZE : Z := 10.

(** [grid[y][x] = f(grid[y][x])] for a cell that exists; [None] where
    [grid[y][x]] is [undefined] and writing a property of it throws. *)
Definition update_cell (grid : Grid) (x y : Z) (f : Cell → Cell)
  : option Grid :=
  match grid_at grid x y with
  | Some _ => Some (alter (alter f (Z.to_nat x)) (Z.to_nat y) grid)
  | None => None
  end.

Definition with_type (t : CellType) (c : Cell) : Cell :=
  {| cell_x := cell_x c; cell_y := cell_y c; cell_type := t;
     portalColor := portalColor c; cell_id := cell_id c |}.

Definition with_portal (color : PortalColor) (c : Cell) : Cell :=
  {| cell_x := cell_x c; cell_y := cell_y c; cell_type := TPortal;
     portalColor := Some color; cell_id := cell_id c |}.

(** [grid[y][x].type = t] *)
Definition set_type (grid : Grid) (x y : Z) (t : CellType) : option Grid :=
  update_cell grid x y (with_type t).

(** [grid[y][x].type = 'portal'; grid[y][x].portalColor = color] *)
Definition set_portal (grid : Grid) (x y : Z) (color : PortalColor)
  : option Grid :=
  update_cell grid x y (with_portal color).

Module MazeGenerator.

(** The lattice steps of the carving. *)
Definition DIRECTIONS : list (Z * Z) := [(0, -2); (0, 2); (-2, 0); (2, 0)]%Z.

Section generator.
Context {World : Type} (env : Oracle World).

(** Step 1: a row and a grid of walls, each cell with a fresh id. *)
Fixpoint wall_row (y : Z) (xs : list Z) (w : World) : list Cell * World :=
  match xs with
  | [] => ([], w)
  | x :: xs' =>
      let '(id, w1) := generateId env w in
      let '(row, w2) := wall_row y xs' w1 in
      ({| cell_x := x; cell_y := y; cell_type := TWall;
          portalColor := None; cell_id := id |} :: row, w2)
  end.

Fixpoint wall_grid (ys : list Z) (w : World) : Grid * World :=
  match ys with
  | [] => ([], w)
  | y :: ys' =>
      let '(row, w1) := wall_row y (seqZ 0 GRID_SIZE) w in
      let '(rows, w2) := wall_grid ys' w1 in
      (row :: rows, w2)
  end.

(** The unvisited lattice neighbours of [(x, y)], each with the unit step
    towards it: the entries [{nx, ny, dx: d.dx/2, dy: d.dy/2}]. *)
Definition neighbors (visited : gset Pos) (x y : Z) : list (Z * Z * Z * Z) :=
  omap (fun d : Z * Z =>
          let nx := (x + d.1)%Z in
          let ny := (y + d.2)%Z in
          if decide (0 < nx ∧ nx < GRID_SIZE - 1 ∧ 0 < ny ∧ ny < GRID_SIZE - 1)%Z
          then if decide ((nx, ny) ∈ visited) then None
               else Some (nx, ny, (d.1 / 2)%Z, (d.2 / 2)%Z)
          else None)
       DIRECTIONS.

(** Step 2: the carving loop. The stack is kept with its top first. *)
Fixpoint carve (fuel : nat) (grid : Grid) (stack : list Pos)
    (visited : gset Pos) (w : World) : Outcome (Grid * World) :=
  match fuel with
  | O => OutOfFuel
  | S fuel' =>
      match stack with
      | [] => Returns (grid, w)
      | (x, y) :: below =>
          let ns := neighbors visited x y in
          if decide (0 < length ns) then
            let '(i, w1) := random_floor env (length ns) w in
            match ns !! i with
            | None => TypeError
            | Some (nx, ny, dx, dy) =>
                match set_type grid (x + dx) (y + dy) TEmpty with
                | None => TypeError
                | Some grid1 =>
                    match set_type grid1 nx ny TEmpty with
                    | None => TypeError
                    | Some grid2 =>
                        carve fuel' grid2 ((nx, ny) :: stack)
                              ({[ (nx, ny) ]} ∪ visited) w1
                    end
                end
            end
          else carve fuel' grid below visited w
      end
  end.

(** The moves of the distance scan: up, down, left, right. *)
Definition moves : list (Z * Z) := [(0, -1); (0, 1); (-1, 0); (1, 0)]%Z.

(** One turn of the inner [for] of the distance scan from [(x, y)] at
    distance [d]; [None] is a [TypeError]. *)
Definition scan_move (grid : Grid) (x y d : Z)
    (acc : option (list (Z * Z * Z) * gmap Pos Z)) (m : Z * Z)
  : option (list (Z * Z * Z) * gmap Pos Z) :=
  match acc with
  | None => None
  | Some (q, dists) =>
      let nx := (x + m.1)%Z in
      let ny := (y + m.2)%Z in
      if decide (0 <= nx ∧ nx < GRID_SIZE ∧ 0 <= ny ∧ ny < GRID_SIZE)%Z then
        match grid_at grid nx ny with
        | None => None
        | Some cell =>
            if decide (cell_type cell = TEmpty ∧ dists !! (nx, ny) = None)
            then Some (q ++ [(nx, ny, (d + 1)%Z)],
                       <[(nx, ny) := (d + 1)%Z]> dists)
            else Some (q, dists)
        end
      else Some (q, dists)
  end.

(** Step 4: the breadth-first distance scan; returns [goalPos]. *)
Fixpoint farthest (fuel : nat) (grid : Grid) (q : list (Z * Z * Z))
    (dists : gmap Pos Z) (bestDist : Z) (goalPos : Pos) : Outcome Pos :=
  match fuel with
  | O => OutOfFuel
  | S fuel' =>
      match q with
      | [] => Returns goalPos
      | (x, y, d) :: rest =>
          let best := if decide (bestDist < d)%Z then (d, (x, y))
                      else (bestDist, goalPos) in
          match foldl (scan_move grid x y d) (Some (rest, dists)) moves with
          | None => TypeError
          | Some (q', dists') => farthest fuel' grid q' dists' best.1 best.2
          end
      end
  end.

(** The positions [(x, y)] for [y] then [x] running over [lo .. hi - 1], in
    the order of the nested [for] loops. *)
Definition scan_order (lo hi : Z) : list Pos :=
  y ← seqZ lo (hi - lo); x ← seqZ lo (hi - lo); [(x, y)].

(** Step 5, first half: the positions of the empty cells. *)
Definition empties_of (grid : Grid) : option (list Pos) :=
  cs ← mapM (fun p : Pos => grid_at grid p.1 p.2) (scan_order 0 GRID_SIZE);
  Some (cell_pos <$> filter (fun c => cell_type c = TEmpty) cs).

(** Step 5, second half: one blue pair on two random empty cells. *)
Definition place_portals (grid : Grid) (w : World) : Outcome (Grid * World) :=
  match empties_of grid with
  | None => TypeError
  | Some empties =>
      if decide (2 <= length empties) then
        let '(sorted, w1) := random_sort env empties w in
        match sorted with
        | p1 :: p2 :: _ =>
            match set_portal grid p1.1 p1.2 Blue with
            | None => TypeError
            | Some grid1 =>
                match set_portal grid1 p2.1 p2.2 Blue with
                | None => TypeError
                | Some grid2 => Returns (grid2, w1)
                end
            end
        | _ => TypeError
        end
      else Returns (grid, w)
  end.

(** Step 6: random holes in the interior walls. [Math.random] is drawn for
    wall cells only. *)
Definition punch (acc : Outcome (Grid * World)) (p : Pos)
  : Outcome (Grid * World) :=
  match acc with
  | Returns (grid, w) =>
      match grid_at grid p.1 p.2 with
      | None => TypeError
      | Some cell =>
          if decide (cell_type cell = TWall) then
            let '(hole, w1) := random_below_tenth env w in
            if hole then
              match set_type grid p.1 p.2 TEmpty with
              | None => TypeError
              | Some grid1 => Returns (grid1, w1)
              end
            else Returns (grid, w1)
          else Returns (grid, w)
      end
  | _ => acc
  end.

Definition punch_holes (grid : Grid) (w : World) : Outcome (Grid * World) :=
  foldl punch (Returns (grid, w)) (scan_order 1 (GRID_SIZE - 1)).

(** Fuel for the two inner loops: the carving pushes and pops each interior
    cell at most once, the scan dequeues each cell at most once. *)
Definition carve_fuel : nat := 200.
Definition scan_fuel : nat := 200.

(** Steps 1 to 6 of one attempt. *)
Definition attempt (w : World) : Outcome (Grid * World) :=
  let '(grid0, w0) := wall_grid (seqZ 0 GRID_SIZE) w in
  match set_type grid0 1 1 TEmpty with
  | None => TypeError
  | Some grid1 =>
      match carve carve_fuel grid1 [(1, 1)%Z] {[ (1, 1)%Z ]} w0 with
      | Returns (grid2, w1) =>
          match set_type grid2 1 1 TStart with
          | None => TypeError
          | Some grid3 =>
              match farthest scan_fuel grid3 [(1, 1, 0)%Z]
                             {[ (1, 1)%Z := 0%Z ]} 0 (1, 1)%Z with
              | Returns goalPos =>
                  match set_type grid3 goalPos.1 goalPos.2 TGoal with
                  | None => TypeError
                  | Some grid4 =>
                      match place_portals grid4 w1 with
                      | Returns (grid5, w2) => punch_holes grid5 w2
                      | other => other
                      end
                  end
              | TypeError => TypeError
              | OutOfFuel => OutOfFuel
              end
          end
      | other => other
      end
  end.

(** The fallback after the last attempt: three cells of the grid left by
    that attempt are overwritten. *)
Definition fallback (grid : Grid) (maxBreaks : Z) (w : World)
  : Outcome (Level * World) :=
  match set_type grid 1 1 TStart with
  | None => TypeError
  | Some grid1 =>
      match set_type grid1 2 1 TEmpty with
      | None => TypeError
      | Some grid2 =>
          match set_type grid2 3 1 TGoal with
          | None => TypeError
          | Some grid3 =>
              let '(id, w1) := generateId env w in
              let '(now, w2) := date_now env w1 in
              Returns ({| level_id := id; level_name := "Fallback Level";
                          level_grid := grid3; maxBreaks := maxBreaks;
                          optimalStepsNoBreak := Some 2%Z;
                          optimalStepsWithBreak := Some 2%Z;
                          createdAt := now |}, w2)
          end
      end
  end.

(** The [while (attempts < 20)] loop with [remaining] attempts left; [grid]
    is the grid of the previous attempt. *)
Fixpoint attempts (remaining : nat) (maxBreaks : Z) (grid : Grid) (w : World)
  : Outcome (Level * World) :=
  match remaining with
  | O => fallback grid maxBreaks w
  | S remaining' =>
      match attempt w with
      | Returns (grid', w1) =>
          match solveMaze grid' 0 with
          | Returns solNoBreak =>
              match solveMaze grid' maxBreaks with
              | Returns solWithBreak =>
                  match solNoBreak, solWithBreak with
                  | Some noBreak, Some withBreak =>
                      let '(id, w2) := generateId env w1 in
                      let '(n, w3) := random_floor env 900 w2 in
                      let '(now, w4) := date_now env w3 in
                      Returns
                        ({| level_id := id;
                            level_name :=
                              "Random Sector " +:+ pretty (Z.of_nat n + 100)%Z;
                            level_grid := grid'; maxBreaks := maxBreaks;
                            optimalStepsNoBreak := Some (steps noBreak);
                            optimalStepsWithBreak := Some (steps withBreak);
                            createdAt := now |}, w4)
                  | _, _ => attempts remaining' maxBreaks grid' w1
                  end
              | TypeError => TypeError
              | OutOfFuel => OutOfFuel
              end
          | TypeError => TypeError
          | OutOfFuel => OutOfFuel
          end
      | TypeError => TypeError
      | OutOfFuel => OutOfFuel
      end
  end.

Definition generateRandomLevel (maxBreaks : Z) (w : World)
  : Outcome (Level * World) :=
  attempts 20 maxBreaks [] w.

(** Each of the next [remaining] attempts returns a grid that fails the
    validation of step 7. *)
Fixpoint all_attempts_fail (remaining : nat) (maxBreaks : Z) (w : World)
  : bool :=
  match remaining with
  | O => true
  | S remaining' =>
      match attempt w with
      | Returns (grid', w1) =>
          match solveMaze grid' 0, solveMaze grid' maxBreaks with
          | Returns (Some _), Returns (Some _) => false
          | Returns _, Returns _ =>
              all_attempts_fail remaining' maxBreaks w1
          | _, _ => false
          end
      | _ => false
      end
  end.

End generator.
End MazeGenerator.
Arguments MazeGenerator.neighbors : simpl never.
Arguments MazeGenerator.scan_order : simpl never.

(** ** A concrete random source: a linear congruential generator *)

Definition lcg_next (seed : N) : N :=
  ((seed * 1103515245 + 12345) mod 2147483648)%N.

Definition lcg_draw (seed : N) : nat := N.to_nat (seed / 65536)%N.

Definition lcg_oracle : Oracle N :=
  {| generateId := fun seed => (pretty seed, lcg_next seed);
     random_floor := fun n seed => (lcg_draw seed mod n, lcg_next seed);
     random_floor_lt := fun n seed Hn =>
       Nat.mod_upper_bound (lcg_draw seed) n (Nat.neq_sym _ _ (Nat.lt_neq _ _ Hn));
     random_sort := fun l seed =>
       (if Nat.even (lcg_draw seed) then l else reverse l, lcg_next seed);
     random_sort_perm := fun l seed =>
       match Nat.even (lcg_draw seed) as b
         return (if b then l else reverse l) ≡ₚ l with
       | true => reflexivity l
       | false => reverse_Permutation l
       end;
     random_below_tenth := fun seed =>
       (bool_decide (lcg_draw seed mod 10 = 0), lcg_next seed);
     date_now := fun seed => (1700000000000%Z, seed) |}.

(** A random source that always draws the least value: index 0, the array
    left as it is by the sort, no hole. With it the carving is a serpentine
    down and up the odd columns, and the goal lands on (7, 1). *)
Definition first_oracle : Oracle unit :=
  {| generateId := fun w => ("", w);
     random_floor := fun n w => (0, w);
     random_floor_lt := fun n w Hn => Hn;
     random_sort := fun l w => (l, w);
     random_sort_perm := fun l w => reflexivity l;
     random_below_tenth := fun w => (false, w);
     date_now := fun w => (0%Z, w) |}.

(** ** Vocabulary of the generator invariants *)

(** A well-formed grid of the generator's size. *)
Definition grid10 (grid : Grid) : Prop :=
  wf_grid grid ∧ grid_rows grid = GRID_SIZE ∧ grid_cols grid = Some GRID_SIZE.

(** The kind of the cell at a position, if there is one. *)
Definition kind_at (grid : Grid) (x y : Z) : option CellType :=
  cell_type <$> grid_at grid x y.

(** [linked grid p]: [p] can be walked to from the carving's start [(1, 1)]
    by cardinal steps onto cells that are not walls. *)
Inductive linked (grid : Grid) : Pos → Prop :=
  | linked_start : linked grid (1, 1)%Z
  | linked_step x y dx dy c :
      linked grid (x, y) →
      cardinal dx dy →
      grid_at grid (x + dx) (y + dy) = Some c →
      cell_type c ≠ TWall →
      linked grid ((x + dx)%Z, (y + dy)%Z).

(** During the carving every cell is a wall or empty. *)
Definition bare (grid : Grid) : Prop :=
  ∀ x y c, grid_at grid x y = Some c →
           cell_type c = TWall ∨ cell_type c = TEmpty.

(** From the placement of the goal on: the only start is at [(1, 1)], the
    only goal at [g], and the goal can be walked to. *)
Definition sound (grid : Grid) (g : Pos) : Prop :=
  grid10 grid
  ∧ (∀ x y c, grid_at grid x y = Some c →
              (cell_type c = TStart ↔ (x, y) = (1, 1)%Z)
              ∧ (cell_type c = TGoal ↔ (x, y) = g))
  ∧ linked grid g.

(** The interior positions not yet in a set, and the positions with no
    distance yet: the measures of the carving and of the distance scan. *)
Definition unvisited (visited : gset Pos) : list Pos :=
  filter (fun p => p ∉ visited) (MazeGenerator.scan_order 1 (GRID_SIZE - 1)).

Definition unscanned (dists : gmap Pos Z) : list Pos :=
  filter (fun p => dists !! p = None) (MazeGenerator.scan_order 0 GRID_SIZE).

(** The invariant of the carving loop. *)
Definition carve_inv (grid : Grid) (stack : list Pos) (visited : gset Pos)
  : Prop :=
  grid10 grid ∧ bare grid
  ∧ (∀ p, p ∈ stack → p ∈ visited)
  ∧ (∀ p, p ∈ visited →
          (0 < p.1 < GRID_SIZE - 1)%Z ∧ (0 < p.2 < GRID_SIZE - 1)%Z).

(** The invariant of the distance scan once the start has been dequeued:
    the queue holds empty cells that can be walked to, and either nothing
    farther than the start was dequeued yet and the queue is not empty, or
    [goalPos] is such a cell. *)
Definition scan_inv (grid : Grid) (q : list (Z * Z * Z)) (bestDist : Z)
    (goalPos : Pos) : Prop :=
  (∀ x y d, (x, y, d) ∈ q →
            (1 <= d)%Z ∧ kind_at grid x y = Some TEmpty ∧ linked grid (x, y))
  ∧ (0 <= bestDist)%Z
  ∧ ((bestDist = 0%Z ∧ q ≠ [])
     ∨ (kind_at grid goalPos.1 goalPos.2 = Some TEmpty ∧ linked grid goalPos)).

(** ** The game ([components/Game.tsx]) *)

(** The prop [mode] and the field [status] of [GameState]. *)
Inductive GameMode := NoBreak | WallBreak.

Inductive GameStatus := Playing | Won | GameOver.

#[global] Instance GameMode_eq_dec : EqDecision GameMode.
Proof. solve_decision. Defined.

#[global] Instance GameStatus_eq_dec : EqDecision GameStatus.
Proof. solve_decision. Defined.

(** The state of the component: its [grid] state and the fields of
    [gameState] that the handlers read or write. [currentLevel] and [mode]
    repeat the props and are parameters of the handlers; the clock fields
    [startTime] and [endTime] are left out. The [Set<string>] of ["x,y"]
    strings is a [gset] of positions. *)
Record GameState := mkGame {
  game_grid : Grid;
  playerPos : Pos;
  movesTaken : Z;
  uniqueCellsVisited : gset Pos;
  wallsBroken : Z;
  status : GameStatus
}.

(** A [keydown] event, as far as [handleKeyDown] reads it. *)
Record KeyboardEvent := mkEvent {
  event_key : string;
  shiftKey : bool
}.

(** The scan of the state initialiser for the start cell: the last one in
    row-major order wins, [{x: 0, y: 0}] when there is none. *)
Definition find_start (grid : Grid) : Pos :=
  foldl (fun startPos row =>
           foldl (fun startPos cell =>
                    if decide (cell_type cell = TStart)
                    then (cell_x cell, cell_y cell) else startPos)
                 startPos row)
        (0, 0)%Z grid.

(** The two [useState] initialisers: the grid is a deep copy of the level's
    grid. *)
Definition initial_game (level : Level) : GameState :=
  let startPos := find_start (level_grid level) in
  {| game_grid := level_grid level;
     playerPos := startPos;
     movesTaken := 0;
     uniqueCellsVisited := {[ startPos ]};
     wallsBroken := 0;
     status := Playing |}.

(** [setGameState(prev => ({...prev, playerPos, movesTaken: prev.movesTaken +
    1, uniqueCellsVisited: newSet}))], the update shared by the three kinds
    of action. *)
Definition move_player (st : GameState) (pos : Pos) (breaks : Z) : GameState :=
  {| game_grid := game_grid st;
     playerPos := pos;
     movesTaken := (movesTaken st + 1)%Z;
     uniqueCellsVisited := {[ pos ]} ∪ uniqueCellsVisited st;
     wallsBroken := (wallsBroken st + breaks)%Z;
     status := status st |}.

Definition with_grid (st : GameState) (grid : Grid) : GameState :=
  {| game_grid := grid;
     playerPos := playerPos st;
     movesTaken := movesTaken st;
     uniqueCellsVisited := uniqueCellsVisited st;
     wallsBroken := wallsBroken st;
     status := status st |}.

(** [handleWin], without the clock and the delayed [onWin] call: the steps
    it reports are [movesTaken]. *)
Definition handleWin (st : GameState) : GameState :=
  {| game_grid := game_grid st;
     playerPos := playerPos st;
     movesTaken := movesTaken st;
     uniqueCellsVisited := uniqueCellsVisited st;
     wallsBroken := wallsBroken st;
     status := Won |}.

Definition attemptMove (level : Level) (mode : GameMode) (dx dy : Z)
    (isBreakAttempt : bool) (st : GameState) : Outcome GameState :=
  if decide (status st ≠ Playing) then Returns st
  else
    let grid := game_grid st in
    let nx := ((playerPos st).1 + dx)%Z in
    let ny := ((playerPos st).2 + dy)%Z in
    if decide (ny < 0 ∨ grid_rows grid <= ny ∨ nx < 0)%Z then Returns st
    else
      match grid_cols grid with
      | None => TypeError
      | Some cols =>
          if decide (cols <= nx)%Z then Returns st
          else
            match grid_at grid nx ny with
            | None => TypeError
            | Some targetCell =>
                if decide (cell_type targetCell = TWall) then
                  if negb isBreakAttempt then Returns st
                  else if decide (mode = NoBreak) then Returns st
                  else if decide (maxBreaks level <= wallsBroken st)%Z
                  then Returns st
                  else
                    match set_type grid nx ny TEmpty with
                    | None => TypeError
                    | Some newGrid =>
                        Returns (move_player (with_grid st newGrid) (nx, ny) 1)
                    end
                else Returns (move_player st (nx, ny) 0)
            end
      end.

(** The partner search of [attemptTeleport]: the first cell in row-major
    order that is a portal of the colour and does not store the player's
    coordinates. *)
Definition find_partner (grid : Grid) (color : PortalColor) (x y : Z)
  : option Cell :=
  head (filter (fun cell => cell_type cell = TPortal
                            ∧ portalColor cell = Some color
                            ∧ (cell_x cell ≠ x ∨ cell_y cell ≠ y))
               (cells grid)).

Definition attemptTeleport (st : GameState) : Outcome GameState :=
  if decide (status st ≠ Playing) then Returns st
  else
    match grid_at (game_grid st) (playerPos st).1 (playerPos st).2 with
    | None => TypeError
    | Some currentCell =>
        match cell_type currentCell, portalColor currentCell with
        | TPortal, Some color =>
            match find_partner (game_grid st) color
                    (playerPos st).1 (playerPos st).2 with
            | Some partner =>
                Returns (move_player st (cell_x partner, cell_y partner) 0)
            | None => Returns st
            end
        | _, _ => Returns st
        end
    end.

(** The direction of a movement key. *)
Definition key_direction (key : string) : option (Z * Z) :=
  if decide (key = "w" ∨ key = "ArrowUp") then Some (0, -1)%Z
  else if decide (key = "s" ∨ key = "ArrowDown") then Some (0, 1)%Z
  else if decide (key = "a" ∨ key = "ArrowLeft") then Some (-1, 0)%Z
  else if decide (key = "d" ∨ key = "ArrowRight") then Some (1, 0)%Z
  else None.

Definition handleKeyDown (level : Level) (mode : GameMode)
    (e : KeyboardEvent) (st : GameState) : Outcome GameState :=
  if decide (status st ≠ Playing) then Returns st
  else
    match key_direction (event_key e) with
    | Some (dx, dy) => attemptMove level mode dx dy (shiftKey e) st
    | None =>
        if decide (event_key e = "Enter") then attemptTeleport st
        else Returns st
    end.

(** The effect that watches the position for the goal. *)
Definition check_goal (st : GameState) : Outcome GameState :=
  match grid_at (game_grid st) (playerPos st).1 (playerPos st).2 with
  | None => TypeError
  | Some cell =>
      if decide (cell_type cell = TGoal ∧ status st = Playing)
      then Returns (handleWin st)
      else Returns st
  end.

(** Mounting the component, and one key press: the handler, then the
    effects of the render it causes. Every key press is handled on the state
    the previous one has left: the component is rendered again between two
    key events. *)
Definition start_game (level : Level) : Outcome GameState :=
  check_goal (initial_game level).

Definition press (level : Level) (mode : GameMode) (acc : Outcome GameState)
    (e : KeyboardEvent) : Outcome GameState :=
  match acc with
  | Returns st =>
      match handleKeyDown level mode e st with
      | Returns st' => check_goal st'
      | other => other
      end
  | other => other
  end.

Definition play (level : Level) (mode : GameMode)
    (events : list KeyboardEvent) : Outcome GameState :=
  foldl (press level mode) (start_game level) events.

(** The budget the solver is run with for the count shown beside a mode:
    [optimalStepsNoBreak] is [solveMaze(grid, 0)], [optimalStepsWithBreak] is
    [solveMaze(grid, maxBreaks)]. *)
Definition mode_budget (level : Level) (mode : GameMode) : Z :=
  match mode with NoBreak => 0%Z | WallBreak => maxBreaks level end.

(** ** Vocabulary of the game invariants *)

(** The game's grid is the level's grid with the walls at [broken] opened. *)
Definition opened (level_grid game_grid : Grid) (broken : list Pos) : Prop :=
  ∀ x y, grid_at game_grid x y
         = (fun c => if decide ((x, y) ∈ broken) then with_type TEmpty c else c)
           <$> grid_at level_grid x y.

(** Consecutive positions of a list are one hop apart. *)
Definition hops (grid : Grid) (ps : list Pos) : Prop :=
  ∀ i p q, ps !! i = Some p → ps !! S i = Some q → hop grid p q.

(** What holds of the state between two key presses. [broken] lists the
    walls broken so far and [ps] is a walk without repetition from the start
    to the player that enters no wall but broken ones. *)
Record game_inv (level : Level) (mode : GameMode) (st : GameState)
    (broken : list Pos) (ps : list Pos) : Prop := {
  gi_wf : wf_grid (game_grid st);
  gi_rows : grid_rows (game_grid st) = grid_rows (level_grid level);
  gi_cols : grid_cols (game_grid st) = grid_cols (level_grid level);
  gi_opened : opened (level_grid level) (game_grid st) broken;
  gi_same : broken = [] → game_grid st = level_grid level;
  gi_nodup : NoDup broken;
  gi_walls : ∀ p, p ∈ broken → wall_at (level_grid level) p = true;
  gi_count : wallsBroken st = Z.of_nat (length broken);
  gi_budget : broken = []
              ∨ (mode = WallBreak
                 ∧ (Z.of_nat (length broken) <= maxBreaks level)%Z);
  gi_player : ∃ c, grid_at (game_grid st) (playerPos st).1 (playerPos st).2
                   = Some c
                   ∧ cell_type c ≠ TWall
                   ∧ (status st = Won → cell_type c = TGoal);
  gi_status : status st ≠ GameOver;
  gi_head : head ps = Some (find_start (level_grid level));
  gi_last : last ps = Some (playerPos st);
  gi_simple : NoDup ps;
  gi_hops : hops (level_grid level) ps;
  gi_entered : ∀ p, p ∈ ps → wall_at (level_grid level) p = true →
                    p ∈ broken;
  gi_length : (Z.of_nat (length ps) <= movesTaken st + 1)%Z;
  gi_seen : ∀ p, p ∈ ps → p ∈ uniqueCellsVisited st
}.

(** After the goal effect has run, a player on the goal has won. *)
Definition settled (st : GameState) : Prop :=
  ∀ c, grid_at (game_grid st) (playerPos st).1 (playerPos st).2 = Some c →
       cell_type c = TGoal → status st = Won.

(** ** Concrete levels and key presses *)

(** A level around a grid, as the editor would publish it with no count
    stored. *)
Definition scenario_level (grid : Grid) (K : Z) : Level :=
  {| level_id := "scenario"; level_name := "Scenario"; level_grid := grid;
     maxBreaks := K; optimalStepsNoBreak := None;
     optimalStepsWithBreak := None; createdAt := 0 |}.

(** Scenario 2 as the editor publishes it with one break, under the random
    source [first_oracle]. *)
Definition walled_level : Level :=
  {| level_id := ""; level_name := "Walled"; level_grid := walled_grid;
     maxBreaks := 1; optimalStepsNoBreak := None;
     optimalStepsWithBreak := Some 2%Z; createdAt := 0 |}.

(** A key held with Shift, and a key alone. *)
Definition shift_arrow (key : string) : KeyboardEvent :=
  {| event_key := key; shiftKey := true |}.

Definition plain_key (key : string) : KeyboardEvent :=
  {| event_key := key; shiftKey := false |}.

(** ** The demo level ([constants.ts]) *)

Section constants.
Context {World : Type} (env : Oracle World).

(** The inner and the outer loop of [createEmptyGrid]: empty cells, each
    with a fresh id. *)
Fixpoint empty_row (y : Z) (xs : list Z) (w : World) : list Cell * World :=
  match xs with
  | [] => ([], w)
  | x :: xs' =>
      let '(id, w1) := generateId env w in
      let '(row, w2) := empty_row y xs' w1 in
      ({| cell_x := x; cell_y := y; cell_type := TEmpty;
          portalColor := None; cell_id := id |} :: row, w2)
  end.

Fixpoint empty_rows (ys : list Z) (cols : Z) (w : World) : Grid * World :=
  match ys with
  | [] => ([], w)
  | y :: ys' =>
      let '(row, w1) := empty_row y (seqZ 0 cols) w in
      let '(rows, w2) := empty_rows ys' cols w1 in
      (row :: rows, w2)
  end.

Definition createEmptyGrid (rows cols : Z) (w : World) : Grid * World :=
  empty_rows (seqZ 0 rows) cols w.

End constants.

(** The [[y, x]] pairs of the walls of the demo level. *)
Definition demo_walls : list (Z * Z) :=
  [(1, 1); (1, 2); (1, 3); (1, 4); (2, 4); (3, 4); (4, 4); (5, 4); (6, 4);
   (6, 1); (6, 2); (5, 1)]%Z.

(** The statements that follow the creation of [demoGrid]: walls, two
    portal pairs, start and goal; [None] is a [TypeError]. *)
Definition demo_edits (grid : Grid) : option Grid :=
  grid1 ← foldl (fun acc yx => grid ← acc; set_type grid yx.2 yx.1 TWall)
                (Some grid) demo_walls;
  grid2 ← set_portal grid1 1 3 Blue;
  grid3 ← set_portal grid2 7 0 Blue;
  grid4 ← set_portal grid3 2 6 Red;
  grid5 ← set_portal grid4 6 4 Red;
  grid6 ← set_type grid5 0 0 TStart;
  set_type grid6 7 7 TGoal.

Section demo.
Context {World : Type} (env : Oracle World).

Definition demoGrid (w : World) : option Grid * World :=
  let '(grid, w1) := createEmptyGrid env 8 8 w in (demo_edits grid, w1).

Definition DEMO_LEVEL (w : World) : Outcome (Level * World) :=
  match demoGrid w with
  | (Some grid, w1) =>
      let '(now, w2) := date_now env w1 in
      Returns ({| level_id := "demo-1"; level_name := "Tutorial Sector";
                  level_grid := grid; maxBreaks := 1;
                  optimalStepsNoBreak := Some 24%Z;
                  optimalStepsWithBreak := Some 12%Z;
                  createdAt := now |}, w2)
  | (None, _) => TypeError
  end.

End demo.

(** ** The editor ([components/Editor.tsx]) *)

(** [type Tool = CellType | 'erase'] *)
Inductive Tool := Paint (t : CellType) | Erase.

(** [grid.forEach(row => row.forEach(c => ...))] with a body that
    rewrites the cell. *)
Definition map_cells (f : Cell → Cell) (grid : Grid) : Grid :=
  (fun row : list Cell => f <$> row) <$> grid.

(** [newGrid.forEach(row => row.forEach(c => { if (c.type === t) c.type =
    'empty'; }))] *)
Definition clear_type (t : CellType) (grid : Grid) : Grid :=
  map_cells (fun c => if decide (cell_type c = t) then with_type TEmpty c
                      else c) grid.

(** The copy of the clicked cell after the tool has been applied to it. *)
Definition painted (selectedTool : Tool) (selectedColor : PortalColor)
    (cell : Cell) : Cell :=
  match selectedTool with
  | Erase =>
      {| cell_x := cell_x cell; cell_y := cell_y cell; cell_type := TEmpty;
         portalColor := None; cell_id := cell_id cell |}
  | Paint t =>
      {| cell_x := cell_x cell; cell_y := cell_y cell; cell_type := t;
         portalColor := if decide (t = TPortal) then Some selectedColor
                        else None;
         cell_id := cell_id cell |}
  end.

(** [handleCellClick(x, y)] for a cell that is rendered, hence exists;
    [None] for any other [(x, y)], where the handler is never attached. *)
Definition handleCellClick (selectedTool : Tool) (selectedColor : PortalColor)
    (grid : Grid) (x y : Z) : option Grid :=
  cell ← grid_at grid x y;
  let newGrid :=
    match selectedTool with
    | Paint TStart => clear_type TStart grid
    | Paint TGoal => clear_type TGoal grid
    | _ => grid
    end in
  update_cell newGrid x y (fun _ => painted selectedTool selectedColor cell).

(** A click with the tool and the colour selected at that time. *)
Record Click := mkClick {
  click_tool : Tool;
  click_color : PortalColor;
  click_x : Z;
  click_y : Z
}.

Definition handleClicks (grid : Grid) (clicks : list Click) : option Grid :=
  foldl (fun acc c =>
           grid ← acc;
           handleCellClick (click_tool c) (click_color c) grid
                           (click_x c) (click_y c))
        (Some grid) clicks.

(** [portals[c.portalColor] = (portals[c.portalColor] || 0) + 1] on an
    object whose entries keep the order of insertion. *)
Fixpoint bump (color : PortalColor) (portals : list (PortalColor * nat))
  : list (PortalColor * nat) :=
  match portals with
  | [] => [(color, 1)]
  | (c, n) :: rest =>
      if decide (c = color) then (c, S n) :: rest
      else (c, n) :: bump color rest
  end.

(** What the scan of [validateAndSave] collects. *)
Record Scan := mkScan {
  scan_start : option Cell;
  scan_goal : option Cell;
  scan_portals : list (PortalColor * nat)
}.

Definition scan_cell (acc : Scan) (c : Cell) : Scan :=
  {| scan_start := if decide (cell_type c = TStart) then Some c
                   else scan_start acc;
     scan_goal := if decide (cell_type c = TGoal) then Some c
                  else scan_goal acc;
     scan_portals :=
       match cell_type c, portalColor c with
       | TPortal, Some color => bump color (scan_portals acc)
       | _, _ => scan_portals acc
       end |}.

Definition scan_grid (grid : Grid) : Scan :=
  foldl (fun acc row => foldl scan_cell acc row)
        {| scan_start := None; scan_goal := None; scan_portals := [] |} grid.

(** [col.toUpperCase()] *)
Definition PortalColor_upper (color : PortalColor) : string :=
  match color with
  | Blue => "BLUE" | Red => "RED" | Green => "GREEN" | Yellow => "YELLOW"
  end.

(** The outcome of [validateAndSave]: [setValidationError(message)], or
    [onSave(newLevel)]. *)
Inductive Validation :=
  | Rejected (message : string)
  | Published (level : Level).

Section editor.
Context {World : Type} (env : Oracle World).

(** The initial grid of the editor: [GRID_SIZE] rows of [GRID_SIZE] empty
    cells. *)
Definition editor_grid (w : World) : Grid * World :=
  empty_rows env (seqZ 0 GRID_SIZE) GRID_SIZE w.

Definition validateAndSave (levelName : string) (maxBreaks : Z) (grid : Grid)
    (w : World) : Outcome (Validation * World) :=
  let scan := scan_grid grid in
  match scan_start scan with
  | None => Returns (Rejected "Missing START point.", w)
  | Some _ =>
      match scan_goal scan with
      | None => Returns (Rejected "Missing GOAL point.", w)
      | Some _ =>
          match head (filter (fun entry : PortalColor * nat => entry.2 < 2)
                             (scan_portals scan)) with
          | Some (col, _) =>
              Returns (Rejected (PortalColor_upper col
                                 +:+ " portal has no pair."), w)
          | None =>
              match solveMaze grid 0 with
              | Returns noBreakSol =>
                  match solveMaze grid maxBreaks with
                  | Returns breakSol =>
                      match noBreakSol, breakSol with
                      | None, None =>
                          Returns
                            (Rejected
                               "Level is impossible to complete in either mode.",
                             w)
                      | _, _ =>
                          let '(id, w1) := generateId env w in
                          let '(now, w2) := date_now env w1 in
                          Returns
                            (Published
                               {| level_id := id;
                                  level_name := if decide (levelName = "")
                                                then "Untitled" else levelName;
                                  level_grid := grid;
                                  maxBreaks := maxBreaks;
                                  optimalStepsNoBreak := steps <$> noBreakSol;
                                  optimalStepsWithBreak := steps <$> breakSol;
                                  createdAt := now |}, w2)
                      end
                  | TypeError => TypeError
                  | OutOfFuel => OutOfFuel
                  end
              | TypeError => TypeError
              | OutOfFuel => OutOfFuel
              end
          end
      end
  end.

(** [generateRandom]: the grid of a generated level replaces the editor's;
    an exception leaves the grid as it is and shows a message (the draws
    made before the exception are not tracked). *)
Definition generateRandom (maxBreaks : Z) (grid : Grid) (w : World)
  : Outcome (Grid * option string * World) :=
  match MazeGenerator.generateRandomLevel env maxBreaks w with
  | Returns (level, w1) => Returns (level_grid level, None, w1)
  | TypeError =>
      Returns (grid, Some "Failed to generate random map. Try again.", w)
  | OutOfFuel => OutOfFuel
  end.

End editor.

(** ** The application ([App.tsx]) *)

(** [type AppScreen] and the state of [App] that [generateAndStart]
    writes. *)
Inductive AppScreen := Menu | LevelSelect | GameScreen | EditorScreen.

Record AppState := mkApp {
  screen : AppScreen;
  levels : list Level;
  activeLevel : option Level;
  gameMode : GameMode;
  lastResult : option (Z * Z)
}.

Section app.
Context {World : Type} (env : Oracle World).

(** [generateAndStart]: a level with 1 to 3 breaks is generated, appended
    to the levels and started in no-break mode by [startLevel]. *)
Definition generateAndStart (app : AppState) (w : World)
  : Outcome (AppState * World) :=
  let '(r, w1) := random_floor env 3 w in
  match MazeGenerator.generateRandomLevel env (Z.of_nat r + 1) w1 with
  | Returns (randomLevel, w2) =>
      Returns ({| screen := GameScreen;
                  levels := levels app ++ [randomLevel];
                  activeLevel := Some randomLevel;
                  gameMode := NoBreak;
                  lastResult := None |}, w2)
  | TypeError => TypeError
  | OutOfFuel => OutOfFuel
  end.

End app.

(** The count stored in a level for a mode, the "Optimal" of the result
    banner. *)
Definition stored_count (level : Level) (mode : GameMode) : option Z :=
  match mode with
  | NoBreak => optimalStepsNoBreak level
  | WallBreak => optimalStepsWithBreak level
  end.

(** ** Vocabulary of the editor invariants *)

(** Grids that differ in the ids of their cells only. *)
Definition with_id (id : string) (c : Cell) : Cell :=
  {| cell_x := cell_x c; cell_y := cell_y c; cell_type := cell_type c;
     portalColor := portalColor c; cell_id := id |}.

Definition relabel (ids : Cell → string) (grid : Grid) : Grid :=
  map_cells (fun c => with_id (ids c) c) grid.

(** A rewriting of cells that keeps all that the solver reads. *)
Definition keeps_kind (f : Cell → Cell) : Prop :=
  ∀ c, cell_x (f c) = cell_x c ∧ cell_y (f c) = cell_y c
       ∧ cell_type (f c) = cell_type c ∧ portalColor (f c) = portalColor c.

(** What the editor keeps true of its grid: it is well formed, has at most
    one start and at most one goal, and the cells that carry a portal
    colour are the portal cells. *)
Definition editor_ok (grid : Grid) : Prop :=
  wf_grid grid
  ∧ count_type TStart grid ≤ 1
  ∧ count_type TGoal grid ≤ 1
  ∧ ∀ c, c ∈ cells grid → (cell_type c = TPortal ↔ is_Some (portalColor c)).

(** The number of portal cells of a colour. *)
Definition count_portals (color : PortalColor) (grid : Grid) : nat :=
  length (filter (portal_of color) (cells grid)).

(** The demo level with the ids left out. *)
Definition demo_kinds : list (list (CellType * option PortalColor)) :=
  let E := (TEmpty, None) in
  let W := (TWall, None) in
  [[(TStart, None); E; E; E; E; E; E; (TPortal, Some Blue)];
   [E; W; W; W; W; E; E; E];
   [E; E; E; E; W; E; E; E];
   [E; (TPortal, Some Blue); E; E; W; E; E; E];
   [E; E; E; E; W; E; (TPortal, Some Red); E];
   [E; W; E; E; W; E; E; E];
   [E; W; (TPortal, Some Red); E; W; E; E; E];
   [E; E; E; E; E; E; E; (TGoal, None)]].

(** What a click with a tool does to the cells it does not land on: the
    start tool empties the starts, the goal tool the goals. *)
Definition cleared (selectedTool : Tool) (c : Cell) : Cell :=
  match selectedTool with
  | Paint TStart =>
      if decide (cell_type c = TStart) then with_type TEmpty c else c
  | Paint TGoal =>
      if decide (cell_type c = TGoal) then with_type TEmpty c else c
  | _ => c
  end.

(** At most one cell of a kind. *)
Definition at_most_one (t : CellType) (grid : Grid) : Prop :=
  ∀ c c', c ∈ cells grid → c' ∈ cells grid →
          cell_type c = t → cell_type c' = t → c = c'.

(** The clicks land on cells of a grid of the editor's size. *)
Definition on_grid (click : Click) : Prop :=
  (0 <= click_x click < GRID_SIZE)%Z ∧ (0 <= click_y click < GRID_SIZE)%Z.

(** The entries of the portal tally of [validateAndSave] after the cells
    [l] have been scanned: one entry for each colour that has a portal cell
    in [l], holding the number of those cells. *)
Definition tallied (l : list Cell) (portals : list (PortalColor * nat))
  : Prop :=
  NoDup portals.*1
  ∧ ∀ color n, (color, n) ∈ portals ↔
               (0 < n ∧ n = length (filter (portal_of color) l)).

(** ** Vocabulary of the shape of generated grids *)

(** A position off the outer border of a 10 x 10 grid. *)
Definition interior (x y : Z) : Prop :=
  (0 < x < GRID_SIZE - 1)%Z ∧ (0 < y < GRID_SIZE - 1)%Z.

(** The shape the generator keeps while it builds a grid: the border cells
    are walls, the portal cells are blue and stand at the places [places],
    and no other cell carries a portal colour. *)
Definition shaped (places : list Pos) (grid : Grid) : Prop :=
  ∀ x y c, grid_at grid x y = Some c →
           (¬ interior x y → cell_type c = TWall)
           ∧ (cell_type c = TPortal →
              (x, y) ∈ places ∧ portalColor c = Some Blue)
           ∧ (cell_type c ≠ TPortal → portalColor c = None).

#[global] Instance Cell_eq_dec : EqDecision Cell.
Proof. solve_decision. Defined.

(** A row with three blue portals, the third behind a wall:
    [start, portal, portal, wall, portal, goal]. *)
Definition triple_grid : Grid :=
  grid_of [[(TStart, None); (TPortal, Some Blue); (TPortal, Some Blue);
            (TWall, None); (TPortal, Some Blue); (TGoal, None)]].

(** The player is still playing on the unchanged [triple_grid], on one of
    the three cells left of the wall. *)
Definition left_of_wall (st : GameState) : bool :=
  bool_decide (status st = Playing)
  && bool_decide (playerPos st ∈ [(0, 0); (1, 0); (2, 0)]%Z)
  && bool_decide (game_grid st = triple_grid).

(** * Properties *)

(** ** The guarded push *)

Lemma node_key_child current k : node_key (child current k) = k.
Proof. by destruct k as [[??]?]. Qed.

Lemma node_key_children current (new : list Key) :
  node_key <$> (child current <$> new) = new.
Proof.
  induction new as [|k new IH]; [done|].
  rewrite !fmap_cons, IH. f_equal. apply node_key_child.
Qed.

Lemma visit_foldl current succs st :
  ∃ new,
    queue (foldl (visit current) st succs) = queue st ++ (child current <$> new)
    ∧ enqueued (foldl (visit current) st succs)
      = enqueued st ++ (child current <$> new)
    ∧ dequeued (foldl (visit current) st succs) = dequeued st
    ∧ (∀ k, k ∈ visited (foldl (visit current) st succs)
            ↔ k ∈ new ∨ k ∈ visited st)
    ∧ NoDup new
    ∧ (∀ k, k ∈ new → k ∈ succs ∧ k ∉ visited st)
    ∧ (∀ k, k ∈ succs → k ∈ visited (foldl (visit current) st succs)).
Proof.
  revert st. induction succs as [|k succs IH]; intros st; simpl.
  - exists []. simpl. rewrite !app_nil_r. split_and!; try done.
    + intros k. rewrite elem_of_nil. tauto.
    + constructor.
    + intros k H. by apply elem_of_nil in H.
    + intros k H. by apply elem_of_nil in H.
  - destruct (IH (visit current st k))
      as (new & Hq & He & Hd & Hv & Hnd & Hnew & Hall).
    unfold visit in *. destruct (decide (k ∈ visited st)) as [Hin|Hnin].
    + exists new. split_and!; try done.
      * intros k1 H. split; [|by apply Hnew].
        apply elem_of_cons. right. by apply Hnew.
      * intros k1 [->|H]%elem_of_cons; [|by apply Hall].
        apply Hv. by right.
    + simpl in *. exists (k :: new). rewrite Hq, He, Hd. simpl.
      rewrite <- !app_assoc. simpl. split_and!; try done.
      * intros k1. rewrite Hv, elem_of_cons, elem_of_union, elem_of_singleton.
        tauto.
      * constructor; [|done]. intros H. apply Hnew in H as [_ H].
        apply H. apply elem_of_union. left. by apply elem_of_singleton.
      * intros k1 [->|H]%elem_of_cons.
        -- split; [apply elem_of_cons; by left | done].
        -- apply Hnew in H as [H1 H2]. split; [apply elem_of_cons; by right|].
           intros H3. apply H2. apply elem_of_union. by right.
      * intros k1 [->|H]%elem_of_cons; [|by apply Hall].
        apply Hv. right. apply elem_of_union. left. by apply elem_of_singleton.
Qed.

(** ** The loop of the search, over any bounded and closed state space *)

Section search_correct.
Context (grid : Grid) (portals : gmap PortalColor (list Pos)).
Context (K rows cols : Z) (goal : Pos) (k0 : Key) (U : list Key).

Abbreviation next := (successors grid portals K rows cols).
Abbreviation Inv := (search_inv next goal k0 U).

Hypothesis U_closed :
  ∀ k, k ∈ U → ∃ succs, next k = Some succs ∧ ∀ k', k' ∈ succs → k' ∈ U.

Lemma trail_length ks k : trail next k0 ks k → 0 < length ks.
Proof. destruct 1; [simpl; lia | rewrite length_app; simpl; lia]. Qed.

Lemma trail_last ks k : trail next k0 ks k → last ks = Some k.
Proof. destruct 1; [done | by rewrite last_snoc]. Qed.

Lemma trail_head ks k : trail next k0 ks k → head ks = Some k0.
Proof.
  induction 1 as [|ks k succs k' Ht IH _ _]; [done|].
  destruct ks; [done | by simpl in *].
Qed.

Lemma level_head st h rest n :
  Inv st → queue st = h :: rest → n ∈ queue st →
  (node_steps h <= node_steps n <= node_steps h + 1)%Z.
Proof.
  intros HI Hq Hn. destruct (inv_level _ _ _ _ _ HI) as (d & front & back & Hs & Hf & Hb).
  rewrite Hs in Hn, Hq. apply elem_of_app in Hn.
  destruct front as [|f front]; simpl in Hq.
  - rewrite (Hb h) by (rewrite Hq; apply elem_of_cons; by left).
    destruct Hn as [Hn|Hn]; [by apply elem_of_nil in Hn|].
    rewrite (Hb n Hn). lia.
  - injection Hq as -> _.
    rewrite (Hf h) by (apply elem_of_cons; by left).
    destruct Hn as [Hn|Hn]; [rewrite (Hf n Hn) | rewrite (Hb n Hn)]; lia.
Qed.

(** Every state that a walk reaches in no more steps than the nodes still
    queued have has already been visited. *)
Lemma trail_visited st ks k :
  Inv st → trail next k0 ks k →
  (∀ n, n ∈ queue st → (Z.of_nat (length ks) <= node_steps n + 1)%Z) →
  k ∈ visited st.
Proof.
  intros HI Ht. induction Ht as [|ks k succs k' Ht IH Hnext Hk']; intros Hq.
  - apply (inv_start _ _ _ _ _ HI).
  - rewrite length_app in Hq. simpl in Hq.
    assert (k ∈ visited st) as Hk.
    { apply IH. intros n Hn. specialize (Hq n Hn). lia. }
    apply (inv_keys _ _ _ _ _ HI) in Hk.
    rewrite (inv_fifo _ _ _ _ _ HI), fmap_app in Hk.
    apply elem_of_app in Hk as [Hk|Hk];
      apply list_elem_of_fmap in Hk as (n & -> & Hn).
    + destruct (inv_closed _ _ _ _ _ HI n Hn) as (_ & succs' & Hs & Hall).
      rewrite Hnext in Hs. injection Hs as <-. by apply Hall.
    + pose proof (inv_least _ _ _ _ _ HI n ks Hn Ht).
      specialize (Hq n Hn). lia.
Qed.

Lemma iterate_continue st st' :
  Inv st → iterate grid portals K rows cols goal st = Continue st' →
  Inv st' ∧ length (dequeued st') = S (length (dequeued st)).
Proof.
  intros HI. unfold iterate.
  destruct (queue st) as [|h rest] eqn:Hq; [done|].
  destruct (decide _) as [|Hng]; [done|].
  destruct (next (node_key h)) as [succs|] eqn:Hnext; [|done].
  intros [= <-].
  match goal with |- context [foldl _ ?s _] => set (st1 := s) end.
  destruct (visit_foldl h succs st1)
    as (new & Hq' & He' & Hd' & Hv' & Hnd & Hnew & Hall).
  set (st2 := foldl (visit h) st1 succs) in *. simpl in *.
  assert (h ∈ enqueued st) as Hh.
  { rewrite (inv_fifo _ _ _ _ _ HI), Hq. apply elem_of_app. right.
    apply elem_of_cons. by left. }
  assert (node_key h ∈ U) as HhU.
  { apply (inv_bound _ _ _ _ _ HI), (inv_keys _ _ _ _ _ HI).
    apply list_elem_of_fmap. eauto. }
  destruct (U_closed _ HhU) as (succs' & Hs' & HsU).
  rewrite Hnext in Hs'. injection Hs' as <-.
  split; [|rewrite Hd', length_app; simpl; lia].
  split.
  - intros k. rewrite Hv', He', fmap_app, elem_of_app.
    rewrite <- (inv_keys _ _ _ _ _ HI k), node_key_children. tauto.
  - rewrite He', Hd', Hq', (inv_fifo _ _ _ _ _ HI), Hq.
    rewrite <- !app_assoc. done.
  - rewrite He', fmap_app. apply NoDup_app. split_and!.
    + apply (inv_nodup _ _ _ _ _ HI).
    + intros k Hk1 Hk2.
      apply list_elem_of_fmap in Hk2 as (n & -> & Hn).
      apply list_elem_of_fmap in Hn as (k & -> & Hk).
      rewrite node_key_child in Hk1.
      apply Hnew in Hk as [_ Hk]. apply Hk.
      by apply (inv_keys _ _ _ _ _ HI).
    + by rewrite node_key_children.
  - intros k [Hk|Hk]%Hv'.
    + apply HsU. by apply Hnew.
    + by apply (inv_bound _ _ _ _ _ HI).
  - apply Hv'. right. apply (inv_start _ _ _ _ _ HI).
  - intros n. rewrite He'. intros [Hn|Hn]%elem_of_app.
    + by apply (inv_good _ _ _ _ _ HI).
    + apply list_elem_of_fmap in Hn as (k & -> & Hk).
      destruct (inv_good _ _ _ _ _ HI h Hh) as (ks & Ht & Hp & Hl).
      exists (ks ++ [k]). rewrite node_key_child. split_and!.
      * eapply trail_step; eauto. by apply Hnew.
      * simpl. rewrite Hp, fmap_app. done.
      * simpl. rewrite Hl, length_app. simpl. lia.
  - intros n ks. rewrite Hq'. intros [Hn|Hn]%elem_of_app Ht.
    + apply (inv_least _ _ _ _ _ HI); [|done].
      rewrite Hq. apply elem_of_cons. by right.
    + apply list_elem_of_fmap in Hn as (k & -> & Hk).
      rewrite node_key_child in Ht. simpl.
      destruct (decide (node_steps h + 1 + 1 <= Z.of_nat (length ks))%Z)
        as [|Hlt]; [done|]. exfalso.
      apply Hnew in Hk as [_ Hk]. apply Hk.
      apply (trail_visited st ks k HI Ht).
      intros n Hn. pose proof (level_head st h rest n HI Hq Hn). lia.
  - destruct (inv_level _ _ _ _ _ HI) as (d & front & back & Hs & Hf & Hb).
    rewrite Hq in Hs. rewrite Hq'. destruct front as [|f front]; simpl in Hs.
    + destruct back as [|b back]; [done|]. injection Hs as <- ->.
      exists (d + 1)%Z, back, (child h <$> new). split_and!; [done| |].
      * intros n Hn. apply Hb. apply elem_of_cons. by right.
      * intros n (k & -> & Hk)%list_elem_of_fmap. simpl.
        rewrite (Hb h); [done|]. apply elem_of_cons. by left.
    + injection Hs as <- ->.
      exists d, front, (back ++ (child h <$> new)).
      split_and!; [by rewrite app_assoc| |].
      * intros n Hn. apply Hf. apply elem_of_cons. by right.
      * intros n [Hn|Hn]%elem_of_app; [by apply Hb|].
        apply list_elem_of_fmap in Hn as (k & -> & Hk). simpl.
        rewrite (Hf h); [done|]. apply elem_of_cons. by left.
  - intros n. rewrite Hd'. intros [Hn|Hn]%elem_of_app.
    + destruct (inv_closed _ _ _ _ _ HI n Hn) as (Hg & succs' & Hs & Ha).
      split; [done|]. exists succs'. split; [done|].
      intros k' Hk'. apply Hv'. right. by apply Ha.
    + apply list_elem_of_singleton in Hn as ->. split; [done|].
      exists succs. split; [done|]. apply Hall.
Qed.

Lemma inv_enqueued_bound st : Inv st → length (enqueued st) ≤ length U.
Proof.
  intros HI. rewrite <- (length_fmap node_key).
  apply submseteq_length, NoDup_submseteq; [apply (inv_nodup _ _ _ _ _ HI)|].
  intros k Hk. by apply (inv_bound _ _ _ _ _ HI), (inv_keys _ _ _ _ _ HI).
Qed.

(** The loop returns once it has fuel for the states not yet dequeued. *)
Lemma search_returns fuel st :
  Inv st → length U < fuel + length (dequeued st) →
  ∃ result st',
    search fuel grid portals K rows cols goal st = (Returns result, st')
    ∧ search_post next goal k0 U result st'.
Proof.
  revert st. induction fuel as [|fuel IH]; intros st HI Hfuel.
  - pose proof (inv_enqueued_bound st HI) as Hb.
    rewrite (inv_fifo _ _ _ _ _ HI), length_app in Hb. lia.
  - simpl.
    destruct (iterate grid portals K rows cols goal st) as [r st'|st'|st']
      eqn:Hit.
    + exists r, st'. split; [done|].
      unfold iterate in Hit. destruct (queue st) as [|h rest] eqn:Hq.
      * injection Hit as <- <-. simpl. split_and!; [done..|].
        intros ks k Ht Hg.
        assert (k ∈ visited st) as Hk.
        { apply (trail_visited st ks k HI Ht). rewrite Hq.
          intros n Hn. by apply elem_of_nil in Hn. }
        apply (inv_keys _ _ _ _ _ HI) in Hk.
        rewrite (inv_fifo _ _ _ _ _ HI), Hq, app_nil_r in Hk.
        apply list_elem_of_fmap in Hk as (n & -> & Hn).
        by destruct (inv_closed _ _ _ _ _ HI n Hn) as [Hng _].
      * destruct (decide _) as [Hg|Hng].
        -- injection Hit as <- <-. simpl.
           exists st, h, rest. split_and!; [done..|].
           intros ks k Ht Hgk.
           destruct (decide (node_steps h + 1 <= Z.of_nat (length ks))%Z)
             as [|Hlt]; [done|]. exfalso.
           assert (k ∈ visited st) as Hk.
           { apply (trail_visited st ks k HI Ht). intros n Hn.
             pose proof (level_head st h rest n HI Hq Hn). lia. }
           apply (inv_keys _ _ _ _ _ HI) in Hk.
           rewrite (inv_fifo _ _ _ _ _ HI), fmap_app in Hk.
           apply elem_of_app in Hk as [Hk|Hk];
             apply list_elem_of_fmap in Hk as (n & -> & Hn).
           ++ by destruct (inv_closed _ _ _ _ _ HI n Hn) as [Hng _].
           ++ pose proof (inv_least _ _ _ _ _ HI n ks Hn Ht).
              pose proof (level_head st h rest n HI Hq Hn). lia.
        -- by destruct (next (node_key h)).
    + destruct (iterate_continue st st' HI Hit) as [HI' Hd].
      apply IH; [done | lia].
    + exfalso. unfold iterate in Hit.
      destruct (queue st) as [|h rest] eqn:Hq; [done|].
      destruct (decide _); [done|].
      assert (node_key h ∈ U) as HhU.
      { apply (inv_bound _ _ _ _ _ HI), (inv_keys _ _ _ _ _ HI).
        apply list_elem_of_fmap. exists h. split; [done|].
        rewrite (inv_fifo _ _ _ _ _ HI), Hq. apply elem_of_app. right.
        apply elem_of_cons. by left. }
      destruct (U_closed _ HhU) as (succs & Hs & _).
      by rewrite Hs in Hit.
Qed.

Lemma initial_inv sx sy :
  k0 = (sx, sy, 0%Z) → k0 ∈ U → Inv (initial_search (sx, sy)).
Proof.
  intros Hk0 HU. split; simpl.
  - intros k. rewrite elem_of_singleton, list_elem_of_singleton. done.
  - done.
  - apply NoDup_singleton.
  - intros k ->%elem_of_singleton. by rewrite <- Hk0.
  - apply elem_of_singleton. done.
  - intros n ->%list_elem_of_singleton. exists [k0].
    split_and!; [| by rewrite Hk0 | done].
    unfold node_key; simpl. rewrite <- Hk0. constructor.
  - intros n ks ->%list_elem_of_singleton Ht.
    apply trail_length in Ht. simpl. lia.
  - exists 0%Z, [mkNode sx sy 0 0 [(sx, sy)]], []. split_and!.
    + done.
    + intros n ->%list_elem_of_singleton. done.
    + intros n Hn. by apply elem_of_nil in Hn.
  - intros n Hn. by apply elem_of_nil in Hn.
Qed.
End search_correct.

Lemma search_fuel_mono fuel fuel' grid portals K rows cols goal st r st' :
  search fuel grid portals K rows cols goal st = (Returns r, st') →
  fuel ≤ fuel' →
  search fuel' grid portals K rows cols goal st = (Returns r, st').
Proof.
  revert fuel' st. induction fuel as [|fuel IH]; intros fuel' st; [done|].
  intros Hs Hle. destruct fuel' as [|fuel']; [lia|]. simpl in *.
  destruct (iterate grid portals K rows cols goal st); try done.
  apply IH; [done | lia].
Qed.

(** ** Well-formed grids *)

Lemma wf_row_length grid row :
  wf_grid grid → row ∈ grid → grid_cols grid = Some (Z.of_nat (length row)).
Proof.
  intros [Hrect _] Hrow. rewrite Forall_forall in Hrect.
  rewrite (Hrect row Hrow). destruct grid as [|r grid]; [|done].
  by apply elem_of_nil in Hrow.
Qed.

Lemma wf_lookup grid j i row c :
  wf_grid grid → grid !! j = Some row → row !! i = Some c →
  cell_x c = Z.of_nat i ∧ cell_y c = Z.of_nat j.
Proof.
  intros [_ Hc] Hrow Hcell.
  rewrite Forall_lookup in Hc. specialize (Hc j (j, row)).
  rewrite list_lookup_imap, Hrow in Hc. specialize (Hc eq_refl). simpl in Hc.
  rewrite Forall_lookup in Hc. specialize (Hc i (i, c)).
  rewrite list_lookup_imap, Hcell in Hc. by apply Hc.
Qed.

Lemma grid_at_Some grid x y c :
  grid_at grid x y = Some c ↔
  (0 <= x)%Z ∧ (0 <= y)%Z
  ∧ ∃ row, grid !! Z.to_nat y = Some row ∧ row !! Z.to_nat x = Some c.
Proof.
  unfold grid_at.
  destruct (decide (0 <= x)%Z); [|split; [done | intros (? & ? & ?); lia]].
  destruct (decide (0 <= y)%Z); [|split; [done | intros (? & ? & ?); lia]].
  destruct (grid !! Z.to_nat y) as [row|]; split.
  - intros Hc. split_and!; eauto.
  - by intros (_ & _ & row' & [= <-] & Hc).
  - done.
  - by intros (_ & _ & row' & ? & _).
Qed.

Lemma grid_at_cell grid x y c :
  wf_grid grid → grid_at grid x y = Some c →
  cell_x c = x ∧ cell_y c = y ∧ c ∈ cells grid
  ∧ (0 <= x < default 0 (grid_cols grid))%Z ∧ (0 <= y < grid_rows grid)%Z.
Proof.
  intros Hwf (Hx & Hy & row & Hrow & Hc)%grid_at_Some.
  destruct (wf_lookup grid _ _ row c Hwf Hrow Hc) as [Hcx Hcy].
  assert (row ∈ grid) as Hin by (apply list_elem_of_lookup; eauto).
  rewrite (wf_row_length grid row Hwf Hin). simpl.
  split_and!.
  - rewrite Hcx. lia.
  - rewrite Hcy. lia.
  - apply list_elem_of_join. exists row. split; [|done].
    apply list_elem_of_lookup. eauto.
  - done.
  - apply lookup_lt_Some in Hc. lia.
  - done.
  - apply lookup_lt_Some in Hrow. unfold grid_rows. lia.
Qed.

Lemma grid_at_in_bounds grid x y :
  wf_grid grid →
  (0 <= x < default 0 (grid_cols grid))%Z → (0 <= y < grid_rows grid)%Z →
  is_Some (grid_at grid x y).
Proof.
  intros Hwf Hx Hy. unfold grid_rows in Hy.
  destruct (lookup_lt_is_Some_2 grid (Z.to_nat y)) as [row Hrow]; [lia|].
  assert (row ∈ grid) as Hin by (apply list_elem_of_lookup; eauto).
  rewrite (wf_row_length grid row Hwf Hin) in Hx. simpl in Hx.
  destruct (lookup_lt_is_Some_2 row (Z.to_nat x)) as [c Hc]; [lia|].
  exists c. apply grid_at_Some. split_and!; [lia | lia | by exists row].
Qed.

Lemma cell_grid_at grid c :
  wf_grid grid → c ∈ cells grid →
  grid_at grid (cell_x c) (cell_y c) = Some c.
Proof.
  intros Hwf (row & Hc & Hrow)%list_elem_of_join.
  apply list_elem_of_lookup in Hc as [i Hc], Hrow as [j Hrow].
  destruct (wf_lookup grid j i row c Hwf Hrow Hc) as [-> ->].
  apply grid_at_Some. rewrite !Nat2Z.id.
  split_and!; [lia | lia | by exists row].
Qed.

Lemma cell_pos_inj grid c c' :
  wf_grid grid → c ∈ cells grid → c' ∈ cells grid →
  cell_pos c = cell_pos c' → c = c'.
Proof.
  intros Hwf Hc Hc' [= Hx Hy].
  pose proof (cell_grid_at grid c Hwf Hc) as H1.
  pose proof (cell_grid_at grid c' Hwf Hc') as H2.
  rewrite Hx, Hy in H1. congruence.
Qed.

(** ** Endpoints and portal groups *)

Lemma foldl_rows {A} (f : A → Cell → A) (grid : Grid) (a : A) :
  foldl (fun acc row => foldl f acc row) a grid = foldl f a (cells grid).
Proof.
  revert a. induction grid as [|row grid IH]; intros a; [done|].
  unfold cells. simpl. rewrite foldl_app. apply IH.
Qed.

Lemma foldl_snoc {A B} (f : A → B → A) (l : list B) (b : B) (a : A) :
  foldl f a (l ++ [b]) = f (foldl f a l) b.
Proof. by rewrite foldl_app. Qed.

Lemma endpoints_start l acc :
  (foldl note_endpoint acc l).1
  = match last (filter (fun c => cell_type c = TStart) l) with
    | Some c => Some (cell_pos c)
    | None => acc.1
    end.
Proof.
  induction l as [|c l IH] using rev_ind; [done|].
  rewrite foldl_snoc, filter_app. unfold note_endpoint at 1. simpl.
  rewrite filter_cons, filter_nil.
  destruct (decide (cell_type c = TStart)).
  - by rewrite last_snoc.
  - by rewrite app_nil_r.
Qed.

Lemma endpoints_goal l acc :
  (foldl note_endpoint acc l).2
  = match last (filter (fun c => cell_type c = TGoal) l) with
    | Some c => Some (cell_pos c)
    | None => acc.2
    end.
Proof.
  induction l as [|c l IH] using rev_ind; [done|].
  rewrite foldl_snoc, filter_app. unfold note_endpoint at 1. simpl.
  rewrite filter_cons, filter_nil.
  destruct (decide (cell_type c = TGoal)).
  - by rewrite last_snoc.
  - by rewrite app_nil_r.
Qed.

Lemma last_elem_of {A} (l : list A) (x : A) : last l = Some x → x ∈ l.
Proof.
  rewrite last_lookup. intros H. apply list_elem_of_lookup. eauto.
Qed.

Lemma last_is_Some_elem {A} (l : list A) (x : A) : x ∈ l → is_Some (last l).
Proof.
  intros H. destruct l as [|y l] using rev_ind.
  - by apply elem_of_nil in H.
  - rewrite last_snoc. eauto.
Qed.

(** The start returned by [findEndpoints] is the position of a start cell,
    and there is one whenever the grid has a start cell; likewise the goal. *)
Lemma findEndpoints_start grid s :
  (findEndpoints grid).1 = Some s →
  ∃ c, c ∈ cells grid ∧ cell_type c = TStart ∧ s = cell_pos c.
Proof.
  unfold findEndpoints. rewrite foldl_rows, endpoints_start.
  destruct (last _) as [c|] eqn:Hl; [|done]. intros [= <-].
  apply last_elem_of, list_elem_of_filter in Hl as [? ?]. eauto.
Qed.

Lemma findEndpoints_goal grid g :
  (findEndpoints grid).2 = Some g →
  ∃ c, c ∈ cells grid ∧ cell_type c = TGoal ∧ g = cell_pos c.
Proof.
  unfold findEndpoints. rewrite foldl_rows, endpoints_goal.
  destruct (last _) as [c|] eqn:Hl; [|done]. intros [= <-].
  apply last_elem_of, list_elem_of_filter in Hl as [? ?]. eauto.
Qed.

Lemma findEndpoints_start_Some grid c :
  c ∈ cells grid → cell_type c = TStart → is_Some (findEndpoints grid).1.
Proof.
  intros Hc Ht. unfold findEndpoints. rewrite foldl_rows, endpoints_start.
  destruct (last_is_Some_elem (filter (fun c => cell_type c = TStart)
                                 (cells grid)) c) as [c' ->]; [|eauto].
  by apply list_elem_of_filter.
Qed.

Lemma findEndpoints_goal_Some grid c :
  c ∈ cells grid → cell_type c = TGoal → is_Some (findEndpoints grid).2.
Proof.
  intros Hc Ht. unfold findEndpoints. rewrite foldl_rows, endpoints_goal.
  destruct (last_is_Some_elem (filter (fun c => cell_type c = TGoal)
                                 (cells grid)) c) as [c' ->]; [|eauto].
  by apply list_elem_of_filter.
Qed.

Lemma findEndpoints_no_start grid :
  count_type TStart grid = 0 → (findEndpoints grid).1 = None.
Proof.
  unfold count_type. intros H%nil_length_inv.
  unfold findEndpoints. by rewrite foldl_rows, endpoints_start, H.
Qed.

Lemma findEndpoints_no_goal grid :
  count_type TGoal grid = 0 → (findEndpoints grid).2 = None.
Proof.
  unfold count_type. intros H%nil_length_inv.
  unfold findEndpoints. by rewrite foldl_rows, endpoints_goal, H.
Qed.

(** With exactly one cell of a kind, every cell of that kind is that one. *)
Lemma count_type_unique t grid c c' :
  count_type t grid = 1 →
  c ∈ cells grid → cell_type c = t →
  c' ∈ cells grid → cell_type c' = t → c = c'.
Proof.
  unfold count_type. intros Hn Hc Ht Hc' Ht'.
  destruct (filter _ (cells grid)) as [|a [|b l]] eqn:Hf; try done.
  assert (c ∈ [a]) as ->%list_elem_of_singleton
    by (rewrite <- Hf; by apply list_elem_of_filter).
  assert (c' ∈ [a]) as ->%list_elem_of_singleton
    by (rewrite <- Hf; by apply list_elem_of_filter).
  done.
Qed.

(** The group of a color is the positions of the portal cells of that color
    in row-major order. *)
Lemma portals_group l acc color :
  default [] (foldl add_portal acc l !! color)
  = default [] (acc !! color) ++ (cell_pos <$> filter (portal_of color) l).
Proof.
  revert acc. induction l as [|c l IH]; intros acc; simpl.
  - by rewrite app_nil_r.
  - rewrite IH, filter_cons.
    destruct (decide (portal_of color c)) as [[Ht Hc]|Hn].
    + unfold add_portal. rewrite Ht, Hc, lookup_insert_eq. simpl.
      by rewrite <- app_assoc.
    + f_equal. f_equal. unfold add_portal.
      destruct (cell_type c) eqn:Ht; try done.
      destruct (portalColor c) as [c0|] eqn:Hc; [|done].
      rewrite lookup_insert_ne; [done|]. intros ->. by apply Hn.
Qed.

Lemma findPortals_group grid color :
  default [] (findPortals grid !! color)
  = cell_pos <$> filter (portal_of color) (cells grid).
Proof.
  unfold findPortals. by rewrite foldl_rows, portals_group, lookup_empty.
Qed.

Lemma two_elements {A} (l : list A) (a b : A) :
  a ∈ l → b ∈ l → a ≠ b → 1 < length l.
Proof.
  intros Ha Hb Hne. destruct l as [|x [|y l]]; simpl; try lia.
  - by apply elem_of_nil in Ha.
  - apply list_elem_of_singleton in Ha, Hb. congruence.
Qed.

(** On a well-formed grid the teleport destinations from the cell at
    [(x, y)] are the positions of the other cells of its portal color. *)
Lemma teleport_targets_spec grid x y c dest :
  wf_grid grid → grid_at grid x y = Some c →
  dest ∈ teleport_targets (findPortals grid) c x y ↔
  ∃ color c', cell_type c = TPortal ∧ portalColor c = Some color
              ∧ c' ∈ cells grid ∧ portal_of color c'
              ∧ cell_pos c' ≠ (x, y) ∧ dest = cell_pos c'.
Proof.
  intros Hwf Hc. destruct (grid_at_cell grid x y c Hwf Hc) as (Hx & Hy & Hin & _).
  unfold teleport_targets. split.
  - destruct (cell_type c) eqn:Ht; try (by intros ?%elem_of_nil).
    destruct (portalColor c) as [color|] eqn:Hcol; [|by intros ?%elem_of_nil].
    pose proof (findPortals_group grid color) as Hg.
    destruct (findPortals grid !! color) as [group|];
      [|by intros ?%elem_of_nil].
    simpl in Hg. destruct (decide _); [|by intros ?%elem_of_nil].
    intros [Hne Hd]%list_elem_of_filter. rewrite Hg in Hd.
    apply list_elem_of_fmap in Hd as (c' & -> & [Hp Hc']%list_elem_of_filter).
    exists color, c'. split_and!; try done.
    intros [= ? ?]. apply Hne. simpl. done.
  - intros (color & c' & Ht & Hcol & Hc' & Hp & Hne & ->).
    rewrite Ht, Hcol.
    pose proof (findPortals_group grid color) as Hg.
    assert (cell_pos c' ∈ default [] (findPortals grid !! color)) as Hd.
    { rewrite Hg. apply list_elem_of_fmap. exists c'. split; [done|].
      by apply list_elem_of_filter. }
    assert (cell_pos c ∈ default [] (findPortals grid !! color)) as Hs.
    { rewrite Hg. apply list_elem_of_fmap. exists c. split; [done|].
      by apply list_elem_of_filter. }
    destruct (findPortals grid !! color) as [group|];
      [|by apply elem_of_nil in Hd].
    simpl in Hd, Hs. rewrite decide_True.
    + apply list_elem_of_filter. split; [|done].
      intros [? ?]. apply Hne. by apply injective_projections.
    + apply (two_elements group (cell_pos c) (cell_pos c')); [done..|].
      unfold cell_pos at 1. rewrite Hx, Hy. done.
Qed.

(** ** The candidate successors on a well-formed grid *)

Lemma or_iff_both (A B C D : Prop) : (A ↔ C) → (B ↔ D) → (A ∨ B ↔ C ∨ D).
Proof. tauto. Qed.

Lemma cardinal_DIRECTIONS dx dy : (dx, dy) ∈ DIRECTIONS ↔ cardinal dx dy.
Proof.
  unfold DIRECTIONS, cardinal. rewrite !elem_of_cons, elem_of_nil.
  split.
  - intros [[= -> ->]|[[= -> ->]|[[= -> ->]|[[= -> ->]|[]]]]]; lia.
  - intros [[-> [->| ->]]|[-> [->| ->]]]; tauto.
Qed.

Lemma mapM_candidates {A B} (f : A → option (option B)) (l : list A) :
  (∀ a, a ∈ l → is_Some (f a)) →
  ∃ ms : list (option B),
    mapM f l = Some ms
    ∧ ∀ b, b ∈ omap id ms ↔ ∃ a, a ∈ l ∧ f a = Some (Some b).
Proof.
  induction l as [|a l IH]; intros Hf.
  - exists []. split; [done|]. intros b. simpl. rewrite elem_of_nil.
    split; [done|]. intros (a & Ha & _). by apply elem_of_nil in Ha.
  - destruct IH as (ms & Hms & Hiff).
    { intros a' Ha'. apply Hf. apply elem_of_cons. by right. }
    destruct (Hf a) as [m Hm]; [apply elem_of_cons; by left|].
    exists (m :: ms). split.
    + simpl. rewrite Hm. simpl. rewrite Hms. done.
    + intros b. simpl. destruct m as [b'|]; simpl.
      * rewrite elem_of_cons, Hiff. split.
        -- intros [->|(a' & Ha' & Hfa')].
           ++ exists a. split; [apply elem_of_cons; by left | done].
           ++ exists a'. split; [apply elem_of_cons; by right | done].
        -- intros (a' & [->|Ha']%elem_of_cons & Hfa').
           ++ left. congruence.
           ++ right. eauto.
      * rewrite Hiff. split.
        -- intros (a' & Ha' & Hfa').
           exists a'. split; [apply elem_of_cons; by right | done].
        -- intros (a' & [->|Ha']%elem_of_cons & Hfa'); [congruence|eauto].
Qed.

Lemma move_target_wf grid K cols x y b dir :
  wf_grid grid → grid_cols grid = Some cols →
  ∃ r, move_target grid K (grid_rows grid) cols x y b dir = Some r
       ∧ ∀ k', r = Some k' ↔
               ∃ n, grid_at grid (x + dir.1) (y + dir.2) = Some n
                    ∧ ((cell_type n ≠ TWall ∧ (b <= K)%Z
                        ∧ k' = ((x + dir.1)%Z, (y + dir.2)%Z, b))
                       ∨ (cell_type n = TWall ∧ (b + 1 <= K)%Z
                          ∧ k' = ((x + dir.1)%Z, (y + dir.2)%Z, (b + 1)%Z))).
Proof.
  intros Hwf Hcols. unfold move_target.
  destruct (decide _) as [Hb|Hnb].
  - destruct (grid_at_in_bounds grid (x + dir.1) (y + dir.2) Hwf) as [n Hn];
      [rewrite Hcols; simpl; lia | lia |].
    rewrite Hn. destruct (decide (cell_type n = TWall)) as [Hw|Hw].
    + rewrite bool_decide_eq_true_2 by done.
      destruct (decide _) as [Hle|Hgt]; eexists; (split; [done|]); intros k'.
      * split.
        -- intros [= <-]. exists n. split; [done|]. right. done.
        -- intros (n' & [= <-] & [(? & _)|(_ & _ & ->)]); done.
      * split; [done|].
        intros (n' & [= <-] & [(? & _)|(_ & ? & _)]); [done|lia].
    + rewrite bool_decide_eq_false_2 by done.
      destruct (decide _) as [Hle|Hgt]; eexists; (split; [done|]); intros k'.
      * split.
        -- intros [= <-]. exists n. split; [done|]. left. done.
        -- intros (n' & [= <-] & [(_ & _ & ->)|(? & _)]); done.
      * split; [done|].
        intros (n' & [= <-] & [(_ & ? & _)|(? & _)]); [lia|done].
  - eexists. split; [done|]. intros k'. split; [done|].
    intros (n & Hn & _). exfalso. apply Hnb.
    destruct (grid_at_cell grid _ _ n Hwf Hn) as (_ & _ & _ & Hx & Hy).
    rewrite Hcols in Hx. simpl in Hx. lia.
Qed.

(** What [successors] lists at a place of a well-formed grid. *)
Lemma successors_wf grid K cols x y b c :
  wf_grid grid → grid_cols grid = Some cols → grid_at grid x y = Some c →
  ∃ succs,
    successors grid (findPortals grid) K (grid_rows grid) cols (x, y, b)
    = Some succs
    ∧ ∀ k', k' ∈ succs ↔
        (∃ color c', cell_type c = TPortal ∧ portalColor c = Some color
                     ∧ c' ∈ cells grid ∧ portal_of color c'
                     ∧ cell_pos c' ≠ (x, y)
                     ∧ k' = (cell_x c', cell_y c', b))
        ∨ (∃ dx dy n, cardinal dx dy
                      ∧ grid_at grid (x + dx) (y + dy) = Some n
                      ∧ ((cell_type n ≠ TWall ∧ (b <= K)%Z
                          ∧ k' = ((x + dx)%Z, (y + dy)%Z, b))
                         ∨ (cell_type n = TWall ∧ (b + 1 <= K)%Z
                            ∧ k' = ((x + dx)%Z, (y + dy)%Z, (b + 1)%Z)))).
Proof.
  intros Hwf Hcols Hc.
  destruct (mapM_candidates
              (move_target grid K (grid_rows grid) cols x y b) DIRECTIONS)
    as (ms & Hmap & Hms).
  { intros dir _.
    destruct (move_target_wf grid K cols x y b dir Hwf Hcols) as (r & -> & _).
    eauto. }
  unfold successors. rewrite Hc. cbn [mbind option_bind].
  rewrite Hmap. cbn [mbind option_bind]. eexists. split; [done|]. intros k'.
  rewrite elem_of_app, Hms, list_elem_of_fmap. apply or_iff_both.
  - split.
    + intros (dest & -> & Hd).
      apply (teleport_targets_spec grid x y c dest Hwf Hc) in Hd
        as (color & c' & ? & ? & ? & ? & ? & ->).
      exists color, c'. done.
    + intros (color & c' & ? & ? & ? & ? & ? & ->).
      exists (cell_pos c'). split; [done|].
      apply (teleport_targets_spec grid x y c _ Hwf Hc).
      exists color, c'. done.
  - split.
    + intros ([dx dy] & Hd & Hm).
      destruct (move_target_wf grid K cols x y b (dx, dy) Hwf Hcols)
        as (r & Hr & Hiff).
      rewrite Hr in Hm. injection Hm as ->.
      destruct (proj1 (Hiff k') eq_refl) as (n & Hn & Hcase).
      exists dx, dy, n. split; [by apply cardinal_DIRECTIONS|]. done.
    + intros (dx & dy & n & Hd & Hn & Hcase).
      exists (dx, dy). split; [by apply cardinal_DIRECTIONS|].
      destruct (move_target_wf grid K cols x y b (dx, dy) Hwf Hcols)
        as (r & Hr & Hiff).
      rewrite Hr. f_equal. apply Hiff. exists n. done.
Qed.

(** ** The state space of a well-formed grid *)

Lemma elem_of_all_states grid K x y b :
  (x, y, b) ∈ all_states grid K ↔
  (0 <= x < default 0 (grid_cols grid))%Z ∧ (0 <= y < grid_rows grid)%Z
  ∧ (0 <= b <= Z.max 0 K)%Z.
Proof.
  unfold all_states. rewrite !list_elem_of_cprod, !elem_of_seqZ. simpl. lia.
Qed.

Lemma length_all_states grid K :
  length (all_states grid K) = state_space grid (Z.max 0 K).
Proof.
  unfold all_states, state_space, grid_rows.
  rewrite !list_cprod_list_prod, !List.length_prod, !length_seqZ.
  rewrite Nat2Z.id. lia.
Qed.

Lemma cell_in_all_states grid K c b :
  wf_grid grid → c ∈ cells grid → (0 <= b <= Z.max 0 K)%Z →
  (cell_x c, cell_y c, b) ∈ all_states grid K.
Proof.
  intros Hwf Hc Hb. apply elem_of_all_states.
  pose proof (cell_grid_at grid c Hwf Hc) as Hat.
  destruct (grid_at_cell grid _ _ c Hwf Hat) as (_ & _ & _ & ? & ?). done.
Qed.

(** The state space is closed under the candidate successors, and
    [successors] never throws inside it. *)
Lemma all_states_closed grid K cols k :
  wf_grid grid → grid_cols grid = Some cols → k ∈ all_states grid K →
  ∃ succs,
    successors grid (findPortals grid) K (grid_rows grid) cols k = Some succs
    ∧ ∀ k', k' ∈ succs → k' ∈ all_states grid K.
Proof.
  intros Hwf Hcols. destruct k as [[x y] b].
  intros (Hx & Hy & Hb)%elem_of_all_states.
  destruct (grid_at_in_bounds grid x y Hwf Hx Hy) as [c Hc].
  destruct (successors_wf grid K cols x y b c Hwf Hcols Hc) as (succs & Hs & Hiff).
  exists succs. split; [done|]. intros k' Hk'. apply Hiff in Hk'.
  destruct Hk' as [(color & c' & _ & _ & Hc' & _ & _ & ->)
                  |(dx & dy & n & _ & Hn & Hcase)].
  - by apply cell_in_all_states.
  - destruct (grid_at_cell grid _ _ n Hwf Hn) as (_ & _ & _ & Hnx & Hny).
    destruct Hcase as [(_ & ? & ->)|(_ & ? & ->)];
      apply elem_of_all_states; lia.
Qed.

(** ** [solveMaze] on a well-formed grid *)

Lemma cells_grid_cols grid c :
  wf_grid grid → c ∈ cells grid → is_Some (grid_cols grid).
Proof.
  intros Hwf (row & _ & Hrow)%list_elem_of_join.
  rewrite (wf_row_length grid row Hwf Hrow). eauto.
Qed.

Lemma solveMaze_run_missing fuel grid K :
  (findEndpoints grid).1 = None ∨ (findEndpoints grid).2 = None →
  solveMaze_run fuel grid K = (Returns None, no_search).
Proof.
  unfold solveMaze_run. destruct (findEndpoints grid) as [[s|] [g|]]; simpl;
    intros [?|?]; done.
Qed.

(** With both endpoints present the search returns, on any fuel from
    [solveMaze_fuel] on, in a state that satisfies [search_post]. *)
Lemma solveMaze_run_wf grid K s g :
  wf_grid grid → findEndpoints grid = (Some s, Some g) →
  ∃ cols result st',
    grid_cols grid = Some cols
    ∧ (∀ fuel, solveMaze_fuel grid K ≤ fuel →
               solveMaze_run fuel grid K = (Returns result, st'))
    ∧ search_post (successors grid (findPortals grid) K (grid_rows grid) cols)
                  g (s.1, s.2, 0%Z) (all_states grid K) result st'.
Proof.
  intros Hwf He.
  destruct (findEndpoints_start grid s) as (cs & Hcs & Hts & ->);
    [by rewrite He|].
  destruct (cells_grid_cols grid cs Hwf Hcs) as [cols Hcols].
  set (k0 := (cell_x cs, cell_y cs, 0%Z)).
  assert (k0 ∈ all_states grid K) as Hk0
    by (apply cell_in_all_states; [done..|lia]).
  pose proof (initial_inv grid (findPortals grid) K (grid_rows grid) cols g k0
                (all_states grid K) (cell_x cs) (cell_y cs) eq_refl Hk0) as HI.
  destruct (search_returns grid (findPortals grid) K (grid_rows grid) cols g k0
              (all_states grid K)
              (fun k => all_states_closed grid K cols k Hwf Hcols)
              (solveMaze_fuel grid K) _ HI) as (r & st' & Hs & Hpost).
  { simpl. unfold solveMaze_fuel. rewrite length_all_states. lia. }
  exists cols, r, st'. split_and!; [done| |done].
  intros fuel Hfuel. unfold solveMaze_run. rewrite He, Hcols.
  by apply (search_fuel_mono (solveMaze_fuel grid K)).
Qed.

Lemma solveMaze_wf grid K s g :
  wf_grid grid → findEndpoints grid = (Some s, Some g) →
  ∃ cols result st',
    grid_cols grid = Some cols
    ∧ solveMaze grid K = Returns result
    ∧ search_post (successors grid (findPortals grid) K (grid_rows grid) cols)
                  g (s.1, s.2, 0%Z) (all_states grid K) result st'.
Proof.
  intros Hwf He.
  destruct (solveMaze_run_wf grid K s g Hwf He)
    as (cols & r & st' & Hcols & Hrun & Hpost).
  exists cols, r, st'. split_and!; [done| |done].
  unfold solveMaze. by rewrite (Hrun _ (le_n _)).
Qed.

(** ** C4: the successor relation *)

Lemma successors_action grid K cols x y b c succs :
  wf_grid grid → grid_cols grid = Some cols → grid_at grid x y = Some c →
  successors grid (findPortals grid) K (grid_rows grid) cols (x, y, b)
  = Some succs →
  (∀ k', k' ∈ succs → action grid K (x, y, b) k')
  ∧ ((b <= K)%Z → ∀ k', action grid K (x, y, b) k' → k' ∈ succs).
Proof.
  intros Hwf Hcols Hc Hs.
  destruct (successors_wf grid K cols x y b c Hwf Hcols Hc)
    as (succs' & Hs' & Hiff).
  rewrite Hs in Hs'. injection Hs' as <-. split.
  - intros k' [(color & c' & Ht & Hcol & Hc' & [Ht' Hcol'] & Hne & ->)
              |(dx & dy & n & Hd & Hn & Hcase)]%Hiff.
    + by eapply action_teleport.
    + destruct (grid_at_cell grid _ _ n Hwf Hn) as (Hnx & Hny & _).
      destruct Hcase as [(Hw & _ & ->)|(Hw & Hle & ->)];
        rewrite <- Hnx, <- Hny.
      * by eapply action_move.
      * by eapply action_break.
  - intros Hb k' Hact. apply Hiff.
    inversion Hact
      as [x0 y0 b0 c0 color c' Hc0 Ht Hcol Hc' Ht' Hcol' Hne
         |x0 y0 b0 dx dy n Hd Hn Hw
         |x0 y0 b0 dx dy n Hd Hn Hw Hle]; subst.
    + left. exists color, c'.
      assert (c0 = c) as -> by congruence. done.
    + right. exists dx, dy, n.
      destruct (grid_at_cell grid _ _ n Hwf Hn) as (-> & -> & _).
      split_and!; [done..|]. left. done.
    + right. exists dx, dy, n.
      destruct (grid_at_cell grid _ _ n Hwf Hn) as (-> & -> & _).
      split_and!; [done..|]. right. done.
Qed.

(** C4. From a state [(x, y, b)] of the search (a place of the grid, within
    the budget) the candidate successors of the solver are exactly the
    transitions of the specification: teleports to the other cells of the
    same portal color, moves to cardinal neighbours that are not walls, and
    breaks into cardinal neighbours that are walls while [b + 1 <=
    maxBreaksAllowed]; the node pushed for a successor counts one step more
    than its parent. *)
Theorem successors_exact grid K cols x y b :
  wf_grid grid → grid_cols grid = Some cols →
  is_Some (grid_at grid x y) → (b <= K)%Z →
  ∃ succs,
    successors grid (findPortals grid) K (grid_rows grid) cols (x, y, b)
    = Some succs
    ∧ (∀ k', k' ∈ succs ↔ action grid K (x, y, b) k')
    ∧ (∀ current k', k' ∈ succs →
         node_steps (child current k') = (node_steps current + 1)%Z
         ∧ node_key (child current k') = k').
Proof.
  intros Hwf Hcols [c Hc] Hb.
  destruct (successors_wf grid K cols x y b c Hwf Hcols Hc)
    as (succs & Hs & _).
  destruct (successors_action grid K cols x y b c succs Hwf Hcols Hc Hs)
    as [Hto Hfrom].
  exists succs. split_and!; [done| |].
  - intros k'. split; [apply Hto | by apply Hfrom].
  - intros current k' _. split; [done | apply node_key_child].
Qed.

Lemma portal_grid_wf : wf_grid portal_grid.
Proof. apply (bool_decide_unpack _). vm_compute. exact I. Defined.

Lemma successors_exact_witness :
  ∃ succs,
    successors portal_grid (findPortals portal_grid) 0
               (grid_rows portal_grid) 4 (1, 0, 0)%Z = Some succs
    ∧ (∀ k', k' ∈ succs ↔ action portal_grid 0 (1, 0, 0)%Z k')
    ∧ (∀ current k', k' ∈ succs →
         node_steps (child current k') = (node_steps current + 1)%Z
         ∧ node_key (child current k') = k').
Proof.
  apply (successors_exact portal_grid 0 4 1 0 0).
  - exact portal_grid_wf.
  - reflexivity.
  - vm_compute. eauto.
  - lia.
Defined.

(** ** Walks of the search and plans of the specification *)

Lemma wall_entries_snoc grid (ps : list Pos) (p : Pos) :
  ps ≠ [] →
  wall_entries grid (ps ++ [p])
  = wall_entries grid ps + (if wall_at grid p then 1 else 0).
Proof.
  destruct ps as [|p0 ps]; [done|]. intros _. unfold wall_entries.
  cbn [tail app]. rewrite filter_app, length_app, filter_cons, filter_nil.
  destruct (decide (wall_at grid p = true)) as [->|Hn]; [done|].
  destruct (wall_at grid p); done.
Qed.

Section walks.
Context (grid : Grid) (K cols : Z).
Context (Hwf : wf_grid grid) (Hcols : grid_cols grid = Some cols).

Abbreviation next_of k :=
  (successors grid (findPortals grid) k (grid_rows grid) cols).

Lemma trail_in_states k0 ks k :
  k0 ∈ all_states grid K → trail (next_of K) k0 ks k →
  k ∈ all_states grid K.
Proof.
  intros Hk0. induction 1 as [|ks k succs k' _ IH Hnext Hk']; [done|].
  destruct (all_states_closed grid K cols k Hwf Hcols IH)
    as (succs' & Hs & Hall).
  rewrite Hnext in Hs. injection Hs as <-. by apply Hall.
Qed.

Lemma state_grid_at x y b :
  (x, y, b) ∈ all_states grid K → is_Some (grid_at grid x y).
Proof.
  intros (Hx & Hy & _)%elem_of_all_states. by apply grid_at_in_bounds.
Qed.

Lemma trail_plan k0 ks k :
  k0 ∈ all_states grid K → trail (next_of K) k0 ks k →
  plan grid K k0 (length ks - 1) k.
Proof.
  intros Hk0. induction 1 as [|ks k succs k' Ht IH Hnext Hk'].
  - constructor.
  - rewrite length_app. simpl.
    pose proof (trail_length _ _ _ _ _ _ _ _ Ht) as Hlen.
    replace (length ks + 1 - 1) with (S (length ks - 1)) by lia.
    apply (plan_more _ _ _ _ k); [done|].
    pose proof (trail_in_states k0 ks k Hk0 Ht) as Hk.
    destruct k as [[x y] b]. destruct (state_grid_at x y b Hk) as [c Hc].
    by apply (successors_action grid K cols x y b c succs Hwf Hcols Hc Hnext).
Qed.

Lemma action_budget k k' :
  action grid K k k' → (k.2 <= K)%Z → (k.2 <= k'.2 <= K)%Z.
Proof. destruct 1; simpl; lia. Qed.

Lemma plan_trail k0 n k :
  k0 ∈ all_states grid K → (k0.2 <= K)%Z → plan grid K k0 n k →
  (k.2 <= K)%Z ∧ ∃ ks, trail (next_of K) k0 ks k ∧ length ks = S n.
Proof.
  intros Hk0 Hb0. induction 1 as [|n k1 k2 Hp IH Hact].
  - split; [done|]. exists [k0]. split; [constructor | done].
  - destruct IH as (Hb1 & ks & Ht & Hlen).
    split; [by apply (action_budget k1 k2 Hact)|].
    pose proof (trail_in_states k0 ks k1 Hk0 Ht) as Hk1.
    destruct k1 as [[x y] b]. destruct (state_grid_at x y b Hk1) as [c Hc].
    destruct (successors_wf grid K cols x y b c Hwf Hcols Hc)
      as (succs & Hs & _).
    exists (ks ++ [k2]). split; [|rewrite length_app; simpl; lia].
    apply (trail_step _ _ ks (x, y, b) succs); [done..|].
    by apply (successors_action grid K cols x y b c succs Hwf Hcols Hc Hs).
Qed.

(** The positions of a walk are linked by single actions, and the breaks
    used at its end count the walls it entered. *)
Lemma trail_path k0 ks k :
  k0 ∈ all_states grid K → trail (next_of K) k0 ks k →
  (∀ i p q, (key_pos <$> ks) !! i = Some p →
            (key_pos <$> ks) !! S i = Some q → hop grid p q)
  ∧ k.2 = (k0.2 + Z.of_nat (wall_entries grid (key_pos <$> ks)))%Z.
Proof.
  intros Hk0. induction 1 as [|ks k succs k' Ht IH Hnext Hk'].
  - split; [intros i p q _ Hq; by destruct i|].
    unfold wall_entries. simpl. lia.
  - destruct IH as [Hhops Hbreaks].
    pose proof (trail_length _ _ _ _ _ _ _ _ Ht) as Hlen.
    pose proof (trail_last _ _ _ _ _ _ _ _ Ht) as Hlast.
    pose proof (trail_in_states k0 ks k Hk0 Ht) as Hk.
    destruct k as [[x y] b]. destruct (state_grid_at x y b Hk) as [c Hc].
    destruct (successors_wf grid K cols x y b c Hwf Hcols Hc)
      as (succs' & Hs & Hiff).
    rewrite Hnext in Hs. injection Hs as <-. apply Hiff in Hk'.
    assert (hop grid (x, y) (key_pos k')
            ∧ k'.2 = (b + if wall_at grid (key_pos k') then 1 else 0)%Z)
      as [Hhop Hb'].
    { destruct Hk' as [(color & c' & Ht' & Hcol & Hc' & Hp' & Hne & ->)
                      |(dx & dy & n & Hd & Hn & Hcase)].
      - pose proof (cell_grid_at grid c' Hwf Hc') as Hat. split.
        + right. exists color, c, c'. simpl. split_and!; done.
        + unfold wall_at. simpl. rewrite Hat. destruct Hp' as [-> _].
          rewrite bool_decide_eq_false_2 by done. simpl. lia.
      - assert (key_pos k' = ((x + dx)%Z, (y + dy)%Z)) as Hpos
          by (by destruct Hcase as [(_ & _ & ->)|(_ & _ & ->)]).
        rewrite Hpos. split.
        + left. simpl. rewrite Hn. split; [eauto|].
          by replace (x + dx - x)%Z with dx by lia;
             replace (y + dy - y)%Z with dy by lia.
        + unfold wall_at. simpl. rewrite Hn.
          destruct Hcase as [(Hw & _ & ->)|(Hw & _ & ->)]; simpl.
          * rewrite bool_decide_eq_false_2 by done. lia.
          * rewrite bool_decide_eq_true_2 by done. lia. }
    rewrite fmap_app. simpl. split.
    + intros i p q Hp Hq.
      destruct (decide (S i < length (key_pos <$> ks))) as [Hlt|Hge].
      * rewrite lookup_app_l in Hp by lia.
        rewrite lookup_app_l in Hq by lia. by apply (Hhops i).
      * rewrite length_fmap in Hge.
        assert (S i = length ks) as Hi.
        { apply lookup_lt_Some in Hq.
          rewrite length_app, length_fmap in Hq. simpl in Hq. lia. }
        rewrite lookup_app_r in Hq by (rewrite length_fmap; lia).
        rewrite length_fmap, Hi, Nat.sub_diag in Hq. injection Hq as <-.
        rewrite lookup_app_l in Hp by (rewrite length_fmap; lia).
        rewrite list_lookup_fmap in Hp.
        rewrite last_lookup in Hlast.
        replace (Nat.pred (length ks)) with i in Hlast by lia.
        rewrite Hlast in Hp. injection Hp as <-. done.
    + rewrite Hb'. simpl in Hbreaks. rewrite Hbreaks.
      change [key_pos k'] with ([key_pos k'] : list Pos).
      rewrite wall_entries_snoc
        by (intros Hnil; apply (f_equal length) in Hnil;
            rewrite length_fmap in Hnil; simpl in Hnil; lia).
      destruct (wall_at grid (key_pos k')); lia.
Qed.

(** A larger budget keeps every walk. *)
Lemma trail_budget_mono K' k0 ks k :
  (K <= K')%Z → k0 ∈ all_states grid K →
  trail (next_of K) k0 ks k → trail (next_of K') k0 ks k.
Proof.
  intros HK Hk0. induction 1 as [|ks k succs k' Ht IH Hnext Hk'].
  - constructor.
  - pose proof (trail_in_states k0 ks k Hk0 Ht) as Hk.
    destruct k as [[x y] b]. destruct (state_grid_at x y b Hk) as [c Hc].
    destruct (successors_wf grid K cols x y b c Hwf Hcols Hc)
      as (succs1 & Hs1 & Hiff1).
    destruct (successors_wf grid K' cols x y b c Hwf Hcols Hc)
      as (succs2 & Hs2 & Hiff2).
    rewrite Hnext in Hs1. injection Hs1 as <-.
    apply (trail_step _ _ ks (x, y, b) succs2); [done..|].
    apply Hiff2. apply Hiff1 in Hk'.
    destruct Hk' as [?|(dx & dy & n & Hd & Hn & Hcase)]; [by left|].
    right. exists dx, dy, n. split_and!; [done..|].
    destruct Hcase as [(? & ? & ?)|(? & ? & ?)];
      [left|right]; split_and!; try done; lia.
Qed.
End walks.

(** ** What [solveMaze] returns on a well-formed grid *)

Lemma count_type_one t grid :
  count_type t grid = 1 → ∃ c, c ∈ cells grid ∧ cell_type c = t.
Proof.
  unfold count_type. intros Hn.
  destruct (filter _ (cells grid)) as [|c [|? ?]] eqn:Hf; try done.
  assert (c ∈ [c]) as Hc by (by apply list_elem_of_singleton).
  rewrite <- Hf in Hc. apply list_elem_of_filter in Hc as [? ?]. eauto.
Qed.

Lemma findEndpoints_unique grid :
  count_type TStart grid = 1 → count_type TGoal grid = 1 →
  ∃ cs cg, cs ∈ cells grid ∧ cell_type cs = TStart
           ∧ cg ∈ cells grid ∧ cell_type cg = TGoal
           ∧ findEndpoints grid = (Some (cell_pos cs), Some (cell_pos cg)).
Proof.
  intros Hs Hg.
  destruct (count_type_one _ _ Hs) as (cs & Hcs & Hts).
  destruct (count_type_one _ _ Hg) as (cg & Hcg & Htg).
  exists cs, cg. split_and!; try done.
  destruct (findEndpoints_start_Some grid cs Hcs Hts) as [s Hfs].
  destruct (findEndpoints_goal_Some grid cg Hcg Htg) as [g Hfg].
  destruct (findEndpoints_start grid s Hfs) as (cs' & Hcs' & Hts' & ->).
  destruct (findEndpoints_goal grid g Hfg) as (cg' & Hcg' & Htg' & ->).
  rewrite (count_type_unique TStart grid cs cs') by done.
  rewrite (count_type_unique TGoal grid cg cg') by done.
  destruct (findEndpoints grid). simpl in *. congruence.
Qed.

Section solved.
Context (grid : Grid) (K cols : Z) (cs cg : Cell).
Context (Hwf : wf_grid grid) (Hcols : grid_cols grid = Some cols).
Context (Hcs : cs ∈ cells grid) (Hts : cell_type cs = TStart).
Context (Hcg : cg ∈ cells grid) (Htg : cell_type cg = TGoal).

Abbreviation k_start := (cell_x cs, cell_y cs, 0%Z).
Abbreviation next_K :=
  (successors grid (findPortals grid) K (grid_rows grid) cols).
Abbreviation post :=
  (search_post next_K (cell_pos cg) k_start (all_states grid K)).

Lemma k_start_state : k_start ∈ all_states grid K.
Proof. apply cell_in_all_states; [done..|lia]. Qed.

(** The node returned at the goal records a walk from the start. *)
Lemma post_Some_trail sol st' :
  post (Some sol) st' →
  ∃ ks b, trail next_K k_start ks (cell_x cg, cell_y cg, b)
          ∧ path sol = key_pos <$> ks
          ∧ steps sol = (Z.of_nat (length ks) - 1)%Z
          ∧ ∀ ks' k', trail next_K k_start ks' k' →
                      at_goal (cell_pos cg) k' →
                      (steps sol + 1 <= Z.of_nat (length ks'))%Z.
Proof.
  intros (st & h & rest & HI & Hq & Hg & -> & _ & Hopt).
  assert (h ∈ enqueued st) as Hh.
  { rewrite (inv_fifo _ _ _ _ _ HI), Hq. apply elem_of_app. right.
    apply elem_of_cons. by left. }
  destruct (inv_good _ _ _ _ _ HI h Hh) as (ks & Ht & Hp & Hl).
  exists ks, (breaksUsed h). destruct Hg as [Hgx Hgy]. simpl in *.
  unfold node_key in Ht. rewrite Hgx, Hgy in Ht. done.
Qed.

(** With a negative budget the search never leaves the start. *)
Lemma trail_negative_budget ks k :
  (K < 0)%Z → trail next_K k_start ks k → k = k_start.
Proof.
  intros HK. induction 1 as [|ks k succs k' Ht IH Hnext Hk']; [done|].
  subst k. exfalso.
  pose proof (cell_grid_at grid cs Hwf Hcs) as Hat.
  destruct (successors_wf grid K cols _ _ 0 cs Hwf Hcols Hat)
    as (succs' & Hs & Hiff).
  rewrite Hnext in Hs. injection Hs as <-. apply Hiff in Hk'.
  destruct Hk' as [(color & c' & Ht' & _)
                  |(dx & dy & n & _ & _ & [(_ & ? & _)|(_ & ? & _)])];
    [congruence | lia | lia].
Qed.

Lemma start_not_goal b : ¬ at_goal (cell_pos cg) (cell_x cs, cell_y cs, b).
Proof.
  intros [Hx Hy]. simpl in *.
  assert (cs = cg) as Heq
    by (apply (cell_pos_inj grid); [done..|]; unfold cell_pos; congruence).
  rewrite Heq in Hts. congruence.
Qed.
End solved.

Lemma solveMaze_Some_endpoints grid K sol :
  solveMaze grid K = Returns (Some sol) →
  ∃ s g, findEndpoints grid = (Some s, Some g).
Proof.
  unfold solveMaze. intros Hs.
  destruct (findEndpoints grid) as [[s|] [g|]] eqn:He; [eauto|..];
    rewrite solveMaze_run_missing in Hs by (rewrite He; simpl; auto); done.
Qed.

(** The facts about a solution that the theorems below draw on. *)
Lemma solveMaze_Some_walk grid K sol :
  wf_grid grid → solveMaze grid K = Returns (Some sol) →
  ∃ cols cs cg ks b,
    grid_cols grid = Some cols
    ∧ cs ∈ cells grid ∧ cell_type cs = TStart
    ∧ cg ∈ cells grid ∧ cell_type cg = TGoal
    ∧ findEndpoints grid = (Some (cell_pos cs), Some (cell_pos cg))
    ∧ trail (successors grid (findPortals grid) K (grid_rows grid) cols)
            (cell_x cs, cell_y cs, 0%Z) ks (cell_x cg, cell_y cg, b)
    ∧ path sol = key_pos <$> ks
    ∧ steps sol = (Z.of_nat (length ks) - 1)%Z
    ∧ (0 <= K)%Z
    ∧ ∀ ks' k',
        trail (successors grid (findPortals grid) K (grid_rows grid) cols)
              (cell_x cs, cell_y cs, 0%Z) ks' k' →
        at_goal (cell_pos cg) k' →
        (steps sol + 1 <= Z.of_nat (length ks'))%Z.
Proof.
  intros Hwf Hsol.
  destruct (solveMaze_Some_endpoints grid K sol Hsol) as (s & g & He).
  destruct (findEndpoints_start grid s) as (cs & Hcs & Hts & ->);
    [by rewrite He|].
  destruct (findEndpoints_goal grid g) as (cg & Hcg & Htg & ->);
    [by rewrite He|].
  destruct (solveMaze_wf grid K _ _ Hwf He)
    as (cols & r & st' & Hcols & Hr & Hpost).
  rewrite Hsol in Hr. injection Hr as <-.
  destruct (post_Some_trail grid K cols cs cg sol st' Hpost)
    as (ks & b & Ht & Hp & Hl & Hopt).
  exists cols, cs, cg, ks, b. split_and!; try done.
  destruct (decide (0 <= K)%Z) as [|Hneg]; [done|]. exfalso.
  pose proof (trail_negative_budget grid K cols cs Hwf Hcols Hcs Hts ks _
                ltac:(lia) Ht) as Heq.
  apply (start_not_goal grid cs cg Hwf Hcs Hts Hcg Htg 0).
  injection Heq as Hx Hy _. split; simpl; congruence.
Qed.

(** ** C10: the returned path *)

(** C10. A solution returned by [solveMaze] carries a valid witness path:
    it has [steps + 1] positions, starts on the start cell, ends on the goal
    position, each consecutive pair of positions is one single action (a step
    to a cardinal neighbour, or a teleport between two portal cells of one
    color), and it enters at most [maxBreaksAllowed] walls. *)
Theorem solveMaze_path_valid grid K sol :
  wf_grid grid → solveMaze grid K = Returns (Some sol) →
  Z.of_nat (length (path sol)) = (steps sol + 1)%Z
  ∧ head (path sol) = (findEndpoints grid).1
  ∧ last (path sol) = (findEndpoints grid).2
  ∧ (∀ i p q, path sol !! i = Some p → path sol !! S i = Some q →
              hop grid p q)
  ∧ (Z.of_nat (wall_entries grid (path sol)) <= K)%Z.
Proof.
  intros Hwf Hsol.
  destruct (solveMaze_Some_walk grid K sol Hwf Hsol)
    as (cols & cs & cg & ks & b & Hcols & Hcs & Hts & Hcg & Htg & He & Ht
        & Hp & Hl & HK & _).
  assert ((cell_x cs, cell_y cs, 0%Z) ∈ all_states grid K) as Hk0
    by (apply cell_in_all_states; [done..|lia]).
  destruct (trail_path grid K cols Hwf Hcols _ ks _ Hk0 Ht) as [Hhops Hb].
  pose proof (trail_in_states grid K cols Hwf Hcols _ ks _ Hk0 Ht) as Hin.
  apply elem_of_all_states in Hin as (_ & _ & Hbb).
  rewrite He, Hp. simpl in Hb. split_and!.
  - rewrite length_fmap. lia.
  - pose proof (trail_head _ _ _ _ _ _ _ _ Ht) as Hh.
    destruct ks as [|k1 ks]; [done|]. simpl in *. by injection Hh as ->.
  - by rewrite fmap_last, (trail_last _ _ _ _ _ _ _ _ Ht).
  - done.
  - lia.
Qed.

Lemma corridor_grid_wf : wf_grid corridor_grid.
Proof. apply (bool_decide_unpack _). vm_compute. exact I. Defined.

Lemma solveMaze_path_valid_witness :
  let sol := {| steps := 2; path := [(0, 0); (1, 0); (2, 0)]%Z |} in
  Z.of_nat (length (path sol)) = (steps sol + 1)%Z
  ∧ head (path sol) = (findEndpoints corridor_grid).1
  ∧ last (path sol) = (findEndpoints corridor_grid).2
  ∧ (∀ i p q, path sol !! i = Some p → path sol !! S i = Some q →
              hop corridor_grid p q)
  ∧ (Z.of_nat (wall_entries corridor_grid (path sol)) <= 0)%Z.
Proof.
  intros sol. apply (solveMaze_path_valid corridor_grid 0 sol).
  - exact corridor_grid_wf.
  - vm_compute. reflexivity.
Defined.

(** ** C1: optimality *)

Lemma solveMaze_None_unsolvable grid K cs cg ks b :
  wf_grid grid → solveMaze grid K = Returns None →
  cs ∈ cells grid → cell_type cs = TStart →
  cg ∈ cells grid → cell_type cg = TGoal →
  findEndpoints grid = (Some (cell_pos cs), Some (cell_pos cg)) →
  ¬ trail (successors grid (findPortals grid) K (grid_rows grid)
                      (default 0%Z (grid_cols grid)))
          (cell_x cs, cell_y cs, 0%Z) ks (cell_x cg, cell_y cg, b).
Proof.
  intros Hwf Hnone Hcs Hts Hcg Htg He Ht.
  destruct (solveMaze_wf grid K _ _ Hwf He)
    as (cols & r & st' & Hcols & Hr & Hpost).
  rewrite Hnone in Hr. injection Hr as <-.
  destruct Hpost as (_ & _ & Hno). rewrite Hcols in Ht. simpl in Ht.
  by apply (Hno ks _ Ht).
Qed.

(** What [solveMaze] returns, against the plans of the specification. *)
Lemma solveMaze_verdict grid K :
  wf_grid grid → count_type TStart grid = 1 → count_type TGoal grid = 1 →
  (0 <= K)%Z →
  ∃ result,
    solveMaze grid K = Returns result
    ∧ match result with
      | Some sol =>
          (0 <= steps sol)%Z
          ∧ solvable_in grid K (Z.to_nat (steps sol))
          ∧ ∀ n, solvable_in grid K n → (steps sol <= Z.of_nat n)%Z
      | None => ∀ n, ¬ solvable_in grid K n
      end.
Proof.
  intros Hwf Hs Hg HK.
  destruct (findEndpoints_unique grid Hs Hg)
    as (cs & cg & Hcs & Hts & Hcg & Htg & He).
  destruct (solveMaze_wf grid K _ _ Hwf He)
    as (cols & r & st' & Hcols & Hr & Hpost).
  assert ((cell_x cs, cell_y cs, 0%Z) ∈ all_states grid K) as Hk0
    by (apply cell_in_all_states; [done..|lia]).
  assert (∀ n, solvable_in grid K n →
               ∃ ks b, trail (successors grid (findPortals grid) K
                                         (grid_rows grid) cols)
                             (cell_x cs, cell_y cs, 0%Z) ks
                             (cell_x cg, cell_y cg, b)
                       ∧ length ks = S n) as Hwalk.
  { intros n (s' & g' & b & Hs' & Hts' & Hg' & Htg' & Hb & Hplan).
    rewrite <- (count_type_unique TStart grid cs s') in Hplan by done.
    rewrite <- (count_type_unique TGoal grid cg g') in Hplan by done.
    destruct (plan_trail grid K cols Hwf Hcols _ n _ Hk0 HK Hplan)
      as (_ & ks & Ht & Hlen).
    eauto. }
  exists r. split; [done|]. destruct r as [sol|].
  - destruct (solveMaze_Some_walk grid K sol Hwf Hr)
      as (cols' & cs' & cg' & ks & b & Hcols' & Hcs' & Hts' & Hcg' & Htg'
          & He' & Ht & Hp & Hl & _ & Hopt).
    rewrite Hcols in Hcols'. injection Hcols' as <-.
    assert (cs' = cs) as -> by (by apply (count_type_unique TStart grid)).
    assert (cg' = cg) as -> by (by apply (count_type_unique TGoal grid)).
    pose proof (trail_length _ _ _ _ _ _ _ _ Ht) as Hlen.
    pose proof (trail_in_states grid K cols Hwf Hcols _ ks _ Hk0 Ht) as Hin.
    apply elem_of_all_states in Hin as (_ & _ & Hbb).
    split_and!; [lia| |].
    + exists cs, cg, b. split_and!; try done; [lia|].
      replace (Z.to_nat (steps sol)) with (length ks - 1) by lia.
      by apply (trail_plan grid K cols Hwf Hcols).
    + intros n Hn. destruct (Hwalk n Hn) as (ks' & b' & Ht' & Hlen').
      pose proof (Hopt ks' _ Ht' (conj eq_refl eq_refl)) as Hle. lia.
  - intros n Hn. destruct (Hwalk n Hn) as (ks' & b' & Ht' & Hlen').
    apply (solveMaze_None_unsolvable grid K cs cg ks' b'); try done.
    by rewrite Hcols.
Qed.

(** C1. On a grid with exactly one start and one goal cell and a budget
    [K >= 0]: whenever some sequence of actions (moves, breaks, teleports)
    leads from the start to the goal with at most [K] breaks, [solveMaze]
    returns a solution whose [steps] is the length of such a sequence and is
    at most the length of every such sequence; and when there is no such
    sequence it returns [null]. *)
Theorem solveMaze_optimal grid K :
  wf_grid grid → count_type TStart grid = 1 → count_type TGoal grid = 1 →
  (0 <= K)%Z →
  (∀ n, solvable_in grid K n →
        ∃ sol, solveMaze grid K = Returns (Some sol)
               ∧ (0 <= steps sol <= Z.of_nat n)%Z
               ∧ solvable_in grid K (Z.to_nat (steps sol)))
  ∧ ((∀ n, ¬ solvable_in grid K n) → solveMaze grid K = Returns None).
Proof.
  intros Hwf Hs Hg HK.
  destruct (solveMaze_verdict grid K Hwf Hs Hg HK) as ([sol|] & Hr & Hv).
  - destruct Hv as (H0 & Hsolv & Hmin). split.
    + intros n Hn. exists sol. specialize (Hmin n Hn).
      split_and!; [done|lia|lia|done].
    + intros Hnone. by destruct (Hnone _ Hsolv).
  - split; [|done]. intros n Hn. by destruct (Hv n).
Qed.

Lemma solveMaze_optimal_witness :
  (∀ n, solvable_in corridor_grid 0 n →
        ∃ sol, solveMaze corridor_grid 0 = Returns (Some sol)
               ∧ (0 <= steps sol <= Z.of_nat n)%Z
               ∧ solvable_in corridor_grid 0 (Z.to_nat (steps sol)))
  ∧ ((∀ n, ¬ solvable_in corridor_grid 0 n) →
     solveMaze corridor_grid 0 = Returns None).
Proof.
  apply (solveMaze_optimal corridor_grid 0).
  - exact corridor_grid_wf.
  - reflexivity.
  - reflexivity.
  - lia.
Defined.

(** ** C3: monotonicity in the budget *)

(** C3. On a fixed grid a larger budget never loses a solution and never
    makes the optimum longer: if [solveMaze grid K] finds a solution and
    [K <= K'], then [solveMaze grid K'] finds one with no more steps. *)
Theorem solveMaze_budget_monotone grid K K' sol :
  wf_grid grid → (K <= K')%Z → solveMaze grid K = Returns (Some sol) →
  ∃ sol', solveMaze grid K' = Returns (Some sol')
          ∧ (steps sol' <= steps sol)%Z.
Proof.
  intros Hwf HK Hsol.
  destruct (solveMaze_Some_walk grid K sol Hwf Hsol)
    as (cols & cs & cg & ks & b & Hcols & Hcs & Hts & Hcg & Htg & He & Ht
        & Hp & Hl & HK0 & _).
  assert ((cell_x cs, cell_y cs, 0%Z) ∈ all_states grid K) as Hk0
    by (apply cell_in_all_states; [done..|lia]).
  pose proof (trail_budget_mono grid K cols Hwf Hcols K' _ ks _ HK Hk0 Ht)
    as Ht'.
  destruct (solveMaze_wf grid K' _ _ Hwf He)
    as (cols' & r & st' & Hcols' & Hr & Hpost).
  rewrite Hcols in Hcols'. injection Hcols' as <-.
  destruct r as [sol'|].
  - exists sol'. split; [done|].
    destruct (solveMaze_Some_walk grid K' sol' Hwf Hr)
      as (cols' & cs' & cg' & ks' & b' & Hcols' & Hcs' & _ & Hcg' & _ & He'
          & _ & _ & _ & _ & Hopt).
    rewrite Hcols in Hcols'. injection Hcols' as <-.
    assert (cs' = cs) as ->
      by (apply (cell_pos_inj grid); [done..|congruence]).
    assert (cg' = cg) as ->
      by (apply (cell_pos_inj grid); [done..|congruence]).
    pose proof (Hopt ks _ Ht' (conj eq_refl eq_refl)). lia.
  - exfalso. destruct Hpost as (_ & _ & Hno).
    by apply (Hno ks _ Ht').
Qed.

Lemma walled_grid_wf : wf_grid walled_grid.
Proof. apply (bool_decide_unpack _). vm_compute. exact I. Defined.

Lemma solveMaze_budget_monotone_witness :
  ∃ sol', solveMaze portal_grid 1 = Returns (Some sol')
          ∧ (steps sol' <= 3)%Z.
Proof.
  apply (solveMaze_budget_monotone portal_grid 0 1
           {| steps := 3; path := [(0, 0); (1, 0); (3, 1); (3, 0)]%Z |}).
  - exact portal_grid_wf.
  - lia.
  - vm_compute. reflexivity.
Defined.

(** ** C5: termination and the size of the search *)

(** C5. On every well-formed grid and for every budget the search ends:
    with any fuel from [solveMaze_fuel] on, [solveMaze] returns. No augmented
    state is pushed twice; with a budget [K >= 0] at most
    rows x cols x (K + 1) nodes are pushed; the queue is first-in first-out;
    a solution is the first dequeued node that stands on the goal, and [null]
    comes with an empty queue and no dequeued node on the goal. *)
Theorem solveMaze_terminates grid K :
  wf_grid grid →
  ∃ result st',
    (∀ fuel, solveMaze_fuel grid K ≤ fuel →
             solveMaze_run fuel grid K = (Returns result, st'))
    ∧ NoDup (node_key <$> enqueued st')
    ∧ ((0 <= K)%Z → length (enqueued st') ≤ state_space grid K)
    ∧ enqueued st' = dequeued st' ++ queue st'
    ∧ match result with
      | Some sol =>
          ∃ g earlier h,
            (findEndpoints grid).2 = Some g
            ∧ dequeued st' = earlier ++ [h]
            ∧ at_goal g (node_key h)
            ∧ sol = {| steps := node_steps h; path := node_path h |}
            ∧ ∀ n, n ∈ earlier → ¬ at_goal g (node_key n)
      | None =>
          queue st' = []
          ∧ ∀ g n, (findEndpoints grid).2 = Some g → n ∈ dequeued st' →
                   ¬ at_goal g (node_key n)
      end.
Proof.
  intros Hwf.
  destruct (findEndpoints grid) as [[s|] [g|]] eqn:He.
  2-4: exists None, no_search; split_and!;
         [ intros fuel _; apply solveMaze_run_missing; rewrite He; simpl; auto
         | apply NoDup_nil_2 | simpl; lia | done | done
         | intros g' n _ Hn; by apply elem_of_nil in Hn ].
  destruct (solveMaze_run_wf grid K s g Hwf He)
    as (cols & r & st' & Hcols & Hrun & Hpost).
  exists r, st'. split; [done|].
  assert (∀ st, search_inv (successors grid (findPortals grid) K
                                       (grid_rows grid) cols)
                           g (s.1, s.2, 0%Z) (all_states grid K) st →
                (0 <= K)%Z →
                length (enqueued st) ≤ state_space grid K) as Hbound.
  { intros st HI HK.
    pose proof (inv_enqueued_bound _ _ _ _ _ _ _ _ st HI) as Hb.
    rewrite length_all_states in Hb.
    by replace (Z.max 0 K) with K in Hb by lia. }
  destruct r as [sol|]; simpl in Hpost.
  - destruct Hpost as (st & h & rest & HI & Hq & Hg & -> & -> & _). simpl.
    split_and!.
    + apply (inv_nodup _ _ _ _ _ HI).
    + by apply Hbound.
    + by rewrite (inv_fifo _ _ _ _ _ HI), Hq, <- app_assoc.
    + exists g, (dequeued st), h. split_and!; try done.
      intros n Hn. by destruct (inv_closed _ _ _ _ _ HI n Hn).
  - destruct Hpost as (HI & Hq & _). split_and!.
    + apply (inv_nodup _ _ _ _ _ HI).
    + by apply Hbound.
    + apply (inv_fifo _ _ _ _ _ HI).
    + done.
    + intros g' n [= <-] Hn. by destruct (inv_closed _ _ _ _ _ HI n Hn).
Qed.

Lemma solveMaze_terminates_witness :
  ∃ result st',
    (∀ fuel, solveMaze_fuel portal_grid 1 ≤ fuel →
             solveMaze_run fuel portal_grid 1 = (Returns result, st'))
    ∧ NoDup (node_key <$> enqueued st')
    ∧ ((0 <= 1)%Z → length (enqueued st') ≤ state_space portal_grid 1)
    ∧ enqueued st' = dequeued st' ++ queue st'
    ∧ match result with
      | Some sol =>
          ∃ g earlier h,
            (findEndpoints portal_grid).2 = Some g
            ∧ dequeued st' = earlier ++ [h]
            ∧ at_goal g (node_key h)
            ∧ sol = {| steps := node_steps h; path := node_path h |}
            ∧ ∀ n, n ∈ earlier → ¬ at_goal g (node_key n)
      | None =>
          queue st' = []
          ∧ ∀ g n, (findEndpoints portal_grid).2 = Some g →
                   n ∈ dequeued st' → ¬ at_goal g (node_key n)
      end.
Proof.
  apply (solveMaze_terminates portal_grid 1). exact portal_grid_wf.
Defined.

(** ** C8: the break counter *)

(** Every candidate successor keeps the break counter or adds one to it, the
    latter only within the budget; this holds on any grid. *)
Lemma successors_breaks grid portals K rows cols k succs k' :
  successors grid portals K rows cols k = Some succs → k' ∈ succs →
  k'.2 = k.2 ∨ (k'.2 = (k.2 + 1)%Z ∧ (k'.2 <= K)%Z).
Proof.
  destruct k as [[x y] b]. unfold successors.
  destruct (grid_at grid x y) as [c|]; [|done]. cbn [mbind option_bind].
  destruct (mapM _ DIRECTIONS) as [moves|] eqn:Hm; [|done].
  cbn [mbind option_bind]. intros [= <-].
  intros [Hk|Hk]%elem_of_app.
  - apply list_elem_of_fmap in Hk as (dest & -> & _). by left.
  - apply list_elem_of_omap in Hk as (m & Hin & Hid). simpl in Hid. subst m.
    apply mapM_Some_1 in Hm.
    apply list_elem_of_lookup in Hin as [i Hi].
    destruct (Forall2_lookup_r _ _ _ _ _ Hm Hi) as (dir & _ & Hmove).
    unfold move_target in Hmove.
    destruct (decide _); [|done].
    destruct (grid_at grid _ _) as [n|]; [|done].
    destruct (bool_decide _); destruct (decide _); try done;
      injection Hmove as <-; simpl; [right | left]; done.
Qed.

Lemma search_preserves (P : Search → Prop) grid portals K rows cols goal :
  (∀ st, P st →
         match iterate grid portals K rows cols goal st with
         | Finished _ st' | Continue st' | Crashed st' => P st'
         end) →
  ∀ fuel st, P st → P (search fuel grid portals K rows cols goal st).2.
Proof.
  intros Hstep fuel. induction fuel as [|fuel IH]; intros st HP; [done|].
  simpl. specialize (Hstep st HP).
  destruct (iterate grid portals K rows cols goal st); simpl; auto.
Qed.

Lemma iterate_within_budget grid portals K rows cols goal st :
  within_budget K st →
  match iterate grid portals K rows cols goal st with
  | Finished _ st' | Continue st' | Crashed st' => within_budget K st'
  end.
Proof.
  intros HP. unfold iterate.
  destruct (queue st) as [|h rest] eqn:Hq; [done|].
  assert (within_budget K {| visited := visited st; queue := rest;
                             enqueued := enqueued st;
                             dequeued := dequeued st ++ [h] |}) as HP'.
  { intros n [Hn|Hn]; apply HP; [by left|]. right. rewrite Hq.
    apply elem_of_cons. by right. }
  destruct (decide _) as [|Hng]; [done|].
  destruct (successors _ _ _ _ _ _) as [succs|] eqn:Hs; [|done].
  match goal with |- context [foldl _ ?s _] => set (st1 := s) in * end.
  destruct (visit_foldl h succs st1) as (new & Hq' & He' & _ & _ & _ & Hnew & _).
  intros n. rewrite Hq', He', !elem_of_app.
  intros [[Hn|Hn]|[Hn|Hn]]; try (apply HP'; auto; fail).
  all: apply list_elem_of_fmap in Hn as (k' & -> & Hk');
    apply Hnew in Hk' as [Hk' _];
    pose proof (successors_breaks _ _ _ _ _ _ _ _ Hs Hk') as Hb;
    assert (0 <= breaksUsed h <= K)%Z as Hh
      by (apply HP; right; rewrite Hq; apply elem_of_cons; by left);
    destruct k' as [[x' y'] b']; simpl in *; lia.
Qed.

(** C8. With a budget [K >= 0], every node the search ever pushes has
    [0 <= breaksUsed <= K], on any grid and however long the search runs;
    and every transition leaves [breaksUsed] unchanged or adds one to it,
    never passing the budget. *)
Theorem breaks_within_budget fuel grid K :
  (0 <= K)%Z →
  (∀ n, n ∈ enqueued (solveMaze_run fuel grid K).2 →
        (0 <= breaksUsed n <= K)%Z)
  ∧ (∀ portals rows cols k succs k',
       successors grid portals K rows cols k = Some succs → k' ∈ succs →
       (k'.2 = k.2 ∨ k'.2 = (k.2 + 1)%Z) ∧ ((k.2 <= K)%Z → (k'.2 <= K)%Z)).
Proof.
  intros HK. split.
  - unfold solveMaze_run.
    destruct (findEndpoints grid) as [[s|] [g|]];
      try (intros n Hn; by apply elem_of_nil in Hn).
    destruct (grid_cols grid) as [cols|];
      [|intros n Hn; by apply elem_of_nil in Hn].
    intros n Hn.
    apply (search_preserves (within_budget K) grid (findPortals grid) K
             (grid_rows grid) cols g
             (iterate_within_budget grid (findPortals grid) K
                (grid_rows grid) cols g) fuel (initial_search s));
      [|by left].
    intros n' [Hn'|Hn']; apply list_elem_of_singleton in Hn' as ->;
      simpl; lia.
  - intros portals rows cols k succs k' Hs Hk'.
    destruct (successors_breaks _ _ _ _ _ _ _ _ Hs Hk') as [->|[-> ?]];
      split; auto; lia.
Qed.

Lemma breaks_within_budget_witness :
  (∀ n, n ∈ enqueued (solveMaze_run 5 walled_grid 1).2 →
        (0 <= breaksUsed n <= 1)%Z)
  ∧ (∀ portals rows cols k succs k',
       successors walled_grid portals 1 rows cols k = Some succs →
       k' ∈ succs →
       (k'.2 = k.2 ∨ k'.2 = (k.2 + 1)%Z) ∧ ((k.2 <= 1)%Z → (k'.2 <= 1)%Z)).
Proof. apply (breaks_within_budget 5 walled_grid 1). lia. Defined.

(** ** C9: determinism *)

Lemma solveMaze_run_fuel_mono fuel fuel' grid K r st :
  solveMaze_run fuel grid K = (Returns r, st) → fuel ≤ fuel' →
  solveMaze_run fuel' grid K = (Returns r, st).
Proof.
  unfold solveMaze_run.
  destruct (findEndpoints grid) as [[s|] [g|]]; try done.
  destruct (grid_cols grid); [|done]. apply search_fuel_mono.
Qed.

(** C9. Two calls of [solveMaze] on the same grid and budget that return,
    whatever fuel each was given, return the same thing: the same
    [reachable] flag and the same number of steps (and indeed the same path
    and final search state). *)
Theorem solveMaze_deterministic grid K fuel1 fuel2 r1 r2 st1 st2 :
  solveMaze_run fuel1 grid K = (Returns r1, st1) →
  solveMaze_run fuel2 grid K = (Returns r2, st2) →
  steps <$> r1 = steps <$> r2 ∧ (is_Some r1 ↔ is_Some r2)
  ∧ r1 = r2 ∧ st1 = st2.
Proof.
  intros H1 H2.
  assert (r1 = r2 ∧ st1 = st2) as [-> ->].
  { destruct (Nat.le_ge_cases fuel1 fuel2) as [Hle|Hle].
    - pose proof (solveMaze_run_fuel_mono _ fuel2 _ _ _ _ H1 Hle) as H1'.
      rewrite H1' in H2. by injection H2 as -> ->.
    - pose proof (solveMaze_run_fuel_mono _ fuel1 _ _ _ _ H2 Hle) as H2'.
      rewrite H2' in H1. by injection H1 as -> ->. }
  done.
Qed.

Lemma solveMaze_deterministic_witness :
  let r := Some {| steps := 2; path := [(0, 0); (1, 0); (2, 0)]%Z |} in
  let st := (solveMaze_run 4 corridor_grid 0).2 in
  steps <$> r = steps <$> r ∧ (is_Some r ↔ is_Some r) ∧ r = r ∧ st = st.
Proof.
  intros r st.
  apply (solveMaze_deterministic corridor_grid 0 4 9 r r st st).
  - vm_compute. reflexivity.
  - vm_compute. reflexivity.
Defined.

(** ** C6: missing endpoints *)

(** C6 as stated: the result for a grid with a missing endpoint can be told
    apart from the result of a search that found the goal unreachable. It
    cannot: both are [null]. *)
Lemma missing_endpoint_indistinguishable :
  ¬ (∀ grid grid' K,
       count_type TStart grid = 0 ∨ count_type TGoal grid = 0 →
       wf_grid grid' →
       count_type TStart grid' = 1 → count_type TGoal grid' = 1 →
       (∀ n, ¬ solvable_in grid' K n) →
       solveMaze grid K ≠ solveMaze grid' K).
Proof.
  intros H. apply (H goalless_grid walled_grid 0%Z).
  - right. reflexivity.
  - exact walled_grid_wf.
  - reflexivity.
  - reflexivity.
  - destruct (solveMaze_verdict walled_grid 0 walled_grid_wf eq_refl eq_refl
                ltac:(lia)) as (r & Hr & Hv).
    assert (r = None) as -> by (vm_compute in Hr; congruence).
    exact Hv.
  - vm_compute. reflexivity.
Qed.

(** C6, amended. When the grid has no start cell or no goal cell, [solveMaze]
    returns [null] at once: nothing is pushed and nothing is dequeued. The
    value returned is the [null] that an exhausted search returns as well
    (here on [walled_grid] with no break allowed). *)
Theorem solveMaze_missing_endpoint fuel grid K :
  count_type TStart grid = 0 ∨ count_type TGoal grid = 0 →
  solveMaze_run fuel grid K = (Returns None, no_search)
  ∧ enqueued (solveMaze_run fuel grid K).2 = []
  ∧ dequeued (solveMaze_run fuel grid K).2 = []
  ∧ solveMaze grid K = Returns None
  ∧ solveMaze grid K = solveMaze walled_grid 0.
Proof.
  intros Hmiss.
  assert (∀ fuel', solveMaze_run fuel' grid K = (Returns None, no_search))
    as Hrun.
  { intros fuel'. apply solveMaze_run_missing.
    destruct Hmiss as [H|H]; [left; by apply findEndpoints_no_start
                             |right; by apply findEndpoints_no_goal]. }
  unfold solveMaze. rewrite !Hrun. split_and!; try done.
Qed.

Lemma solveMaze_missing_endpoint_witness :
  solveMaze_run 3 goalless_grid 2 = (Returns None, no_search)
  ∧ enqueued (solveMaze_run 3 goalless_grid 2).2 = []
  ∧ dequeued (solveMaze_run 3 goalless_grid 2).2 = []
  ∧ solveMaze goalless_grid 2 = Returns None
  ∧ solveMaze goalless_grid 2 = solveMaze walled_grid 0.
Proof.
  apply (solveMaze_missing_endpoint 3 goalless_grid 2).
  right. reflexivity.
Defined.

(** ** Updating one cell of a grid *)

Lemma wf_grid_intro grid :
  (∀ row, row ∈ grid → length row = length (default [] (head grid))) →
  (∀ j i row c, grid !! j = Some row → row !! i = Some c →
                cell_x c = Z.of_nat i ∧ cell_y c = Z.of_nat j) →
  wf_grid grid.
Proof.
  intros Hrect Hcoord. split.
  - by apply Forall_forall.
  - apply Forall_lookup. intros j [j' row]. rewrite list_lookup_imap.
    destruct (grid !! j) as [row'|] eqn:Hrow; [|done]. intros [= <- <-].
    apply Forall_lookup. intros i [i' c]. rewrite list_lookup_imap. simpl.
    destruct (row' !! i) as [c'|] eqn:Hc; [|done]. intros [= <- <-]. simpl.
    by apply (Hcoord j i row').
Qed.

Lemma update_cell_Some grid x y f c :
  grid_at grid x y = Some c → is_Some (update_cell grid x y f).
Proof. unfold update_cell. intros ->. eauto. Qed.

Lemma grid_at_update grid x y f grid' x' y' :
  update_cell grid x y f = Some grid' →
  grid_at grid' x' y'
  = if decide (x' = x ∧ y' = y) then f <$> grid_at grid x y
    else grid_at grid x' y'.
Proof.
  unfold update_cell.
  destruct (grid_at grid x y) as [c|] eqn:Hc; [|done]. intros [= <-].
  apply grid_at_Some in Hc as (Hx & Hy & row & Hrow & Hc).
  destruct (decide (x' = x ∧ y' = y)) as [[-> ->]|Hne].
  - unfold grid_at. rewrite !decide_True by done.
    rewrite list_lookup_alter_eq, Hrow. simpl.
    by rewrite list_lookup_alter_eq, Hc.
  - unfold grid_at.
    destruct (decide (0 <= x')%Z); [|done].
    destruct (decide (0 <= y')%Z); [|done].
    destruct (decide (Z.to_nat y' = Z.to_nat y)) as [Hy'|Hy'].
    + rewrite Hy', list_lookup_alter_eq, Hrow. simpl.
      rewrite list_lookup_alter_ne; [done|]. intros Hx'. apply Hne. lia.
    + by rewrite list_lookup_alter_ne.
Qed.

Lemma update_cell_shape grid x y f grid' :
  wf_grid grid →
  (∀ c, cell_x (f c) = cell_x c ∧ cell_y (f c) = cell_y c) →
  update_cell grid x y f = Some grid' →
  wf_grid grid' ∧ grid_rows grid' = grid_rows grid
  ∧ grid_cols grid' = grid_cols grid.
Proof.
  intros Hwf Hf. unfold update_cell.
  destruct (grid_at grid x y) as [c0|] eqn:Hc0; [|done]. intros [= <-].
  assert (∀ j row', alter (alter f (Z.to_nat x)) (Z.to_nat y) grid !! j
                    = Some row' →
                    ∃ row, grid !! j = Some row ∧ length row' = length row
                           ∧ ∀ i c', row' !! i = Some c' →
                                     ∃ c, row !! i = Some c
                                          ∧ cell_x c' = cell_x c
                                          ∧ cell_y c' = cell_y c) as Hrows.
  { intros j row'. rewrite list_lookup_alter.
    destruct (decide (Z.to_nat y = j)) as [<-|Hj].
    - destruct (grid !! Z.to_nat y) as [row|]; [|done]. simpl.
      intros [= <-]. exists row. split_and!; [done|apply length_alter|].
      intros i c'. rewrite list_lookup_alter.
      destruct (decide (Z.to_nat x = i)) as [<-|Hi].
      + destruct (row !! Z.to_nat x) as [c|]; [|done]. simpl.
        intros [= <-]. exists c. destruct (Hf c). done.
      + intros Hc'. exists c'. done.
    - intros Hrow. exists row'. split_and!; [done..|]. eauto. }
  assert (grid_cols (alter (alter f (Z.to_nat x)) (Z.to_nat y) grid)
          = grid_cols grid) as Hcols.
  { destruct grid as [|r0 grid]; [done|].
    destruct (Z.to_nat y); simpl; [|done]. by rewrite length_alter. }
  split_and!; [|unfold grid_rows; by rewrite length_alter|done].
  apply wf_grid_intro.
  - intros row' [j Hrow']%list_elem_of_lookup.
    destruct (Hrows j row' Hrow') as (row & Hrow & Hlen & _).
    assert (row ∈ grid) as Hin by (apply list_elem_of_lookup; eauto).
    pose proof (wf_row_length grid row Hwf Hin) as H1.
    rewrite <- Hcols in H1. rewrite Hlen.
    destruct (alter _ _ grid) as [|r0 g']; [done|]. simpl in *.
    injection H1 as H1. lia.
  - intros j i row' c' Hrow' Hc'.
    destruct (Hrows j row' Hrow') as (row & Hrow & _ & Hcells).
    destruct (Hcells i c' Hc') as (c & Hc & -> & ->).
    by apply (wf_lookup grid j i row c).
Qed.

Lemma with_type_coords t c :
  cell_x (with_type t c) = cell_x c ∧ cell_y (with_type t c) = cell_y c.
Proof. done. Qed.

Lemma with_portal_coords color c :
  cell_x (with_portal color c) = cell_x c
  ∧ cell_y (with_portal color c) = cell_y c.
Proof. done. Qed.

Lemma update_cell_grid10 grid x y f grid' :
  grid10 grid →
  (∀ c, cell_x (f c) = cell_x c ∧ cell_y (f c) = cell_y c) →
  update_cell grid x y f = Some grid' → grid10 grid'.
Proof.
  intros (Hwf & Hr & Hc) Hf Hup.
  destruct (update_cell_shape grid x y f grid' Hwf Hf Hup) as (? & Hr' & Hc').
  split_and!; [done | by rewrite Hr' | by rewrite Hc'].
Qed.

Lemma grid10_at grid x y :
  grid10 grid → (0 <= x < GRID_SIZE)%Z → (0 <= y < GRID_SIZE)%Z →
  is_Some (grid_at grid x y).
Proof.
  intros (Hwf & Hr & Hc) Hx Hy. apply grid_at_in_bounds; [done|..].
  - by rewrite Hc.
  - by rewrite Hr.
Qed.

Lemma grid10_bounds grid x y c :
  grid10 grid → grid_at grid x y = Some c →
  (0 <= x < GRID_SIZE)%Z ∧ (0 <= y < GRID_SIZE)%Z.
Proof.
  intros (Hwf & Hr & Hc) Hat.
  destruct (grid_at_cell grid x y c Hwf Hat) as (_ & _ & _ & Hx & Hy).
  rewrite Hc in Hx. rewrite Hr in Hy. done.
Qed.

(** ** Step 1: the grid of walls *)

Section generator_facts.
Context {World : Type} (env : Oracle World).

Lemma wall_row_spec y xs w :
  length (MazeGenerator.wall_row env y xs w).1 = length xs
  ∧ ∀ i c, (MazeGenerator.wall_row env y xs w).1 !! i = Some c →
           xs !! i = Some (cell_x c) ∧ cell_y c = y ∧ cell_type c = TWall.
Proof.
  revert w. induction xs as [|x xs IH]; intros w; simpl.
  - split; [done|]. intros i c Hc. by rewrite lookup_nil in Hc.
  - destruct (generateId env w) as [id w1].
    specialize (IH w1).
    destruct (MazeGenerator.wall_row env y xs w1) as [row w2]. simpl in *.
    destruct IH as [Hlen Hcells]. split; [by rewrite Hlen|].
    intros [|i] c; simpl; [intros [= <-]; done | apply Hcells].
Qed.

Lemma wall_grid_spec ys w :
  length (MazeGenerator.wall_grid env ys w).1 = length ys
  ∧ ∀ j row, (MazeGenerator.wall_grid env ys w).1 !! j = Some row →
      length row = Z.to_nat GRID_SIZE
      ∧ ∀ i c, row !! i = Some c →
               cell_x c = Z.of_nat i ∧ ys !! j = Some (cell_y c)
               ∧ cell_type c = TWall.
Proof.
  revert w. induction ys as [|y ys IH]; intros w.
  - split; [done|]. intros j row Hrow. simpl in Hrow.
    by rewrite lookup_nil in Hrow.
  - cbn [MazeGenerator.wall_grid].
    pose proof (wall_row_spec y (seqZ 0 GRID_SIZE) w) as [Hlen Hcells].
    destruct (MazeGenerator.wall_row env y (seqZ 0 GRID_SIZE) w) as [row w1].
    specialize (IH w1).
    destruct (MazeGenerator.wall_grid env ys w1) as [rows w2].
    cbn [fst] in *. destruct IH as [Hlens Hrows].
    split; [simpl; by rewrite Hlens|].
    intros [|j] row'; [|apply Hrows]. intros [= <-].
    split; [by rewrite Hlen, length_seqZ|].
    intros i c Hc. destruct (Hcells i c Hc) as (Hx & Hy & Ht).
    apply lookup_seqZ in Hx as [Hx _]. rewrite Hy. split_and!; [lia|done..].
Qed.

Lemma wall_grid_grid10 w :
  grid10 (MazeGenerator.wall_grid env (seqZ 0 GRID_SIZE) w).1
  ∧ bare (MazeGenerator.wall_grid env (seqZ 0 GRID_SIZE) w).1.
Proof.
  pose proof (wall_grid_spec (seqZ 0 GRID_SIZE) w) as [Hlen Hrows].
  set (grid := (MazeGenerator.wall_grid env (seqZ 0 GRID_SIZE) w).1) in *.
  rewrite length_seqZ in Hlen.
  assert (∀ row, row ∈ grid → length row = Z.to_nat GRID_SIZE) as Hwidth.
  { intros row [j Hrow]%list_elem_of_lookup. by apply (Hrows j). }
  assert (grid_cols grid = Some GRID_SIZE) as Hcols.
  { destruct grid as [|r0 g]; [done|]. simpl. f_equal.
    rewrite (Hwidth r0) by (apply elem_of_cons; by left). done. }
  assert (wf_grid grid) as Hwf.
  { apply wf_grid_intro.
    - intros row Hrow. rewrite (Hwidth row Hrow).
      destruct grid as [|r0 g]; [by apply elem_of_nil in Hrow|]. simpl.
      rewrite (Hwidth r0) by (apply elem_of_cons; by left). done.
    - intros j i row c Hrow Hc.
      destruct (Hrows j row Hrow) as [_ Hcells].
      destruct (Hcells i c Hc) as (Hx & Hy & _).
      apply lookup_seqZ in Hy as [Hy _]. split; [done|lia]. }
  split; [split_and!; [done| |done]|].
  - unfold grid_rows. rewrite Hlen. done.
  - intros x y c (_ & _ & row & Hrow & Hc)%grid_at_Some.
    destruct (Hrows _ row Hrow) as [_ Hcells].
    destruct (Hcells _ c Hc) as (_ & _ & Ht). by left.
Qed.

End generator_facts.

(** ** Step 2: the carving *)

Lemma elem_of_scan_order lo hi x y :
  (x, y) ∈ MazeGenerator.scan_order lo hi ↔
  (lo <= x < hi)%Z ∧ (lo <= y < hi)%Z.
Proof.
  unfold MazeGenerator.scan_order. rewrite list_elem_of_bind. split.
  - intros (y' & Hx & Hy). apply list_elem_of_bind in Hx as (x' & Hp & Hx).
    apply list_elem_of_singleton in Hp as [= -> ->].
    apply elem_of_seqZ in Hx, Hy. lia.
  - intros [Hx Hy]. exists y. split; [|apply elem_of_seqZ; lia].
    apply list_elem_of_bind. exists x.
    split; [by apply list_elem_of_singleton | apply elem_of_seqZ; lia].
Qed.

Lemma filter_length_mono {A} (P Q : A → Prop)
    `{∀ x, Decision (P x)} `{∀ x, Decision (Q x)} (l : list A) :
  (∀ x, P x → Q x) → length (filter P l) ≤ length (filter Q l).
Proof.
  intros HPQ. induction l as [|a l IH]; [done|].
  rewrite !filter_cons.
  destruct (decide (P a)) as [HP|HP]; destruct (decide (Q a)) as [HQ|HQ];
    simpl; try lia.
  destruct HQ. by apply HPQ.
Qed.

Lemma filter_length_drop {A} (P Q : A → Prop)
    `{∀ x, Decision (P x)} `{∀ x, Decision (Q x)} (l : list A) (a : A) :
  (∀ x, P x → Q x) → a ∈ l → Q a → ¬ P a →
  length (filter P l) < length (filter Q l).
Proof.
  intros HPQ Ha HQ HP. induction l as [|b l IH]; [by apply elem_of_nil in Ha|].
  rewrite !filter_cons. apply elem_of_cons in Ha as [<-|Ha].
  - rewrite decide_False, decide_True by done. simpl.
    pose proof (filter_length_mono P Q l HPQ). lia.
  - specialize (IH Ha).
    destruct (decide (P b)) as [HPb|HPb]; destruct (decide (Q b)) as [HQb|HQb];
      simpl; try lia.
    destruct HQb. by apply HPQ.
Qed.

Lemma unvisited_drop visited p :
  (0 < p.1 < GRID_SIZE - 1)%Z → (0 < p.2 < GRID_SIZE - 1)%Z → p ∉ visited →
  length (unvisited ({[p]} ∪ visited)) < length (unvisited visited).
Proof.
  intros Hx Hy Hp. unfold unvisited. apply (filter_length_drop _ _ _ p).
  - intros q Hq Hin. apply Hq. apply elem_of_union. by right.
  - destruct p as [x y]. apply elem_of_scan_order. simpl in *. lia.
  - done.
  - intros Hn. apply Hn. apply elem_of_union. left. by apply elem_of_singleton.
Qed.

Lemma unvisited_bound visited : length (unvisited visited) ≤ 64.
Proof.
  unfold unvisited. etrans; [apply length_filter|]. by vm_compute.
Qed.

Lemma neighbors_spec visited x y nx ny dx dy :
  (nx, ny, dx, dy) ∈ MazeGenerator.neighbors visited x y ↔
  (0 < nx < GRID_SIZE - 1)%Z ∧ (0 < ny < GRID_SIZE - 1)%Z
  ∧ ((nx, ny) ∉ visited)
  ∧ (nx = x + 2 * dx)%Z ∧ (ny = y + 2 * dy)%Z ∧ cardinal dx dy.
Proof.
  unfold MazeGenerator.neighbors, MazeGenerator.DIRECTIONS, cardinal.
  rewrite list_elem_of_omap. split.
  - intros (d & Hd & Hf).
    destruct (decide _) as [Hb|]; [|done].
    destruct (decide _) as [|Hv]; [done|]. injection Hf as <- <- <- <-.
    rewrite !elem_of_cons, elem_of_nil in Hd.
    destruct Hd as [->|[->|[->|[->|[]]]]]; simpl in *;
      change (0 / 2)%Z with 0%Z; change (-2 / 2)%Z with (-1)%Z;
      change (2 / 2)%Z with 1%Z; split_and!; try done; lia.
  - intros (Hx & Hy & Hv & -> & -> & Hd).
    exists ((2 * dx)%Z, (2 * dy)%Z). split.
    + rewrite !elem_of_cons.
      destruct Hd as [[-> [->| ->]]|[-> [->| ->]]]; simpl; tauto.
    + simpl. rewrite decide_True by lia. rewrite decide_False by done.
      rewrite !(Z.mul_comm 2), !Z.div_mul by lia. done.
Qed.

Lemma set_type_step grid x y t :
  grid10 grid → (0 <= x < GRID_SIZE)%Z → (0 <= y < GRID_SIZE)%Z →
  ∃ grid', set_type grid x y t = Some grid' ∧ grid10 grid'
           ∧ (∀ x' y', grid_at grid' x' y'
                       = if decide (x' = x ∧ y' = y)
                         then with_type t <$> grid_at grid x y
                         else grid_at grid x' y').
Proof.
  intros Hg Hx Hy. destruct (grid10_at grid x y Hg Hx Hy) as [c Hc].
  destruct (update_cell_Some grid x y (with_type t) c Hc) as [grid' Hup].
  exists grid'. split_and!; [done| |].
  - by apply (update_cell_grid10 grid x y (with_type t) grid' Hg
                (with_type_coords t)).
  - intros x' y'. by apply grid_at_update.
Qed.

Lemma set_empty_bare grid x y grid' :
  bare grid →
  (∀ x' y', grid_at grid' x' y'
            = if decide (x' = x ∧ y' = y)
              then with_type TEmpty <$> grid_at grid x y
              else grid_at grid x' y') →
  bare grid'
  ∧ (∀ x' y', kind_at grid x' y' = Some TEmpty →
              kind_at grid' x' y' = Some TEmpty)
  ∧ (is_Some (grid_at grid x y) → kind_at grid' x y = Some TEmpty).
Proof.
  intros Hbare Hat. split_and!.
  - intros x' y' c. rewrite Hat. destruct (decide _); [|apply Hbare].
    destruct (grid_at grid x y); [|done]. intros [= <-]. by right.
  - intros x' y'. unfold kind_at. rewrite Hat.
    destruct (decide _) as [[-> ->]|]; [|done].
    by destruct (grid_at grid x y).
  - intros [c Hc]. unfold kind_at. rewrite Hat, decide_True by done.
    by rewrite Hc.
Qed.

Section carving.
Context {World : Type} (env : Oracle World).

(** The carving returns; it leaves a grid of walls and empty cells, keeps
    every empty cell empty, and when the top of the stack has an unvisited
    lattice neighbour it opens the cell next to the top towards one. *)
Lemma carve_returns fuel grid stack visited w :
  carve_inv grid stack visited →
  2 * length (unvisited visited) + length stack < fuel →
  ∃ grid' w',
    MazeGenerator.carve env fuel grid stack visited w = Returns (grid', w')
    ∧ grid10 grid' ∧ bare grid'
    ∧ (∀ x y, kind_at grid x y = Some TEmpty →
              kind_at grid' x y = Some TEmpty)
    ∧ (∀ x y below, stack = (x, y) :: below →
         MazeGenerator.neighbors visited x y ≠ [] →
         ∃ dx dy, cardinal dx dy
                  ∧ (0 < x + 2 * dx < GRID_SIZE - 1)%Z
                  ∧ (0 < y + 2 * dy < GRID_SIZE - 1)%Z
                  ∧ kind_at grid' (x + dx) (y + dy) = Some TEmpty).
Proof.
  revert grid stack visited w.
  induction fuel as [|fuel IH]; intros grid stack visited w; [lia|].
  intros (Hg & Hbare & Hstack & Hvis) Hfuel. simpl.
  destruct stack as [|[x y] below].
  { exists grid, w. split_and!; try done. }
  destruct (decide (0 < length (MazeGenerator.neighbors visited x y)))
    as [Hns|Hns].
  - destruct (random_floor env _ w) as [i w1] eqn:Hr.
    pose proof (random_floor_lt _ env _ w Hns) as Hi. rewrite Hr in Hi.
    simpl in Hi.
    destruct (lookup_lt_is_Some_2 _ _ Hi) as [[[[nx ny] dx] dy] Hn].
    rewrite Hn.
    assert ((nx, ny, dx, dy) ∈ MazeGenerator.neighbors visited x y) as Hin
      by (apply list_elem_of_lookup; eauto).
    apply neighbors_spec in Hin as (Hnx & Hny & Hnv & Hex & Hey & Hd).
    destruct (Hvis (x, y)) as [Hx Hy];
      [apply Hstack, elem_of_cons; by left|]. simpl in Hx, Hy.
    assert (0 <= x + dx < GRID_SIZE ∧ 0 <= y + dy < GRID_SIZE)%Z as [Hbx Hby]
      by (unfold GRID_SIZE, cardinal in *; lia).
    destruct (set_type_step grid (x + dx) (y + dy) TEmpty Hg Hbx Hby)
      as (grid1 & -> & Hg1 & Hat1).
    destruct (set_empty_bare grid _ _ grid1 Hbare Hat1)
      as (Hbare1 & Hkeep1 & Hopen1).
    assert (0 <= nx < GRID_SIZE ∧ 0 <= ny < GRID_SIZE)%Z as [Hbnx Hbny]
      by (unfold GRID_SIZE in *; lia).
    destruct (set_type_step grid1 nx ny TEmpty Hg1 Hbnx Hbny)
      as (grid2 & -> & Hg2 & Hat2).
    destruct (set_empty_bare grid1 _ _ grid2 Hbare1 Hat2)
      as (Hbare2 & Hkeep2 & _).
    destruct (IH grid2 ((nx, ny) :: (x, y) :: below)
                ({[(nx, ny)]} ∪ visited) w1)
      as (grid' & w' & -> & Hg' & Hbare' & Hkeep' & _).
    { split_and!; [done..| |].
      - intros p [->|Hp]%elem_of_cons; apply elem_of_union;
          [left; by apply elem_of_singleton | right; by apply Hstack].
      - intros p [->%elem_of_singleton|Hp]%elem_of_union;
          [done | by apply Hvis]. }
    { pose proof (unvisited_drop visited (nx, ny) Hnx Hny Hnv). simpl in *.
      lia. }
    exists grid', w'. split_and!; try done.
    + intros x' y' Hk. by apply Hkeep', Hkeep2, Hkeep1.
    + intros x0 y0 below0 [= <- <- <-] _. exists dx, dy.
      split_and!; try done; try lia.
      apply Hkeep', Hkeep2, Hopen1. by apply grid10_at.
  - destruct (IH grid below visited w)
      as (grid' & w' & -> & Hg' & Hbare' & Hkeep' & _).
    { split_and!; try done. intros p Hp. apply Hstack, elem_of_cons.
      by right. }
    { simpl in Hfuel. lia. }
    exists grid', w'. split_and!; try done.
    intros x0 y0 below0 [= <- <- <-] Hne. exfalso. apply Hns.
    destruct (MazeGenerator.neighbors visited x y); [done|simpl; lia].
Qed.

End carving.

(** ** Step 4: the distance scan *)

Lemma unscanned_drop dists p d :
  (0 <= p.1 < GRID_SIZE)%Z → (0 <= p.2 < GRID_SIZE)%Z → dists !! p = None →
  length (unscanned (<[p:=d]> dists)) < length (unscanned dists).
Proof.
  intros Hx Hy Hp. unfold unscanned. apply (filter_length_drop _ _ _ p).
  - intros q Hq. destruct (decide (p = q)) as [->|Hne].
    + by rewrite lookup_insert_eq in Hq.
    + by rewrite lookup_insert_ne in Hq.
  - destruct p as [x y]. apply elem_of_scan_order. simpl in *. lia.
  - done.
  - by rewrite lookup_insert_eq.
Qed.

Lemma unscanned_bound dists : length (unscanned dists) ≤ 100.
Proof.
  unfold unscanned. etrans; [apply length_filter|]. by vm_compute.
Qed.

(** The inner [for] of the scan: what it appends to the queue. *)
Lemma scan_moves_spec grid x y d ms :
  grid10 grid → (∀ m, m ∈ ms → cardinal m.1 m.2) →
  ∀ q dists,
  ∃ new dists',
    foldl (MazeGenerator.scan_move grid x y d) (Some (q, dists)) ms
    = Some (q ++ new, dists')
    ∧ (∀ e, e ∈ new →
            ∃ dx dy c, cardinal dx dy
                       ∧ e = ((x + dx)%Z, (y + dy)%Z, (d + 1)%Z)
                       ∧ grid_at grid (x + dx) (y + dy) = Some c
                       ∧ cell_type c = TEmpty)
    ∧ length (unscanned dists') + length new ≤ length (unscanned dists)
    ∧ (∀ p, dists !! p ≠ None → dists' !! p ≠ None)
    ∧ (∀ m c, m ∈ ms → grid_at grid (x + m.1) (y + m.2) = Some c →
              cell_type c = TEmpty →
              dists !! ((x + m.1)%Z, (y + m.2)%Z) = None →
              new ≠ []).
Proof.
  intros Hg. induction ms as [|m ms IH]; intros Hms q dists.
  - exists [], dists. rewrite app_nil_r. split_and!; try done.
    + intros e He. by apply elem_of_nil in He.
    + simpl. lia.
    + intros m c Hm. by apply elem_of_nil in Hm.
  - assert (∀ m', m' ∈ ms → cardinal m'.1 m'.2) as Hms'
      by (intros m' Hm'; apply Hms, elem_of_cons; by right).
    assert (cardinal m.1 m.2) as Hm by (apply Hms, elem_of_cons; by left).
    simpl. destruct (decide _) as [Hb|Hnb].
    + destruct (grid10_at grid (x + m.1) (y + m.2) Hg) as [c Hc]; [lia..|].
      rewrite Hc. destruct (decide _) as [[Ht Hd]|Hno].
      * destruct (IH Hms' (q ++ [((x + m.1)%Z, (y + m.2)%Z, (d + 1)%Z)])
                    (<[((x + m.1)%Z, (y + m.2)%Z) := (d + 1)%Z]> dists))
          as (new & dists' & -> & Hnew & Hlen & Hdom & _).
        exists (((x + m.1)%Z, (y + m.2)%Z, (d + 1)%Z) :: new), dists'.
        rewrite <- app_assoc. split_and!; try done.
        -- intros e [->|He]%elem_of_cons; [|by apply Hnew].
           exists m.1, m.2, c. done.
        -- pose proof (unscanned_drop dists ((x + m.1)%Z, (y + m.2)%Z)
                         (d + 1)%Z) as Hdrop. simpl in *.
           specialize (Hdrop ltac:(lia) ltac:(lia) Hd). lia.
        -- intros p Hp. apply Hdom.
           destruct (decide (((x + m.1)%Z, (y + m.2)%Z) = p)) as [<-|Hne].
           ++ by rewrite lookup_insert_eq.
           ++ by rewrite lookup_insert_ne.
      * destruct (IH Hms' q dists)
          as (new & dists' & -> & Hnew & Hlen & Hdom & Hall).
        exists new, dists'. split_and!; try done.
        intros m' c' [->|Hm']%elem_of_cons Hc' Ht' Hd'; [|by eapply Hall].
        exfalso. apply Hno. rewrite Hc in Hc'. by injection Hc' as ->.
    + destruct (IH Hms' q dists)
        as (new & dists' & -> & Hnew & Hlen & Hdom & Hall).
      exists new, dists'. split_and!; try done.
      intros m' c' [->|Hm']%elem_of_cons Hc' Ht' Hd'; [|by eapply Hall].
      exfalso. apply Hnb.
      destruct (grid10_bounds grid _ _ c' Hg Hc'). lia.
Qed.

Lemma moves_cardinal m : m ∈ MazeGenerator.moves → cardinal m.1 m.2.
Proof.
  unfold MazeGenerator.moves, cardinal. rewrite !elem_of_cons, elem_of_nil.
  intros [->|[->|[->|[->|[]]]]]; simpl; lia.
Qed.

Lemma cardinal_moves dx dy : cardinal dx dy → (dx, dy) ∈ MazeGenerator.moves.
Proof.
  unfold MazeGenerator.moves, cardinal. rewrite !elem_of_cons.
  intros [[-> [->| ->]]|[-> [->| ->]]]; tauto.
Qed.

(** The scan returns an empty cell that can be walked to. *)
Lemma farthest_returns fuel grid q dists bestDist goalPos :
  grid10 grid → scan_inv grid q bestDist goalPos →
  length (unscanned dists) + length q < fuel →
  ∃ g, MazeGenerator.farthest fuel grid q dists bestDist goalPos = Returns g
       ∧ kind_at grid g.1 g.2 = Some TEmpty ∧ linked grid g.
Proof.
  intros Hg. revert q dists bestDist goalPos.
  induction fuel as [|fuel IH]; intros q dists bestDist goalPos; [lia|].
  intros (Hq & Hbest & Hgoal) Hfuel. cbn [MazeGenerator.farthest].
  destruct q as [|[[x y] d] rest].
  { exists goalPos. destruct Hgoal as [[_ ?]|[? ?]]; done. }
  destruct (Hq x y d) as (Hd & Hk & Hl); [apply elem_of_cons; by left|].
  destruct (scan_moves_spec grid x y d MazeGenerator.moves Hg moves_cardinal
              rest dists) as (new & dists' & -> & Hnew & Hlen & _ & _).
  apply IH.
  - split_and!.
    + intros x' y' d' [He|He]%elem_of_app.
      * apply Hq, elem_of_cons. by right.
      * destruct (Hnew _ He) as (dx & dy & c & Hc & [= -> -> ->] & Hat & Ht).
        split_and!; [lia | unfold kind_at; by rewrite Hat, <- Ht |].
        apply (linked_step grid x y dx dy c); [done..|]. by rewrite Ht.
    + destruct (decide (bestDist < d)%Z); simpl; lia.
    + destruct (decide (bestDist < d)%Z); simpl; [by right|].
      destruct Hgoal as [[? _]|?]; [lia | by right].
  - rewrite length_app. simpl in Hfuel. lia.
Qed.

(** From the initial queue, on a grid whose start has an empty neighbour. *)
Lemma farthest_initial fuel grid :
  grid10 grid →
  kind_at grid 1 2 = Some TEmpty ∨ kind_at grid 2 1 = Some TEmpty →
  101 < fuel →
  ∃ g, MazeGenerator.farthest fuel grid [(1, 1, 0)%Z] {[ (1, 1)%Z := 0%Z ]}
                              0 (1, 1)%Z = Returns g
       ∧ kind_at grid g.1 g.2 = Some TEmpty ∧ linked grid g.
Proof.
  intros Hg Hopen Hfuel. destruct fuel as [|fuel]; [lia|].
  cbn [MazeGenerator.farthest].
  destruct (scan_moves_spec grid 1 1 0 MazeGenerator.moves Hg moves_cardinal
              [] {[ (1, 1)%Z := 0%Z ]})
    as (new & dists' & -> & Hnew & Hlen & _ & Hall).
  destruct (decide (0 < 0)%Z) as [?|_]; [lia|]. cbn [fst snd].
  apply farthest_returns; [done| |].
  - split_and!.
    + intros x y d He. simpl in He.
      destruct (Hnew _ He) as (dx & dy & c & Hc & [= -> -> ->] & Hat & Ht).
      split_and!; [lia | unfold kind_at; by rewrite Hat, <- Ht |].
      apply (linked_step grid 1 1 dx dy c); [constructor|done..|].
      by rewrite Ht.
    + lia.
    + left. split; [done|]. simpl.
      destruct Hopen as [Ho|Ho]; unfold kind_at in Ho;
        [destruct (grid_at grid 1 2) as [c|] eqn:Hc
        |destruct (grid_at grid 2 1) as [c|] eqn:Hc]; try done;
        injection Ho as Ho.
      * apply (Hall (0, 1)%Z c);
          [apply cardinal_moves; unfold cardinal; lia | done..].
      * apply (Hall (1, 0)%Z c);
          [apply cardinal_moves; unfold cardinal; lia | done..].
  - pose proof (unscanned_bound {[ (1, 1)%Z := 0%Z ]}). simpl.
    pose proof (unscanned_bound dists'). lia.
Qed.

(** ** Steps 3 to 6: endpoints, portals and holes *)

Lemma linked_mono grid grid' p :
  (∀ x y c, grid_at grid x y = Some c → cell_type c ≠ TWall →
            ∃ c', grid_at grid' x y = Some c' ∧ cell_type c' ≠ TWall) →
  linked grid p → linked grid' p.
Proof.
  intros Hmono. induction 1 as [|x y dx dy c _ IH Hd Hc Ht]; [constructor|].
  destruct (Hmono _ _ c Hc Ht) as (c' & Hc' & Ht').
  by apply (linked_step grid' x y dx dy c').
Qed.

(** Rewriting a cell that is neither the start nor the goal into something
    that is none of start, goal and wall keeps the grid sound. *)
Lemma sound_update grid g x y f :
  sound grid g →
  (0 <= x < GRID_SIZE)%Z → (0 <= y < GRID_SIZE)%Z →
  (x, y) ≠ (1, 1)%Z → (x, y) ≠ g →
  (∀ c, cell_x (f c) = cell_x c ∧ cell_y (f c) = cell_y c) →
  (∀ c, cell_type (f c) ≠ TStart ∧ cell_type (f c) ≠ TGoal
        ∧ cell_type (f c) ≠ TWall) →
  ∃ grid', update_cell grid x y f = Some grid' ∧ sound grid' g.
Proof.
  intros (Hg & Hends & Hl) Hx Hy Hns Hng Hf Hkind.
  destruct (grid10_at grid x y Hg Hx Hy) as [c Hc].
  destruct (update_cell_Some grid x y f c Hc) as [grid' Hup].
  exists grid'. split; [done|].
  pose proof (grid_at_update grid x y f grid') as Hat.
  split_and!.
  - by apply (update_cell_grid10 grid x y f grid').
  - intros x' y' c'. rewrite (Hat x' y' Hup).
    destruct (decide _) as [[-> ->]|Hne]; [|apply Hends].
    rewrite Hc. simpl. intros [= <-]. destruct (Hkind c) as (? & ? & ?).
    split; split; intros ?; done.
  - apply (linked_mono grid); [|done].
    intros x' y' c' Hc' Ht'. rewrite (Hat x' y' Hup).
    destruct (decide _) as [[-> ->]|Hne]; [|eauto].
    rewrite Hc. simpl. exists (f c). split; [done|].
    by destruct (Hkind c) as (_ & _ & ?).
Qed.

Lemma sound_kind_empty grid g x y :
  sound grid g → kind_at grid x y = Some TEmpty ∨ kind_at grid x y = Some TWall →
  (0 <= x < GRID_SIZE)%Z ∧ (0 <= y < GRID_SIZE)%Z
  ∧ (x, y) ≠ (1, 1)%Z ∧ (x, y) ≠ g.
Proof.
  intros (Hg & Hends & _) Hk. unfold kind_at in Hk.
  destruct (grid_at grid x y) as [c|] eqn:Hc; [|by destruct Hk].
  destruct (grid10_bounds grid x y c Hg Hc) as [Hx Hy].
  destruct (Hends x y c Hc) as [Hs Hgo].
  split; [done|]. split; [done|]. simpl in Hk.
  split; intros Heq; [apply Hs in Heq | apply Hgo in Heq];
    rewrite Heq in Hk; by destruct Hk.
Qed.

Lemma empties_of_spec grid :
  grid10 grid →
  ∃ l, MazeGenerator.empties_of grid = Some l
       ∧ ∀ p, p ∈ l → kind_at grid p.1 p.2 = Some TEmpty.
Proof.
  intros Hg. unfold MazeGenerator.empties_of.
  assert (is_Some (mapM (fun p : Pos => grid_at grid p.1 p.2)
                     (MazeGenerator.scan_order 0 GRID_SIZE))) as [cs Hm].
  { apply mapM_is_Some, Forall_forall.
    intros [x y] [Hx Hy]%elem_of_scan_order. simpl. by apply grid10_at. }
  rewrite Hm. cbn [mbind option_bind]. eexists. split; [done|].
  intros p (c & -> & [Ht Hc]%list_elem_of_filter)%list_elem_of_fmap.
  apply mapM_Some_1 in Hm.
  apply list_elem_of_lookup in Hc as [i Hi].
  destruct (Forall2_lookup_r _ _ _ _ _ Hm Hi) as (p & _ & Hat).
  destruct Hg as (Hwf & _).
  destruct (grid_at_cell grid _ _ c Hwf Hat) as (Hx & Hy & _).
  unfold kind_at, cell_pos. simpl. rewrite Hx, Hy, Hat. simpl. by f_equal.
Qed.

Section finishing.
Context {World : Type} (env : Oracle World).

Lemma place_portals_sound grid g w :
  sound grid g →
  ∃ grid' w', MazeGenerator.place_portals env grid w = Returns (grid', w')
              ∧ sound grid' g.
Proof.
  intros Hs. unfold MazeGenerator.place_portals.
  destruct (empties_of_spec grid (proj1 Hs)) as (empties & -> & Hempty).
  destruct (decide (2 <= length empties)) as [Hlen|]; [|eauto].
  destruct (random_sort env empties w) as [sorted w1] eqn:Hr.
  pose proof (random_sort_perm _ env empties w) as Hperm.
  rewrite Hr in Hperm. simpl in Hperm.
  rewrite <- (Permutation_length Hperm) in Hlen.
  destruct sorted as [|p1 [|p2 rest]]; simpl in Hlen; try lia.
  assert (kind_at grid p1.1 p1.2 = Some TEmpty) as Hk1.
  { apply Hempty. rewrite <- Hperm. apply elem_of_cons. by left. }
  assert (kind_at grid p2.1 p2.2 = Some TEmpty) as Hk2.
  { apply Hempty. rewrite <- Hperm. apply elem_of_cons. right.
    apply elem_of_cons. by left. }
  destruct (sound_kind_empty grid g _ _ Hs (or_introl Hk1))
    as (Hx1 & Hy1 & Hns1 & Hng1).
  destruct (sound_kind_empty grid g _ _ Hs (or_introl Hk2))
    as (Hx2 & Hy2 & Hns2 & Hng2).
  unfold set_portal.
  destruct (sound_update grid g p1.1 p1.2 (with_portal Blue) Hs Hx1 Hy1
              Hns1 Hng1 (with_portal_coords Blue))
    as (grid1 & -> & Hs1); [done|].
  destruct (sound_update grid1 g p2.1 p2.2 (with_portal Blue) Hs1 Hx2 Hy2
              Hns2 Hng2 (with_portal_coords Blue))
    as (grid2 & -> & Hs2); [done|].
  eauto.
Qed.

Lemma punch_sound grid g w p :
  sound grid g → (0 <= p.1 < GRID_SIZE)%Z → (0 <= p.2 < GRID_SIZE)%Z →
  ∃ grid' w', MazeGenerator.punch env (Returns (grid, w)) p
              = Returns (grid', w')
              ∧ sound grid' g.
Proof.
  intros Hs Hx Hy. unfold MazeGenerator.punch.
  destruct (grid10_at grid p.1 p.2 (proj1 Hs) Hx Hy) as [cell Hc].
  rewrite Hc.
  destruct (decide (cell_type cell = TWall)) as [Hw|]; [|eauto].
  destruct (random_below_tenth env w) as [[|] w1]; [|eauto].
  assert (kind_at grid p.1 p.2 = Some TWall) as Hk
    by (unfold kind_at; by rewrite Hc, <- Hw).
  destruct (sound_kind_empty grid g _ _ Hs (or_intror Hk))
    as (_ & _ & Hns & Hng).
  unfold set_type.
  destruct (sound_update grid g p.1 p.2 (with_type TEmpty) Hs Hx Hy
              Hns Hng (with_type_coords TEmpty))
    as (grid1 & -> & Hs1); [done|].
  eauto.
Qed.

Lemma punch_holes_sound grid g w :
  sound grid g →
  ∃ grid' w', MazeGenerator.punch_holes env grid w = Returns (grid', w')
              ∧ sound grid' g.
Proof.
  unfold MazeGenerator.punch_holes.
  assert (∀ p, p ∈ MazeGenerator.scan_order 1 (GRID_SIZE - 1) →
               (0 <= p.1 < GRID_SIZE)%Z ∧ (0 <= p.2 < GRID_SIZE)%Z) as Hin.
  { intros [x y] Hp%elem_of_scan_order. simpl. unfold GRID_SIZE in *. lia. }
  revert grid w Hin.
  induction (MazeGenerator.scan_order 1 (GRID_SIZE - 1)) as [|p l IH];
    intros grid w Hin Hs; [simpl; eauto|].
  destruct (Hin p) as [Hx Hy]; [apply elem_of_cons; by left|].
  destruct (punch_sound grid g w p Hs Hx Hy) as (grid1 & w1 & Heq & Hs1).
  cbn [foldl]. rewrite Heq. apply IH; [|done].
  intros p' Hp'. apply Hin, elem_of_cons. by right.
Qed.

(** One attempt always returns a sound grid. *)
Lemma attempt_sound w :
  ∃ grid' w' g,
    MazeGenerator.attempt env w = Returns (grid', w') ∧ sound grid' g.
Proof.
  unfold MazeGenerator.attempt.
  pose proof (wall_grid_grid10 env w) as [Hg0 Hbare0].
  destruct (MazeGenerator.wall_grid env (seqZ 0 GRID_SIZE) w) as [grid0 w0].
  cbn [fst] in Hg0, Hbare0.
  destruct (set_type_step grid0 1 1 TEmpty Hg0) as (grid1 & -> & Hg1 & Hat1);
    [by unfold GRID_SIZE..|].
  destruct (set_empty_bare grid0 _ _ grid1 Hbare0 Hat1) as (Hbare1 & _ & _).
  destruct (carve_returns env MazeGenerator.carve_fuel grid1 [(1, 1)%Z]
              {[ (1, 1)%Z ]} w0)
    as (grid2 & w1 & -> & Hg2 & Hbare2 & _ & Hopen).
  { split_and!; [done..| |].
    - intros p ->%list_elem_of_singleton. by apply elem_of_singleton.
    - intros p ->%elem_of_singleton. by unfold GRID_SIZE. }
  { pose proof (unvisited_bound {[ (1, 1)%Z ]}).
    unfold MazeGenerator.carve_fuel. simpl. lia. }
  destruct (Hopen 1%Z 1%Z [] eq_refl) as (dx & dy & Hd & Hdx & Hdy & Hk2).
  { intros Hnil.
    assert ((1, 3, 0, 1)%Z ∈ MazeGenerator.neighbors {[ (1, 1)%Z ]} 1 1)
      as Hin.
    { apply neighbors_spec. unfold GRID_SIZE, cardinal.
      split_and!; try lia. by intros [= ?]%elem_of_singleton. }
    rewrite Hnil in Hin. by apply elem_of_nil in Hin. }
  destruct (set_type_step grid2 1 1 TStart Hg2) as (grid3 & -> & Hg3 & Hat3);
    [by unfold GRID_SIZE..|].
  assert (kind_at grid3 1 2 = Some TEmpty ∨ kind_at grid3 2 1 = Some TEmpty)
    as Hopen3.
  { unfold kind_at, GRID_SIZE, cardinal in *. rewrite !Hat3.
    rewrite !decide_False by lia.
    destruct Hd as [[-> [->| ->]]|[-> [->| ->]]]; simpl in *;
      try lia; [by left | by right]. }
  destruct (farthest_initial MazeGenerator.scan_fuel grid3 Hg3 Hopen3)
    as (g & -> & Hkg & Hlg); [unfold MazeGenerator.scan_fuel; lia|].
  assert (∃ cg, grid_at grid3 g.1 g.2 = Some cg ∧ cell_type cg = TEmpty)
    as (cg & Hcg & Htg).
  { unfold kind_at in Hkg. destruct (grid_at grid3 g.1 g.2) as [cg|]; [|done].
    injection Hkg as Hkg. eauto. }
  destruct (grid10_bounds grid3 _ _ cg Hg3 Hcg) as [Hgx Hgy].
  destruct g as [gx gy]. cbn [fst snd] in *.
  assert ((gx, gy) ≠ (1, 1)%Z) as Hg11.
  { intros [= -> ->]. rewrite Hat3, decide_True in Hcg by done.
    destruct (grid_at grid2 1 1); [|done]. injection Hcg as <-. done. }
  destruct (set_type_step grid3 gx gy TGoal Hg3 Hgx Hgy)
    as (grid4 & -> & Hg4 & Hat4).
  assert (sound grid4 (gx, gy)) as Hs4.
  { split_and!; [done| |].
    - intros x y c. rewrite Hat4.
      destruct (decide (x = gx ∧ y = gy)) as [[-> ->]|Hne].
      + rewrite Hcg. simpl. intros [= <-]. simpl.
        split; split; try done.
      + rewrite Hat3. destruct (decide (x = 1%Z ∧ y = 1%Z)) as [[-> ->]|Hne1].
        * destruct (grid_at grid2 1 1); [|done]. simpl. intros [= <-]. simpl.
          split; split; try done;
            try (intros Heq; by rewrite <- Heq in Hg11).
        * intros Hc. destruct (Hbare2 x y c Hc) as [Ht|Ht]; rewrite Ht;
            split; split; try done;
            intros [= -> ->]; exfalso; (by apply Hne1) || (by apply Hne).
    - apply (linked_mono grid3); [|done]. intros x y c Hc Ht.
      rewrite Hat4. destruct (decide _) as [[-> ->]|]; [|eauto].
      rewrite Hcg. simpl. eexists. split; [done|]. done. }
  destruct (place_portals_sound grid4 _ w1 Hs4) as (grid5 & w2 & -> & Hs5).
  destruct (punch_holes_sound grid5 _ w2 Hs5) as (grid6 & w3 & -> & Hs6).
  eauto.
Qed.

End finishing.

(** ** A sound grid has one start, one goal, and is solvable *)

Lemma rows_NoDup (j0 : Z) (rows : list (list Cell)) :
  (∀ j i row c, rows !! j = Some row → row !! i = Some c →
                cell_x c = Z.of_nat i ∧ cell_y c = (j0 + Z.of_nat j)%Z) →
  NoDup (mjoin rows).
Proof.
  revert j0. induction rows as [|r rs IH]; intros j0 Hc; [constructor|].
  simpl. apply NoDup_app. split_and!.
  - apply NoDup_alt. intros i i' c Hi Hi'.
    destruct (Hc 0 i r c eq_refl Hi) as [Hx _].
    destruct (Hc 0 i' r c eq_refl Hi') as [Hx' _]. lia.
  - intros c [i Hi]%list_elem_of_lookup (row & Hin & Hrow)%list_elem_of_join.
    apply list_elem_of_lookup in Hin as [i' Hi'], Hrow as [j Hj].
    destruct (Hc 0 i r c eq_refl Hi) as [_ Hy].
    destruct (Hc (S j) i' row c Hj Hi') as [_ Hy']. lia.
  - apply (IH (j0 + 1)%Z). intros j i row c Hrow Hcell.
    destruct (Hc (S j) i row c Hrow Hcell) as [Hx Hy]. split; [done|lia].
Qed.

Lemma cells_NoDup grid : wf_grid grid → NoDup (cells grid).
Proof.
  intros Hwf. apply (rows_NoDup 0). intros j i row c Hrow Hc.
  destruct (wf_lookup grid j i row c Hwf Hrow Hc). split; [done|lia].
Qed.

Lemma count_type_singleton t grid c :
  wf_grid grid → c ∈ cells grid → cell_type c = t →
  (∀ c', c' ∈ cells grid → cell_type c' = t → c' = c) →
  count_type t grid = 1.
Proof.
  intros Hwf Hc Ht Huniq. unfold count_type.
  pose proof (NoDup_filter (fun c => cell_type c = t) _ (cells_NoDup grid Hwf))
    as Hnd.
  assert (c ∈ filter (fun c => cell_type c = t) (cells grid)) as Hin
    by (by apply list_elem_of_filter).
  assert (∀ c', c' ∈ filter (fun c => cell_type c = t) (cells grid) → c' = c)
    as Hall.
  { intros c' [? ?]%list_elem_of_filter. by apply Huniq. }
  destruct (filter _ (cells grid)) as [|a [|b l]].
  - by apply elem_of_nil in Hin.
  - done.
  - exfalso. assert (a = c) as -> by (apply Hall, elem_of_cons; by left).
    assert (b = c) as ->
      by (apply Hall, elem_of_cons; right; apply elem_of_cons; by left).
    apply NoDup_cons in Hnd as [Hnd _]. apply Hnd, elem_of_cons. by left.
Qed.

Lemma linked_in_grid grid p :
  grid10 grid → linked grid p → is_Some (grid_at grid p.1 p.2).
Proof.
  intros Hg. destruct 1; simpl; [|eauto].
  apply grid10_at; [done|by unfold GRID_SIZE..].
Qed.

Lemma linked_plan grid K p :
  wf_grid grid → linked grid p →
  ∃ n, plan grid K (1, 1, 0)%Z n (p.1, p.2, 0%Z).
Proof.
  intros Hwf. induction 1 as [|x y dx dy c _ [n IH] Hd Hc Ht].
  - exists 0. constructor.
  - exists (S n). apply (plan_more _ _ _ _ (x, y, 0%Z)); [done|]. simpl.
    destruct (grid_at_cell grid _ _ c Hwf Hc) as (Hx & Hy & _).
    rewrite <- Hx, <- Hy. by apply (action_move _ _ x y 0 dx dy c).
Qed.

(** Any walk of the search onto the goal makes [solveMaze] find a
    solution. *)
Lemma solveMaze_reaches grid K s g cols ks k :
  wf_grid grid → findEndpoints grid = (Some s, Some g) →
  grid_cols grid = Some cols →
  trail (successors grid (findPortals grid) K (grid_rows grid) cols)
        (s.1, s.2, 0%Z) ks k →
  at_goal g k →
  ∃ sol, solveMaze grid K = Returns (Some sol).
Proof.
  intros Hwf He Hcols Ht Hk.
  destruct (solveMaze_wf grid K s g Hwf He)
    as (cols' & r & st' & Hcols' & Hr & Hpost).
  rewrite Hcols in Hcols'. injection Hcols' as <-.
  destruct r as [sol|]; [eauto|]. exfalso.
  destruct Hpost as (_ & _ & Hno). by apply (Hno ks k Ht).
Qed.

Lemma sound_endpoints grid g :
  sound grid g →
  count_type TStart grid = 1 ∧ count_type TGoal grid = 1
  ∧ findEndpoints grid = (Some (1, 1)%Z, Some g).
Proof.
  intros (Hg & Hends & Hl). pose proof Hg as (Hwf & _).
  destruct (grid10_at grid 1 1 Hg) as [cs Hcs]; [by unfold GRID_SIZE..|].
  destruct (linked_in_grid grid g Hg Hl) as [cg Hcg].
  destruct (grid_at_cell grid _ _ cs Hwf Hcs) as (Hsx & Hsy & Hsin & _).
  destruct (grid_at_cell grid _ _ cg Hwf Hcg) as (Hgx & Hgy & Hgin & _).
  assert (cell_type cs = TStart) as Hts by (by apply (Hends 1%Z 1%Z cs)).
  assert (cell_type cg = TGoal) as Htg
    by (apply (Hends g.1 g.2 cg); [done | by destruct g]).
  assert (count_type TStart grid = 1) as Hn1.
  { apply (count_type_singleton TStart grid cs); try done.
    intros c' Hc' Ht'. pose proof (cell_grid_at grid c' Hwf Hc') as Hat.
    apply (Hends _ _ c' Hat) in Ht' as [= Hx Hy].
    rewrite Hx, Hy in Hat. congruence. }
  assert (count_type TGoal grid = 1) as Hn2.
  { apply (count_type_singleton TGoal grid cg); try done.
    intros c' Hc' Ht'. pose proof (cell_grid_at grid c' Hwf Hc') as Hat.
    apply (Hends _ _ c' Hat) in Ht'. destruct g as [gx gy].
    injection Ht' as Hx Hy. rewrite Hx, Hy in Hat. simpl in *. congruence. }
  split_and!; [done..|].
  destruct (findEndpoints_unique grid Hn1 Hn2)
    as (cs' & cg' & Hcs' & Hts' & Hcg' & Htg' & ->).
  rewrite <- (count_type_unique TStart grid cs cs') by done.
  rewrite <- (count_type_unique TGoal grid cg cg') by done.
  unfold cell_pos. rewrite Hsx, Hsy, Hgx, Hgy. by destruct g.
Qed.

Lemma sound_solvable grid g K :
  sound grid g → (0 <= K)%Z → ∃ sol, solveMaze grid K = Returns (Some sol).
Proof.
  intros Hs HK. destruct (sound_endpoints grid g Hs) as (_ & _ & He).
  destruct Hs as (Hg & _ & Hl). pose proof Hg as (Hwf & Hrows & Hcols).
  destruct (linked_plan grid K g Hwf Hl) as [n Hplan].
  assert ((1, 1, 0)%Z ∈ all_states grid K) as Hk0.
  { apply elem_of_all_states. rewrite Hcols, Hrows. unfold GRID_SIZE.
    simpl. lia. }
  destruct (plan_trail grid K GRID_SIZE Hwf Hcols _ n _ Hk0 HK Hplan)
    as (_ & ks & Ht & _).
  by apply (solveMaze_reaches grid K (1, 1)%Z g GRID_SIZE ks (g.1, g.2, 0%Z)).
Qed.

(** ** C2: every generated level is valid *)

(** C2. For every budget [K] in [0, 5], every random source and every state
    of it, [generateRandomLevel] returns a level (it neither throws nor runs
    out of fuel) whose grid has exactly one start and exactly one goal,
    which [solveMaze] solves both with no break and with [K] breaks, and
    whose two stored counts are the steps of those two solutions. The
    returned level comes from the first attempt: with such a budget the
    fallback is never reached. *)
Theorem generate_valid {World : Type} (env : Oracle World) (K : Z) (w : World) :
  (0 <= K <= 5)%Z →
  ∃ level w' sol0 solK,
    MazeGenerator.generateRandomLevel env K w = Returns (level, w')
    ∧ count_type TStart (level_grid level) = 1
    ∧ count_type TGoal (level_grid level) = 1
    ∧ solveMaze (level_grid level) 0 = Returns (Some sol0)
    ∧ solveMaze (level_grid level) K = Returns (Some solK)
    ∧ optimalStepsNoBreak level = Some (steps sol0)
    ∧ optimalStepsWithBreak level = Some (steps solK)
    ∧ maxBreaks level = K
    ∧ level_name level ≠ "Fallback Level".
Proof.
  intros HK. unfold MazeGenerator.generateRandomLevel.
  change 20 with (S 19). generalize 19. intros remaining.
  cbn [MazeGenerator.attempts].
  destruct (attempt_sound env w) as (grid & w1 & g & -> & Hs).
  destruct (sound_solvable grid g 0 Hs) as [sol0 Hsol0]; [lia|].
  destruct (sound_solvable grid g K Hs) as [solK HsolK]; [lia|].
  destruct (sound_endpoints grid g Hs) as (Hn1 & Hn2 & _).
  rewrite Hsol0, HsolK.
  destruct (generateId env w1) as [id w2].
  destruct (random_floor env 900 w2) as [n w3].
  destruct (date_now env w3) as [now w4].
  eexists _, _, sol0, solK. split; [done|]. simpl. split_and!; done.
Qed.

Lemma generate_valid_witness :
  ∃ level w' sol0 solK,
    MazeGenerator.generateRandomLevel lcg_oracle 1 42%N = Returns (level, w')
    ∧ count_type TStart (level_grid level) = 1
    ∧ count_type TGoal (level_grid level) = 1
    ∧ solveMaze (level_grid level) 0 = Returns (Some sol0)
    ∧ solveMaze (level_grid level) 1 = Returns (Some solK)
    ∧ optimalStepsNoBreak level = Some (steps sol0)
    ∧ optimalStepsWithBreak level = Some (steps solK)
    ∧ maxBreaks level = 1%Z
    ∧ level_name level ≠ "Fallback Level".
Proof. apply (generate_valid lcg_oracle 1 42%N). lia. Defined.

(** ** C7: the fallback *)

Lemma solveMaze_negative grid g K :
  sound grid g → (K < 0)%Z → solveMaze grid K = Returns None.
Proof.
  intros Hs HK. destruct (sound_endpoints grid g Hs) as (_ & _ & He).
  destruct Hs as ((Hwf & _) & _).
  destruct (solveMaze_wf grid K _ _ Hwf He) as (cols & r & st' & _ & Hr & _).
  destruct r as [sol|]; [|done]. exfalso.
  destruct (solveMaze_Some_walk grid K sol Hwf Hr)
    as (? & ? & ? & ? & ? & _ & _ & _ & _ & _ & _ & _ & _ & _ & ? & _).
  lia.
Qed.

Section fallback_facts.
Context {World : Type} (env : Oracle World).

Lemma fallback_returns grid K w :
  grid10 grid →
  ∃ level w',
    MazeGenerator.fallback env grid K w = Returns (level, w')
    ∧ level_name level = "Fallback Level"
    ∧ maxBreaks level = K
    ∧ optimalStepsNoBreak level = Some 2%Z
    ∧ optimalStepsWithBreak level = Some 2%Z
    ∧ grid10 (level_grid level)
    ∧ kind_at (level_grid level) 1 1 = Some TStart
    ∧ kind_at (level_grid level) 2 1 = Some TEmpty
    ∧ kind_at (level_grid level) 3 1 = Some TGoal
    ∧ ∀ x y, ¬ (y = 1 ∧ 1 <= x <= 3)%Z →
             grid_at (level_grid level) x y = grid_at grid x y.
Proof.
  intros Hg. unfold MazeGenerator.fallback.
  destruct (set_type_step grid 1 1 TStart Hg) as (grid1 & -> & Hg1 & Hat1);
    [by unfold GRID_SIZE..|].
  destruct (set_type_step grid1 2 1 TEmpty Hg1) as (grid2 & -> & Hg2 & Hat2);
    [by unfold GRID_SIZE..|].
  destruct (set_type_step grid2 3 1 TGoal Hg2) as (grid3 & -> & Hg3 & Hat3);
    [by unfold GRID_SIZE..|].
  destruct (generateId env w) as [id w1].
  destruct (date_now env w1) as [now w2].
  destruct (grid10_at grid 1 1 Hg) as [c1 Hc1]; [by unfold GRID_SIZE..|].
  destruct (grid10_at grid 2 1 Hg) as [c2 Hc2]; [by unfold GRID_SIZE..|].
  destruct (grid10_at grid 3 1 Hg) as [c3 Hc3]; [by unfold GRID_SIZE..|].
  eexists _, _. split; [done|]. simpl. split_and!; try done.
  - unfold kind_at. rewrite Hat3, decide_False by lia.
    rewrite Hat2, decide_False by lia.
    rewrite Hat1, decide_True by done. by rewrite Hc1.
  - unfold kind_at. rewrite Hat3, decide_False by lia.
    rewrite Hat2, decide_True by done.
    rewrite Hat1, decide_False by lia. by rewrite Hc2.
  - unfold kind_at. rewrite Hat3, decide_True by done.
    rewrite Hat2, decide_False by lia.
    rewrite Hat1, decide_False by lia. by rewrite Hc3.
  - intros x y Hxy. rewrite Hat3, decide_False by lia.
    rewrite Hat2, decide_False by lia.
    rewrite Hat1, decide_False by lia. done.
Qed.

Lemma attempts_all_fail remaining K grid w :
  MazeGenerator.all_attempts_fail env remaining K w = true →
  (remaining = 0 → grid10 grid) →
  ∃ level w' last,
    MazeGenerator.attempts env remaining K grid w = Returns (level, w')
    ∧ (remaining = 0 ∧ last = grid
       ∨ ∃ w0 w1 g, MazeGenerator.attempt env w0 = Returns (last, w1)
                    ∧ sound last g)
    ∧ level_name level = "Fallback Level"
    ∧ maxBreaks level = K
    ∧ optimalStepsNoBreak level = Some 2%Z
    ∧ optimalStepsWithBreak level = Some 2%Z
    ∧ grid10 (level_grid level)
    ∧ kind_at (level_grid level) 1 1 = Some TStart
    ∧ kind_at (level_grid level) 2 1 = Some TEmpty
    ∧ kind_at (level_grid level) 3 1 = Some TGoal
    ∧ ∀ x y, ¬ (y = 1 ∧ 1 <= x <= 3)%Z →
             grid_at (level_grid level) x y = grid_at last x y.
Proof.
  revert grid w.
  induction remaining as [|remaining IH]; intros grid w Hfail Hgrid.
  - destruct (fallback_returns grid K w (Hgrid eq_refl))
      as (level & w' & Hf & Hrest).
    exists level, w', grid. split; [done|]. split; [by left|]. done.
  - cbn [MazeGenerator.attempts MazeGenerator.all_attempts_fail] in *.
    destruct (attempt_sound env w) as (grid' & w1 & g & Ha & Hs).
    rewrite Ha in *.
    destruct (solveMaze grid' 0) as [[sol0|]| |]; try done;
      destruct (solveMaze grid' K) as [[solK|]| |]; try done.
    all: destruct (IH grid' w1 Hfail) as (level & w' & last & -> & Hlast & Hrest);
      [intros _; apply Hs|];
      exists level, w', last; (split; [done|]); (split; [|done]);
      right; destruct Hlast as [[_ ->]|?]; [|done]; eauto.
Qed.

(** A negative budget makes every attempt fail. *)
Lemma negative_budget_all_fail remaining K w :
  (K < 0)%Z → MazeGenerator.all_attempts_fail env remaining K w = true.
Proof.
  intros HK. revert w. induction remaining as [|remaining IH]; intros w;
    [done|].
  cbn [MazeGenerator.all_attempts_fail].
  destruct (attempt_sound env w) as (grid' & w1 & g & -> & Hs).
  destruct (sound_solvable grid' g 0 Hs) as [sol0 ->]; [lia|].
  rewrite (solveMaze_negative grid' g K Hs HK). apply IH.
Qed.

End fallback_facts.

(** C7. The fallback misses the simple level it is written to return. With
    budget -1 and the random source [first_oracle] all twenty attempts fail
    validation and the fallback is reached. It overwrites three cells of the
    grid left by the last attempt instead of building a level of its own:
    the level returned is on a 10 x 10 grid, not a 1 x 3 corridor, its grid
    has two goal cells (the one of the last attempt at (7, 1) and the new
    one at (3, 1)), and neither stored count is what [solveMaze] returns on
    that grid: the counts stored are 2 and 2, [solveMaze] finds 18 steps to
    the goal at (7, 1) with no break, and [null] with the budget -1. *)
Lemma fallback_counts_differ :
  MazeGenerator.all_attempts_fail first_oracle 20 (-1) tt = true
  ∧ ∃ level w',
      MazeGenerator.generateRandomLevel first_oracle (-1) tt
      = Returns (level, w')
      ∧ level_name level = "Fallback Level"
      ∧ grid_rows (level_grid level) = 10%Z
      ∧ grid_cols (level_grid level) = Some 10%Z
      ∧ count_type TGoal (level_grid level) = 2
      ∧ findEndpoints (level_grid level) = (Some (1, 1)%Z, Some (7, 1)%Z)
      ∧ optimalStepsNoBreak level = Some 2%Z
      ∧ (∃ sol, solveMaze (level_grid level) 0 = Returns (Some sol)
                ∧ steps sol = 18%Z)
      ∧ optimalStepsWithBreak level = Some 2%Z
      ∧ solveMaze (level_grid level) (-1) = Returns None.
Proof.
  split; [vm_compute; reflexivity|].
  eexists _, _. split; [vm_compute; reflexivity|].
  split_and!; try (vm_compute; reflexivity).
  eexists. split; vm_compute; reflexivity.
Qed.

(** * Rewriting the cells of a grid *)

Lemma grid_at_map f grid x y :
  grid_at (map_cells f grid) x y = f <$> grid_at grid x y.
Proof.
  unfold grid_at, map_cells. repeat (destruct (decide _); [|done]).
  rewrite list_lookup_fmap. destruct (grid !! Z.to_nat y) as [row|]; [|done].
  simpl. by rewrite list_lookup_fmap.
Qed.

Lemma cells_map f grid : cells (map_cells f grid) = f <$> cells grid.
Proof.
  unfold cells, map_cells. induction grid as [|row grid IH]; [done|].
  simpl. rewrite fmap_app. f_equal. exact IH.
Qed.

Lemma grid_rows_map f grid : grid_rows (map_cells f grid) = grid_rows grid.
Proof. unfold grid_rows, map_cells. by rewrite length_fmap. Qed.

Lemma grid_cols_map f grid : grid_cols (map_cells f grid) = grid_cols grid.
Proof. destruct grid; [done|]. simpl. by rewrite length_fmap. Qed.

Lemma wf_grid_map f grid :
  (∀ c, cell_x (f c) = cell_x c ∧ cell_y (f c) = cell_y c) →
  wf_grid grid → wf_grid (map_cells f grid).
Proof.
  intros Hf Hwf. apply wf_grid_intro.
  - intros row (row0 & -> & Hrow)%list_elem_of_fmap.
    rewrite length_fmap. destruct Hwf as [Hlen _].
    rewrite Forall_forall in Hlen. rewrite (Hlen _ Hrow).
    destruct grid; [done|]. simpl. by rewrite length_fmap.
  - intros j i row c Hrow Hc. unfold map_cells in Hrow.
    rewrite list_lookup_fmap in Hrow.
    destruct (grid !! j) as [row0|] eqn:Hrow0; [|done].
    injection Hrow as <-. rewrite list_lookup_fmap in Hc.
    destruct (row0 !! i) as [c0|] eqn:Hc0; [|done]. injection Hc as <-.
    destruct (Hf c0) as [-> ->]. by apply (wf_lookup grid j i row0).
Qed.

Lemma foldl_fmap_same {A} (g : A → Cell → A) (f : Cell → Cell) l a :
  (∀ a c, g a (f c) = g a c) → foldl g a (f <$> l) = foldl g a l.
Proof.
  intros Hg. revert a. induction l as [|c l IH]; intros a; [done|].
  simpl. by rewrite Hg, IH.
Qed.

Section same_kind.
Context (f : Cell → Cell) (Hf : keeps_kind f).

Lemma findEndpoints_map grid :
  findEndpoints (map_cells f grid) = findEndpoints grid.
Proof.
  unfold findEndpoints. rewrite !foldl_rows, cells_map.
  apply foldl_fmap_same. intros a c. unfold note_endpoint.
  by destruct (Hf c) as (-> & -> & -> & _).
Qed.

Lemma findPortals_map grid :
  findPortals (map_cells f grid) = findPortals grid.
Proof.
  unfold findPortals. rewrite !foldl_rows, cells_map.
  apply foldl_fmap_same. intros a c. unfold add_portal.
  by destruct (Hf c) as (-> & -> & -> & ->).
Qed.

Lemma successors_map grid portals K rows cols k :
  successors (map_cells f grid) portals K rows cols k
  = successors grid portals K rows cols k.
Proof.
  unfold successors. destruct k as [[x y] b]. rewrite grid_at_map.
  destruct (grid_at grid x y) as [c|]; [|done]. simpl.
  assert (∀ dir, move_target (map_cells f grid) K rows cols x y b dir
                 = move_target grid K rows cols x y b dir) as Hmove.
  { intros dir. unfold move_target. destruct (decide _); [|done].
    rewrite grid_at_map. destruct (grid_at grid _ _) as [n|]; [|done].
    simpl. by destruct (Hf n) as (_ & _ & -> & _). }
  unfold DIRECTIONS. cbn [mapM mbind option_bind]. rewrite !Hmove.
  unfold teleport_targets. by destruct (Hf c) as (_ & _ & -> & ->).
Qed.

Lemma search_map fuel grid portals K rows cols goal st :
  search fuel (map_cells f grid) portals K rows cols goal st
  = search fuel grid portals K rows cols goal st.
Proof.
  revert st. induction fuel as [|fuel IH]; intros st; [done|].
  cbn [search]. unfold iterate.
  destruct (queue st); [done|]. destruct (decide _); [done|].
  rewrite successors_map. by destruct (successors _ _ _ _ _ _).
Qed.

(** The solver reads the coordinates, the type and the portal colour of a
    cell, and nothing else. *)
Lemma solveMaze_map grid K :
  solveMaze (map_cells f grid) K = solveMaze grid K.
Proof.
  unfold solveMaze, solveMaze_run, solveMaze_fuel, state_space.
  rewrite findEndpoints_map, findPortals_map, grid_cols_map, grid_rows_map.
  unfold map_cells at 1. rewrite length_fmap.
  destruct (findEndpoints grid) as [[s|] [g|]]; try done.
  destruct (grid_cols grid); [|done]. by rewrite search_map.
Qed.

End same_kind.

Lemma relabel_keeps_kind ids : keeps_kind (fun c => with_id (ids c) c).
Proof. by intros c. Qed.

(** X3. The solver never reads the [id] of a cell: two grids that differ
    in the ids of their cells only get the same outcome from [solveMaze],
    with the same steps and the same path. *)
Theorem solveMaze_ignores_ids (ids : Cell → string) grid K :
  solveMaze (relabel ids grid) K = solveMaze grid K.
Proof. apply solveMaze_map, relabel_keeps_kind. Qed.

(** * More on the two scans of the solver *)

(** X1. [findEndpoints] returns the coordinates stored in the last start
    cell and in the last goal cell of the grid in row-major order, and
    nothing for a kind of which the grid has no cell. *)
Theorem findEndpoints_last grid :
  findEndpoints grid
  = (cell_pos <$> last (filter (fun c => cell_type c = TStart) (cells grid)),
     cell_pos <$> last (filter (fun c => cell_type c = TGoal) (cells grid))).
Proof.
  unfold findEndpoints. rewrite foldl_rows.
  pose proof (endpoints_start (cells grid) (None, None)) as Hs.
  pose proof (endpoints_goal (cells grid) (None, None)) as Hg.
  destruct (foldl note_endpoint (None, None) (cells grid)) as [s g].
  simpl in Hs, Hg. rewrite Hs, Hg. f_equal; by destruct (last _).
Qed.

Lemma portals_lookup l acc color :
  foldl add_portal acc l !! color
  = match filter (portal_of color) l with
    | [] => acc !! color
    | group => Some (default [] (acc !! color) ++ (cell_pos <$> group))
    end.
Proof.
  revert acc. induction l as [|c l IH]; intros acc; [done|].
  cbn [foldl]. rewrite IH, filter_cons.
  destruct (decide (portal_of color c)) as [[Ht Hc]|Hn].
  - unfold add_portal. rewrite Ht, Hc, lookup_insert_eq. simpl.
    destruct (filter (portal_of color) l) as [|c' group]; simpl.
    + done.
    + by rewrite <- app_assoc.
  - assert (add_portal acc c !! color = acc !! color) as ->; [|done].
    unfold add_portal. destruct (cell_type c) eqn:Ht; try done.
    destruct (portalColor c) as [c0|] eqn:Hc; [|done].
    rewrite lookup_insert_ne; [done|]. intros ->. by apply Hn.
Qed.

(** X2. [findPortals] maps each colour that has a portal cell to the
    coordinates stored in the portal cells of that colour, in row-major
    order; a colour with no portal cell has no entry. A cell whose type is
    not [portal], or that has no colour, is never listed. *)
Theorem findPortals_groups grid color :
  findPortals grid !! color
  = match filter (portal_of color) (cells grid) with
    | [] => None
    | group => Some (cell_pos <$> group)
    end.
Proof.
  unfold findPortals. rewrite foldl_rows, portals_lookup, lookup_empty.
  by destruct (filter _ _).
Qed.

(** * The game *)

(** ** Where the player starts *)

Lemma find_start_last grid :
  find_start grid
  = match last (filter (fun c => cell_type c = TStart) (cells grid)) with
    | Some c => cell_pos c
    | None => (0, 0)%Z
    end.
Proof.
  unfold find_start. rewrite foldl_rows.
  induction (cells grid) as [|c l IH] using rev_ind; [done|].
  rewrite foldl_snoc, filter_app, filter_cons, filter_nil.
  destruct (decide (cell_type c = TStart)).
  - by rewrite last_snoc.
  - by rewrite app_nil_r.
Qed.

Lemma find_start_cell grid c :
  c ∈ cells grid → cell_type c = TStart →
  ∃ cs, cs ∈ cells grid ∧ cell_type cs = TStart
        ∧ find_start grid = cell_pos cs.
Proof.
  intros Hc Ht. rewrite find_start_last.
  destruct (last_is_Some_elem (filter (fun c => cell_type c = TStart)
                                 (cells grid)) c) as [cs Hcs].
  { by apply list_elem_of_filter. }
  rewrite Hcs. apply last_elem_of, list_elem_of_filter in Hcs as [? ?]. eauto.
Qed.

Lemma find_start_endpoints grid s g :
  findEndpoints grid = (Some s, g) → find_start grid = s.
Proof.
  intros He. rewrite find_start_last.
  assert ((findEndpoints grid).1 = Some s) as Hs by (by rewrite He).
  unfold findEndpoints in Hs. rewrite foldl_rows, endpoints_start in Hs.
  destruct (last _); [|done]. by injection Hs.
Qed.

(** ** Walks of hops and plans of actions *)

Lemma hops_app_l grid ps qs : hops grid (ps ++ qs) → hops grid ps.
Proof.
  intros Hh i p q Hp Hq. apply (Hh i); by apply lookup_app_l_Some.
Qed.

Lemma hops_take grid ps n : hops grid ps → hops grid (take n ps).
Proof.
  intros Hh. rewrite <- (take_drop n ps) in Hh. by apply hops_app_l in Hh.
Qed.

Lemma hops_snoc grid ps p q :
  hops grid ps → last ps = Some p → hop grid p q → hops grid (ps ++ [q]).
Proof.
  intros Hh Hl Hpq i a b Ha Hb.
  apply lookup_app_Some in Hb as [Hb|[Hlen Hb]].
  - apply (Hh i); [|done]. apply lookup_app_Some in Ha as [Ha|[Hlen _]]; [done|].
    apply lookup_lt_Some in Hb. lia.
  - apply list_lookup_singleton_Some in Hb as [Hi <-].
    assert (i = pred (length ps)) as -> by lia.
    rewrite lookup_app_l in Ha by lia.
    rewrite last_lookup in Hl. rewrite Hl in Ha. by injection Ha as <-.
Qed.

(** A walk is extended by one hop, or cut back to the first visit of the
    place the hop leads to: the result visits no place twice. *)
Lemma walk_extend grid ps p q :
  NoDup ps → last ps = Some p → hops grid ps → hop grid p q →
  ∃ ps', head ps' = head ps ∧ last ps' = Some q ∧ NoDup ps' ∧ hops grid ps'
         ∧ (∀ r, r ∈ ps' → r ∈ ps ∨ r = q)
         ∧ length ps' ≤ S (length ps).
Proof.
  intros Hnd Hl Hh Hpq. destruct (decide (q ∈ ps)) as [Hin|Hin].
  - apply list_elem_of_lookup in Hin as [i Hi].
    exists (take (S i) ps). split_and!.
    + destruct ps; [by rewrite lookup_nil in Hi|done].
    + pose proof (lookup_lt_Some _ _ _ Hi) as Hlt.
      rewrite last_lookup, length_take, Nat.min_l by lia. simpl.
      rewrite lookup_take_lt by lia. done.
    + rewrite <- (take_drop (S i) ps) in Hnd.
      by apply NoDup_app in Hnd as (? & _ & _).
    + by apply hops_take.
    + intros r Hr. left. rewrite <- (take_drop (S i) ps).
      apply elem_of_app. by left.
    + rewrite length_take. lia.
  - exists (ps ++ [q]). split_and!.
    + destruct ps; [done|done].
    + by rewrite last_snoc.
    + apply NoDup_app. split_and!; [done| |apply NoDup_singleton].
      intros r Hr ->%list_elem_of_singleton. done.
    + by apply (hops_snoc grid ps p q).
    + intros r [Hr| ->%list_elem_of_singleton]%elem_of_app; eauto.
    + rewrite length_app. simpl. lia.
Qed.

Lemma wall_entries_le grid ps qs :
  wall_entries grid ps ≤ wall_entries grid (ps ++ qs).
Proof.
  unfold wall_entries. destruct ps as [|p ps]; simpl; [lia|].
  rewrite filter_app, length_app. lia.
Qed.

(** A walk of hops from [p0] that enters at most [K] walls is a plan of
    the specification's actions, one per hop, that uses one break per wall
    entered. *)
Lemma hops_plan grid K ps p0 :
  wf_grid grid → head ps = Some p0 → hops grid ps →
  (Z.of_nat (wall_entries grid ps) <= K)%Z →
  ∃ q, last ps = Some q
       ∧ plan grid K (p0.1, p0.2, 0%Z) (length ps - 1)
              (q.1, q.2, Z.of_nat (wall_entries grid ps)).
Proof.
  intros Hwf. induction ps as [|q ps IH] using rev_ind; [done|].
  intros Hhead Hh HK. destruct (decide (ps = [])) as [->|Hne].
  { injection Hhead as ->. exists p0. split; [done|]. simpl. constructor. }
  destruct IH as (p & Hlast & Hplan).
  - by destruct ps.
  - by apply hops_app_l in Hh.
  - pose proof (wall_entries_le grid ps [q]). lia.
  - exists q. split; [by rewrite last_snoc|].
    rewrite length_app. simpl.
    replace (length ps + 1 - 1) with (S (length ps - 1))
      by (destruct ps; [done|simpl; lia]).
    apply (plan_more _ _ _ _ _ _ Hplan).
    assert (hop grid p q) as Hpq.
    { rewrite last_lookup in Hlast.
      apply (Hh (pred (length ps))).
      - by apply lookup_app_l_Some.
      - rewrite lookup_app_r by (destruct ps; [done|simpl; lia]).
        replace (S (pred (length ps)) - length ps) with 0
          by (destruct ps; [done|simpl; lia]).
        done. }
    rewrite wall_entries_snoc in * by done.
    destruct p as [x y], q as [x' y']. simpl in *.
    destruct Hpq as [[[n Hn] Hd]|(color & c & c' & Hc & Hc' & Hp & Hp' & Hne')].
    + simpl in *.
      assert (grid_at grid (x + (x' - x)) (y + (y' - y)) = Some n) as Hn'
        by (rewrite <- Hn; f_equal; lia).
      destruct (grid_at_cell grid _ _ n Hwf Hn) as (Hx & Hy & _).
      unfold wall_at in *. simpl in *. rewrite Hn in *.
      destruct (bool_decide (cell_type n = TWall)) eqn:Hw.
      * apply bool_decide_eq_true in Hw.
        replace (Z.of_nat (wall_entries grid ps + 1))
          with (Z.of_nat (wall_entries grid ps) + 1)%Z by lia.
        pose proof (action_break grid K x y (Z.of_nat (wall_entries grid ps))
                      (x' - x) (y' - y) n Hd Hn' Hw) as Hact.
        rewrite Hx, Hy in Hact. apply Hact. lia.
      * apply bool_decide_eq_false in Hw. rewrite Nat.add_0_r.
        pose proof (action_move grid K x y (Z.of_nat (wall_entries grid ps))
                      (x' - x) (y' - y) n Hd Hn' Hw) as Hact.
        by rewrite Hx, Hy in Hact.
    + simpl in *. destruct Hp as [Ht Hcol], Hp' as [Ht' Hcol'].
      destruct (grid_at_cell grid _ _ c' Hwf Hc') as (Hx & Hy & Hin & _).
      unfold wall_at. simpl. rewrite Hc', Ht'. simpl. rewrite Nat.add_0_r.
      rewrite <- Hx, <- Hy.
      apply (action_teleport _ _ x y _ c color c'); try done.
      unfold cell_pos. rewrite Hx, Hy. congruence.
Qed.

(** ** The invariant of the game *)

Lemma opened_cell lg gg broken x y c :
  opened lg gg broken → grid_at gg x y = Some c →
  ∃ c0, grid_at lg x y = Some c0
        ∧ c = (if decide ((x, y) ∈ broken) then with_type TEmpty c0 else c0).
Proof.
  intros Ho Hc. rewrite (Ho x y) in Hc.
  apply fmap_Some in Hc as (c0 & Hc0 & ->). eauto.
Qed.

(** A cell of the game's grid that is not empty is the level's cell. *)
Lemma opened_kept lg gg broken x y c :
  opened lg gg broken → grid_at gg x y = Some c → cell_type c ≠ TEmpty →
  grid_at lg x y = Some c ∧ (x, y) ∉ broken.
Proof.
  intros Ho Hc Ht. destruct (opened_cell lg gg broken x y c Ho Hc) as (c0 & Hc0 & ->).
  destruct (decide ((x, y) ∈ broken)); [done|]. done.
Qed.

(** Landing on a cell that is open in the new grid keeps the invariant. *)
Lemma land_inv level mode st broken ps q grid' broken' breaks :
  game_inv level mode st broken ps →
  status st = Playing →
  hop (level_grid level) (playerPos st) q →
  wf_grid grid' →
  grid_rows grid' = grid_rows (game_grid st) →
  grid_cols grid' = grid_cols (game_grid st) →
  opened (level_grid level) grid' broken' →
  (broken' = [] → grid' = level_grid level) →
  NoDup broken' →
  (∀ p, p ∈ broken' → wall_at (level_grid level) p = true) →
  (∀ p, p ∈ broken → p ∈ broken') →
  (wallsBroken st + breaks)%Z = Z.of_nat (length broken') →
  (broken' = [] ∨ (mode = WallBreak
                   ∧ (Z.of_nat (length broken') <= maxBreaks level)%Z)) →
  (∃ c, grid_at grid' q.1 q.2 = Some c ∧ cell_type c ≠ TWall) →
  ∃ ps', game_inv level mode (move_player (with_grid st grid') q breaks)
                  broken' ps'.
Proof.
  intros Hinv Hst Hhop Hwf Hrows Hcols Hopen Hsame Hnd Hwalls Hsub Hcount
    Hbudget (c & Hc & Ht).
  destruct (walk_extend (level_grid level) ps (playerPos st) q)
    as (ps' & Hhead & Hlast & Hsimple & Hhops & Hfrom & Hlen);
    [apply Hinv..|done|].
  exists ps'. split; simpl; try done.
  - rewrite Hrows. apply Hinv.
  - rewrite Hcols. apply Hinv.
  - exists c. split_and!; [done..|]. by rewrite Hst.
  - rewrite Hst. done.
  - rewrite Hhead. apply Hinv.
  - intros r Hr Hw. destruct (Hfrom r Hr) as [Hin| ->].
    + apply Hsub. by apply (gi_entered _ _ _ _ _ Hinv).
    + destruct (opened_cell _ _ _ _ _ _ Hopen Hc) as (c0 & Hc0 & Heq).
      destruct q as [qx qy]. simpl in *.
      destruct (decide ((qx, qy) ∈ broken')) as [|Hnot]; [done|]. subst c.
      unfold wall_at in Hw. simpl in Hw. rewrite Hc0 in Hw.
      by apply bool_decide_eq_true in Hw.
  - pose proof (gi_length _ _ _ _ _ Hinv). lia.
  - intros r Hr. apply elem_of_union. destruct (Hfrom r Hr) as [Hin| ->].
    + right. by apply (gi_seen _ _ _ _ _ Hinv).
    + left. by apply elem_of_singleton.
Qed.

Lemma key_direction_cardinal key dx dy :
  key_direction key = Some (dx, dy) → cardinal dx dy.
Proof.
  unfold key_direction, cardinal. intros H.
  repeat (destruct (decide _) in H; [injection H as <- <-; lia|]). done.
Qed.

Lemma attemptMove_inv level mode st broken ps dx dy shift :
  game_inv level mode st broken ps → cardinal dx dy →
  ∃ st' broken' ps',
    attemptMove level mode dx dy shift st = Returns st'
    ∧ game_inv level mode st' broken' ps'
    ∧ (movesTaken st <= movesTaken st' <= movesTaken st + 1)%Z.
Proof.
  intros Hinv Hd. unfold attemptMove.
  assert (∃ st' broken' ps',
            Returns st = Returns st' ∧ game_inv level mode st' broken' ps'
            ∧ (movesTaken st <= movesTaken st' <= movesTaken st + 1)%Z)
    as Hstay by (exists st, broken, ps; split_and!; [done..|lia|lia]).
  destruct (decide (status st ≠ Playing)) as [|Hst%dec_stable]; [done|].
  destruct (playerPos st) as [x y] eqn:Hpos. simpl.
  destruct (decide _) as [|Hin]; [done|].
  pose proof (gi_wf _ _ _ _ _ Hinv) as Hwf.
  destruct (grid_cols (game_grid st)) as [cols|] eqn:Hcols.
  2:{ exfalso. unfold grid_rows, grid_cols in *.
      destruct (game_grid st); [simpl in Hin; lia|done]. }
  destruct (decide (cols <= x + dx)%Z) as [|Hx]; [done|].
  destruct (grid_at_in_bounds (game_grid st) (x + dx) (y + dy) Hwf)
    as [c Hc]; [rewrite Hcols; simpl; lia | lia |].
  rewrite Hc.
  destruct (opened_cell _ _ _ _ _ _ (gi_opened _ _ _ _ _ Hinv) Hc)
    as (c0 & Hc0 & Heq).
  assert (hop (level_grid level) (playerPos st) ((x + dx)%Z, (y + dy)%Z))
    as Hhop.
  { left. rewrite Hpos. simpl. split; [eauto|].
    by replace (x + dx - x)%Z with dx by lia;
       replace (y + dy - y)%Z with dy by lia. }
  destruct (decide (cell_type c = TWall)) as [Hwall|Hopen].
  - destruct shift; simpl; [|done].
    destruct (decide (mode = NoBreak)) as [|Hmode]; [done|].
    destruct (decide (maxBreaks level <= wallsBroken st)%Z) as [|Hleft];
      [done|].
    assert (mode = WallBreak) as -> by (by destruct mode).
    destruct (decide (((x + dx)%Z, (y + dy)%Z) ∈ broken)) as [Hb|Hb].
    { subst c. done. }
    subst c0.
    destruct (update_cell_Some (game_grid st) (x + dx) (y + dy)
                (with_type TEmpty) c Hc) as [newGrid Hup].
    unfold set_type. rewrite Hup.
    destruct (update_cell_shape _ _ _ _ newGrid Hwf
                (with_type_coords TEmpty) Hup) as (Hwf' & Hrows' & Hcols').
    pose proof (fun x' y' => grid_at_update _ _ _ _ newGrid x' y' Hup) as Hat.
    pose proof (gi_count _ _ _ _ _ Hinv) as Hcount.
    destruct (land_inv level WallBreak st broken ps
                ((x + dx)%Z, (y + dy)%Z) newGrid
                (broken ++ [((x + dx)%Z, (y + dy)%Z)]) 1 Hinv Hst Hhop)
      as [ps' Hinv']; try done.
    + intros x' y'. rewrite Hat. destruct (decide (x' = _ ∧ y' = _))
        as [[-> ->]|Hne].
      * rewrite Hc, Hc0. simpl. rewrite decide_True; [done|].
        apply elem_of_app. right. by apply list_elem_of_singleton.
      * rewrite (gi_opened _ _ _ _ _ Hinv x' y').
        destruct (grid_at (level_grid level) x' y'); [simpl|done].
        f_equal. destruct (decide ((x', y') ∈ broken)) as [Hin'|Hin'].
        -- rewrite decide_True; [done|]. apply elem_of_app. by left.
        -- rewrite decide_False; [done|].
           intros [?|[= -> ->]%list_elem_of_singleton]%elem_of_app; [done|].
           by apply Hne.
    + by destruct broken.
    + apply NoDup_app. split_and!; [apply Hinv| |apply NoDup_singleton].
      by intros p Hp ->%list_elem_of_singleton.
    + intros p [Hp| ->%list_elem_of_singleton]%elem_of_app.
      * by apply (gi_walls _ _ _ _ _ Hinv).
      * unfold wall_at. simpl. rewrite Hc0. by apply bool_decide_eq_true.
    + intros p Hp. apply elem_of_app. by left.
    + rewrite length_app. simpl. lia.
    + right. split; [done|]. rewrite length_app. simpl. lia.
    + exists (with_type TEmpty c). rewrite Hat, decide_True by done.
      rewrite Hc. done.
    + eexists _, _, ps'. split_and!; [done|apply Hinv'|simpl; lia..].
  - destruct (land_inv level mode st broken ps
                ((x + dx)%Z, (y + dy)%Z) (game_grid st) broken 0 Hinv Hst Hhop)
      as [ps' Hinv']; try apply Hinv; try done.
    + pose proof (gi_count _ _ _ _ _ Hinv). lia.
    + eauto.
    + eexists _, _, ps'. split_and!; [done|apply Hinv'|simpl; lia..].
Qed.

Lemma find_partner_Some grid color x y partner :
  find_partner grid color x y = Some partner →
  partner ∈ cells grid ∧ portal_of color partner
  ∧ (cell_x partner, cell_y partner) ≠ (x, y).
Proof.
  unfold find_partner. intros H%head_Some_elem_of.
  apply list_elem_of_filter in H as [(Ht & Hc & Hne) Hin].
  split_and!; [done..|]. intros [= ? ?]. by destruct Hne.
Qed.

Lemma attemptTeleport_inv level mode st broken ps :
  game_inv level mode st broken ps →
  ∃ st' ps',
    attemptTeleport st = Returns st'
    ∧ game_inv level mode st' broken ps'
    ∧ game_grid st' = game_grid st
    ∧ (movesTaken st <= movesTaken st' <= movesTaken st + 1)%Z.
Proof.
  intros Hinv. unfold attemptTeleport.
  assert (∃ st' ps',
            Returns st = Returns st' ∧ game_inv level mode st' broken ps'
            ∧ game_grid st' = game_grid st
            ∧ (movesTaken st <= movesTaken st' <= movesTaken st + 1)%Z)
    as Hstay by (exists st, ps; split_and!; [done..|lia|lia]).
  destruct (decide (status st ≠ Playing)) as [|Hst%dec_stable]; [done|].
  destruct (gi_player _ _ _ _ _ Hinv) as (c & Hc & _ & _). rewrite Hc.
  destruct (cell_type c) eqn:Ht; try done.
  destruct (portalColor c) as [color|] eqn:Hcol; [|done].
  destruct (find_partner _ _ _ _) as [partner|] eqn:Hp; [|done].
  apply find_partner_Some in Hp as (Hin & [Ht' Hcol'] & Hne).
  pose proof (gi_wf _ _ _ _ _ Hinv) as Hwf.
  pose proof (gi_opened _ _ _ _ _ Hinv) as Hopen.
  pose proof (cell_grid_at _ _ Hwf Hin) as Hat.
  destruct (opened_kept _ _ _ _ _ _ Hopen Hc) as [Hc0 _];
    [by rewrite Ht|].
  destruct (opened_kept _ _ _ _ _ _ Hopen Hat) as [Hat0 _];
    [by rewrite Ht'|].
  destruct (land_inv level mode st broken ps
              (cell_x partner, cell_y partner) (game_grid st) broken 0
              Hinv Hst)
    as [ps' Hinv']; try apply Hinv; try done.
  - right. exists color, c, partner. destruct (playerPos st) as [x y].
    split_and!; done.
  - pose proof (gi_count _ _ _ _ _ Hinv). lia.
  - exists partner. simpl. split; [done|]. by rewrite Ht'.
  - eexists _, ps'. split_and!; [done|apply Hinv'|done|simpl; lia..].
Qed.

Lemma handleKeyDown_inv level mode st broken ps e :
  game_inv level mode st broken ps →
  ∃ st' broken' ps',
    handleKeyDown level mode e st = Returns st'
    ∧ game_inv level mode st' broken' ps'
    ∧ (movesTaken st <= movesTaken st' <= movesTaken st + 1)%Z.
Proof.
  intros Hinv. unfold handleKeyDown.
  assert (∃ st' broken' ps',
            Returns st = Returns st' ∧ game_inv level mode st' broken' ps'
            ∧ (movesTaken st <= movesTaken st' <= movesTaken st + 1)%Z)
    as Hstay by (exists st, broken, ps; split_and!; [done..|lia|lia]).
  destruct (decide (status st ≠ Playing)); [done|].
  destruct (key_direction (event_key e)) as [[dx dy]|] eqn:Hk.
  - apply (attemptMove_inv level mode st broken ps); [done|].
    by apply (key_direction_cardinal (event_key e)).
  - destruct (decide (event_key e = "Enter")); [|done].
    destruct (attemptTeleport_inv level mode st broken ps Hinv)
      as (st' & ps' & ? & ? & _ & ?). by exists st', broken, ps'.
Qed.

Lemma check_goal_inv level mode st broken ps :
  game_inv level mode st broken ps →
  ∃ st', check_goal st = Returns st'
         ∧ game_inv level mode st' broken ps ∧ settled st'
         ∧ movesTaken st' = movesTaken st.
Proof.
  intros Hinv. unfold check_goal.
  destruct (gi_player _ _ _ _ _ Hinv) as (c & Hc & Hw & Hwon). rewrite Hc.
  destruct (decide (cell_type c = TGoal ∧ status st = Playing))
    as [[Hg Hst]|Hno].
  - exists (handleWin st). split_and!; [done| |..|done].
    + destruct Hinv. split; simpl; try done. exists c. done.
    + intros c' _ _. done.
  - exists st. split_and!; [done..| |done].
    intros c' Hc' Hg. rewrite Hc in Hc'. injection Hc' as <-.
    pose proof (gi_status _ _ _ _ _ Hinv).
    destruct (status st); try done. exfalso. by apply Hno.
Qed.

Lemma press_inv level mode st broken ps e :
  game_inv level mode st broken ps →
  ∃ st' broken' ps',
    press level mode (Returns st) e = Returns st'
    ∧ game_inv level mode st' broken' ps' ∧ settled st'
    ∧ (movesTaken st <= movesTaken st' <= movesTaken st + 1)%Z.
Proof.
  intros Hinv. unfold press.
  destruct (handleKeyDown_inv level mode st broken ps e Hinv)
    as (st1 & broken' & ps' & -> & Hinv1 & Hm).
  destruct (check_goal_inv level mode st1 broken' ps' Hinv1)
    as (st' & -> & Hinv' & Hs & Hm').
  exists st', broken', ps'. split_and!; [done..|lia|lia].
Qed.

Lemma initial_game_inv level mode c :
  wf_grid (level_grid level) →
  c ∈ cells (level_grid level) → cell_type c = TStart →
  game_inv level mode (initial_game level) []
           [find_start (level_grid level)].
Proof.
  intros Hwf Hc Ht.
  destruct (find_start_cell _ c Hc Ht) as (cs & Hcs & Hts & Hpos).
  pose proof (cell_grid_at _ _ Hwf Hcs) as Hat.
  split; simpl; try done.
  - intros x y. by destruct (grid_at (level_grid level) x y).
  - constructor.
  - intros p Hp. by apply elem_of_nil in Hp.
  - by left.
  - exists cs. rewrite Hpos. split_and!; [done|by rewrite Hts|done].
  - apply NoDup_singleton.
  - intros p ->%list_elem_of_singleton. rewrite Hpos. unfold wall_at.
    simpl. rewrite Hat, Hts. done.
  - intros p ->%list_elem_of_singleton. by apply elem_of_singleton.
Qed.

(** Whatever keys are pressed, the game runs without a [TypeError] and the
    invariant holds after each of them. *)
Lemma play_inv level mode c events :
  wf_grid (level_grid level) →
  c ∈ cells (level_grid level) → cell_type c = TStart →
  ∃ st broken ps,
    play level mode events = Returns st
    ∧ game_inv level mode st broken ps ∧ settled st
    ∧ (0 <= movesTaken st <= Z.of_nat (length events))%Z.
Proof.
  intros Hwf Hc Ht. unfold play.
  induction events as [|e events IH] using rev_ind.
  - simpl. unfold start_game.
    destruct (check_goal_inv level mode _ _ _
                (initial_game_inv level mode c Hwf Hc Ht))
      as (st & -> & Hinv & Hs & Hm).
    exists st, [], [find_start (level_grid level)].
    split_and!; [done..|simpl in *; lia|simpl in *; lia].
  - destruct IH as (st & broken & ps & Hplay & Hinv & _ & Hm).
    rewrite foldl_snoc, Hplay.
    destruct (press_inv level mode st broken ps e Hinv)
      as (st' & broken' & ps' & -> & Hinv' & Hs' & Hm').
    exists st', broken', ps'. rewrite length_app. simpl.
    split_and!; [done..|lia|lia].
Qed.

(** ** What a player can and cannot do *)

(** X4. On a well-formed level grid with a start cell, whatever keys are
    pressed, the game never throws: after every key the player stands on a
    cell of the grid that is not a wall, the status is [won] exactly when
    that cell is the goal (and never [gameover]), the move counter is at
    most the number of keys pressed, and the place of the player is among
    the visited cells. *)
Theorem play_safe level mode c events :
  wf_grid (level_grid level) →
  c ∈ cells (level_grid level) → cell_type c = TStart →
  ∃ st cell,
    play level mode events = Returns st
    ∧ grid_at (game_grid st) (playerPos st).1 (playerPos st).2 = Some cell
    ∧ cell_type cell ≠ TWall
    ∧ (status st = Won ↔ cell_type cell = TGoal)
    ∧ status st ≠ GameOver
    ∧ (0 <= movesTaken st <= Z.of_nat (length events))%Z
    ∧ playerPos st ∈ uniqueCellsVisited st.
Proof.
  intros Hwf Hc Ht.
  destruct (play_inv level mode c events Hwf Hc Ht)
    as (st & broken & ps & Hplay & Hinv & Hs & Hm).
  destruct (gi_player _ _ _ _ _ Hinv) as (cell & Hcell & Hw & Hwon).
  exists st, cell. split_and!; try done; try lia.
  - split; [done|]. by apply Hs.
  - apply Hinv.
  - apply (gi_seen _ _ _ _ _ Hinv). apply last_elem_of, Hinv.
Qed.

Lemma play_safe_witness :
  ∃ st cell,
    play (scenario_level walled_grid 1) WallBreak
         [shift_arrow "ArrowRight"; plain_key "d"] = Returns st
    ∧ grid_at (game_grid st) (playerPos st).1 (playerPos st).2 = Some cell
    ∧ cell_type cell ≠ TWall
    ∧ (status st = Won ↔ cell_type cell = TGoal)
    ∧ status st ≠ GameOver
    ∧ (0 <= movesTaken st <= Z.of_nat 2)%Z
    ∧ playerPos st ∈ uniqueCellsVisited st.
Proof.
  apply (play_safe (scenario_level walled_grid 1) WallBreak
           (cell_of 0 0 (TStart, None))).
  - exact walled_grid_wf.
  - vm_compute. apply list_elem_of_here.
  - reflexivity.
Defined.

(** X5. The wall breaks of a game stay within the budget. On a well-formed
    level grid with a start cell, after any sequence of key presses: the
    game's grid is the level's grid with [wallsBroken] distinct walls of it
    turned into empty cells and nothing else changed; [wallsBroken] is at
    least 0 and at most the larger of 0 and the budget of the mode (0 in
    no-break mode, [level.maxBreaks] in wall-break mode); and when
    [wallsBroken] is 0 the game's grid is the level's grid. So no wall is
    ever broken in no-break mode or with a negative [maxBreaks], and
    [wallsBroken] never exceeds a [maxBreaks] that is not negative. *)
Theorem play_breaks level mode c events st :
  wf_grid (level_grid level) →
  c ∈ cells (level_grid level) → cell_type c = TStart →
  play level mode events = Returns st →
  (∃ broken,
     NoDup broken
     ∧ wallsBroken st = Z.of_nat (length broken)
     ∧ (∀ p, p ∈ broken → wall_at (level_grid level) p = true)
     ∧ opened (level_grid level) (game_grid st) broken)
  ∧ (0 <= wallsBroken st <= Z.max 0 (mode_budget level mode))%Z
  ∧ (wallsBroken st = 0%Z → game_grid st = level_grid level).
Proof.
  intros Hwf Hc Ht Hplay.
  destruct (play_inv level mode c events Hwf Hc Ht)
    as (st' & broken & ps & Hplay' & Hinv & _ & _).
  rewrite Hplay in Hplay'. injection Hplay' as <-.
  pose proof (gi_count _ _ _ _ _ Hinv) as Hcount.
  split_and!.
  - exists broken. split_and!; [apply Hinv|done|apply Hinv|apply Hinv].
  - lia.
  - destruct (gi_budget _ _ _ _ _ Hinv) as [->|[-> Hle]]; simpl in *; lia.
  - intros H0. apply (gi_same _ _ _ _ _ Hinv). destruct broken; [done|].
    simpl in *. lia.
Qed.

Lemma play_breaks_witness :
  ∃ st,
    play (scenario_level walled_grid 1) WallBreak
         [shift_arrow "ArrowRight"; shift_arrow "ArrowRight"] = Returns st
    ∧ (∃ broken,
         NoDup broken
         ∧ wallsBroken st = Z.of_nat (length broken)
         ∧ (∀ p, p ∈ broken → wall_at walled_grid p = true)
         ∧ opened walled_grid (game_grid st) broken)
    ∧ (0 <= wallsBroken st <= Z.max 0 1)%Z
    ∧ (wallsBroken st = 0%Z → game_grid st = walled_grid).
Proof.
  assert (∃ st, play (scenario_level walled_grid 1) WallBreak
                  [shift_arrow "ArrowRight"; shift_arrow "ArrowRight"]
                = Returns st) as [st Hplay] by (vm_compute; eauto).
  exists st. split; [done|].
  apply (play_breaks (scenario_level walled_grid 1) WallBreak
           (cell_of 0 0 (TStart, None))
           [shift_arrow "ArrowRight"; shift_arrow "ArrowRight"] st
           walled_grid_wf).
  - vm_compute. apply list_elem_of_here.
  - reflexivity.
  - exact Hplay.
Defined.

Lemma wall_entries_broken grid (ps broken : list Pos) :
  NoDup ps → (∀ p, p ∈ ps → wall_at grid p = true → p ∈ broken) →
  wall_entries grid ps ≤ length broken.
Proof.
  intros Hnd Hin. unfold wall_entries. apply submseteq_length.
  apply NoDup_submseteq.
  - apply NoDup_filter. destruct ps; [done|]. by apply NoDup_cons in Hnd as [_ ?].
  - intros p [Hw Hp]%list_elem_of_filter. apply Hin; [|done].
    destruct ps; [done|]. apply elem_of_cons. by right.
Qed.

(** A game that is won took at least as many moves as the solver's count
    for the mode. *)
Lemma won_bound level mode events st :
  wf_grid (level_grid level) →
  count_type TStart (level_grid level) = 1 →
  count_type TGoal (level_grid level) = 1 →
  (0 <= mode_budget level mode)%Z →
  play level mode events = Returns st → status st = Won →
  ∃ sol,
    solveMaze (level_grid level) (mode_budget level mode) = Returns (Some sol)
    ∧ (steps sol <= movesTaken st)%Z.
Proof.
  intros Hwf Hn1 Hn2 HK' Hplay Hwon.
  destruct (count_type_one _ _ Hn1) as (c & Hc & Ht).
  destruct (play_inv level mode c events Hwf Hc Ht)
    as (st' & broken & ps & Hplay' & Hinv & _ & _).
  rewrite Hplay in Hplay'. injection Hplay' as <-.
  destruct (gi_player _ _ _ _ _ Hinv) as (cg & Hcg & _ & Hgoal).
  specialize (Hgoal Hwon).
  destruct (opened_kept _ _ _ _ _ _ (gi_opened _ _ _ _ _ Hinv) Hcg)
    as [Hcg0 _]; [by rewrite Hgoal|].
  destruct (grid_at_cell _ _ _ _ Hwf Hcg0) as (Hgx & Hgy & Hgin & _).
  destruct (find_start_cell _ c Hc Ht) as (cs & Hcs & Hts & Hpos).
  pose proof (wall_entries_broken (level_grid level) ps broken
                (gi_simple _ _ _ _ _ Hinv) (gi_entered _ _ _ _ _ Hinv))
    as Hentries.
  assert (Z.of_nat (wall_entries (level_grid level) ps)
          <= mode_budget level mode)%Z as Hle.
  { destruct (gi_budget _ _ _ _ _ Hinv) as [->|[-> Hb]]; simpl in *; lia. }
  destruct (hops_plan (level_grid level) (mode_budget level mode) ps
              (find_start (level_grid level)) Hwf
              (gi_head _ _ _ _ _ Hinv) (gi_hops _ _ _ _ _ Hinv) Hle)
    as (q & Hlast & Hplan).
  rewrite (gi_last _ _ _ _ _ Hinv) in Hlast. injection Hlast as <-.
  assert (solvable_in (level_grid level) (mode_budget level mode)
            (length ps - 1)) as Hsolv.
  { exists cs, cg, (Z.of_nat (wall_entries (level_grid level) ps)).
    split_and!; try done. rewrite Hgx, Hgy.
    rewrite Hpos in Hplan. exact Hplan. }
  destruct (solveMaze_verdict (level_grid level) (mode_budget level mode)
              Hwf Hn1 Hn2 HK') as (result & Hres & Hverdict).
  destruct result as [sol|]; [|by apply Hverdict in Hsolv].
  exists sol. split; [done|].
  destruct Hverdict as (_ & _ & Hmin). specialize (Hmin _ Hsolv).
  pose proof (gi_length _ _ _ _ _ Hinv).
  pose proof (gi_head _ _ _ _ _ Hinv) as Hhead.
  destruct ps; [done|]. simpl in *. lia.
Qed.

(** X6. No play beats the solver. On a well-formed level with one start,
    one goal and, in wall-break mode, a [maxBreaks] that is not negative,
    if some sequence of key presses wins the game, then [solveMaze] finds a
    solution for the budget of the mode (0 in no-break mode, [maxBreaks] in
    wall-break mode), and the moves the game counts are at least the steps
    of that solution. *)
Theorem play_never_beats_solver level mode events st :
  wf_grid (level_grid level) →
  count_type TStart (level_grid level) = 1 →
  count_type TGoal (level_grid level) = 1 →
  (0 <= mode_budget level mode)%Z →
  play level mode events = Returns st → status st = Won →
  ∃ sol,
    solveMaze (level_grid level) (mode_budget level mode) = Returns (Some sol)
    ∧ (steps sol <= movesTaken st)%Z.
Proof. apply won_bound. Qed.

Lemma play_never_beats_solver_witness :
  ∃ st sol,
    play (scenario_level walled_grid 1) WallBreak
         [shift_arrow "ArrowRight"; plain_key "ArrowLeft";
          plain_key "ArrowRight"; plain_key "ArrowRight"] = Returns st
    ∧ status st = Won
    ∧ solveMaze walled_grid 1 = Returns (Some sol)
    ∧ (steps sol <= movesTaken st)%Z.
Proof.
  assert (∃ st, play (scenario_level walled_grid 1) WallBreak
                  [shift_arrow "ArrowRight"; plain_key "ArrowLeft";
                   plain_key "ArrowRight"; plain_key "ArrowRight"]
                = Returns st ∧ status st = Won) as (st & Hplay & Hwon)
    by (vm_compute; eauto).
  destruct (play_never_beats_solver (scenario_level walled_grid 1) WallBreak
              [shift_arrow "ArrowRight"; plain_key "ArrowLeft";
               plain_key "ArrowRight"; plain_key "ArrowRight"]
              st walled_grid_wf) as (sol & Hsol & Hle);
    [reflexivity | reflexivity | simpl; lia | exact Hplay | exact Hwon |].
  exists st, sol. split_and!; done.
Defined.

(** ** Replaying a plan of the solver in the game *)

Lemma start_game_initial level c :
  wf_grid (level_grid level) →
  c ∈ cells (level_grid level) → cell_type c = TStart →
  start_game level = Returns (initial_game level).
Proof.
  intros Hwf Hc Ht.
  destruct (find_start_cell _ c Hc Ht) as (cs & Hcs & Hts & Hpos).
  pose proof (cell_grid_at _ _ Hwf Hcs) as Hat.
  unfold start_game, check_goal. simpl. rewrite Hpos. simpl. rewrite Hat.
  rewrite decide_False; [done|]. rewrite Hts. by intros [? _].
Qed.

Lemma check_goal_fields st st' :
  check_goal st = Returns st' →
  game_grid st' = game_grid st ∧ playerPos st' = playerPos st
  ∧ movesTaken st' = movesTaken st ∧ wallsBroken st' = wallsBroken st.
Proof.
  unfold check_goal. destruct (grid_at _ _ _); [|done].
  destruct (decide _); intros [= <-]; done.
Qed.

(** A key press whose handler returns [st1]: the state after the effects
    differs from [st1] in the status at most. *)
Lemma press_exact level mode st broken ps e st1 :
  game_inv level mode st broken ps →
  handleKeyDown level mode e st = Returns st1 →
  ∃ st' broken' ps',
    press level mode (Returns st) e = Returns st'
    ∧ game_inv level mode st' broken' ps' ∧ settled st'
    ∧ game_grid st' = game_grid st1 ∧ playerPos st' = playerPos st1
    ∧ movesTaken st' = movesTaken st1 ∧ wallsBroken st' = wallsBroken st1.
Proof.
  intros Hinv Hkey.
  destruct (press_inv level mode st broken ps e Hinv)
    as (st' & broken' & ps' & Hpress & Hinv' & Hs & _).
  exists st', broken', ps'. split_and!; try done;
    unfold press in Hpress; rewrite Hkey in Hpress;
    by apply check_goal_fields in Hpress as (? & ? & ? & ?).
Qed.

Lemma cardinal_key dx dy :
  cardinal dx dy →
  ∃ key, key_direction key = Some (dx, dy) ∧ key ≠ "Enter".
Proof.
  intros [[-> [->| ->]]|[-> [->| ->]]].
  - by exists "ArrowDown".
  - by exists "ArrowUp".
  - by exists "ArrowRight".
  - by exists "ArrowLeft".
Qed.

(** Levels' cells that are not walls are the game's cells. *)
Lemma opened_open level mode st broken ps x y c0 :
  game_inv level mode st broken ps →
  grid_at (level_grid level) x y = Some c0 → cell_type c0 ≠ TWall →
  grid_at (game_grid st) x y = Some c0.
Proof.
  intros Hinv Hc0 Ht. rewrite (gi_opened _ _ _ _ _ Hinv x y), Hc0. simpl.
  rewrite decide_False; [done|]. intros Hb.
  apply (gi_walls _ _ _ _ _ Hinv) in Hb. unfold wall_at in Hb. simpl in Hb.
  rewrite Hc0 in Hb. by apply bool_decide_eq_true in Hb.
Qed.

Lemma attemptMove_enter level mode st broken ps dx dy c0 :
  game_inv level mode st broken ps → status st = Playing →
  grid_at (level_grid level) ((playerPos st).1 + dx) ((playerPos st).2 + dy)
  = Some c0 →
  (cell_type c0 = TWall →
   ((playerPos st).1 + dx, (playerPos st).2 + dy)%Z ∈ broken
   ∨ (mode = WallBreak ∧ (wallsBroken st < maxBreaks level)%Z)) →
  ∃ st1,
    attemptMove level mode dx dy true st = Returns st1
    ∧ playerPos st1 = ((playerPos st).1 + dx, (playerPos st).2 + dy)%Z
    ∧ movesTaken st1 = (movesTaken st + 1)%Z
    ∧ (wallsBroken st <= wallsBroken st1 <= wallsBroken st + 1)%Z
    ∧ (cell_type c0 ≠ TWall → wallsBroken st1 = wallsBroken st).
Proof.
  intros Hinv Hst Hc0 Hcan. unfold attemptMove.
  rewrite decide_False by (by rewrite Hst; intros ?).
  pose proof (gi_wf _ _ _ _ _ Hinv) as Hwf.
  set (nx := ((playerPos st).1 + dx)%Z) in *.
  set (ny := ((playerPos st).2 + dy)%Z) in *.
  assert (∃ c, grid_at (game_grid st) nx ny = Some c
               ∧ c = (if decide ((nx, ny) ∈ broken)
                      then with_type TEmpty c0 else c0)) as (c & Hc & Heq).
  { rewrite (gi_opened _ _ _ _ _ Hinv nx ny), Hc0. simpl. eauto. }
  destruct (grid_at_cell _ _ _ _ Hwf Hc) as (_ & _ & _ & Hx & Hy).
  simpl. rewrite decide_False by lia.
  destruct (grid_cols (game_grid st)) as [cols|]; [|simpl in Hx; lia].
  simpl in Hx. rewrite decide_False by lia. rewrite Hc.
  destruct (decide (cell_type c = TWall)) as [Hwall|Hopen].
  - destruct (decide ((nx, ny) ∈ broken)) as [Hb|Hb]; [by subst c|].
    subst c. destruct (Hcan Hwall) as [?|[-> Hleft]]; [done|].
    cbn [negb]. destruct (decide (WallBreak = NoBreak)); [done|].
    rewrite decide_False by lia.
    destruct (update_cell_Some (game_grid st) nx ny (with_type TEmpty) c0 Hc)
      as [newGrid Hup].
    unfold set_type. rewrite Hup. eexists. split; [done|]. simpl.
    split_and!; try done; lia.
  - eexists. split; [done|]. simpl. split_and!; try done; lia.
Qed.

Lemma pair_third {A} (l : list A) (a b d : A) :
  NoDup l → length l ≤ 2 → a ∈ l → b ∈ l → a ≠ b → d ∈ l → d = a ∨ d = b.
Proof.
  intros Hnd Hlen Ha Hb Hne Hd.
  destruct l as [|u [|v [|? ?]]]; simpl in Hlen; try lia.
  - by apply elem_of_nil in Ha.
  - apply list_elem_of_singleton in Ha, Hb. congruence.
  - rewrite !elem_of_cons, elem_of_nil in Ha, Hb, Hd.
    destruct Ha as [->|[->|[]]], Hb as [->|[->|[]]], Hd as [->|[->|[]]];
      try done; eauto.
Qed.

(** The portal cells of a colour are the same in the game's grid as in the
    level's. *)
Lemma portals_kept level mode st broken ps color d :
  wf_grid (level_grid level) → game_inv level mode st broken ps →
  (d ∈ cells (game_grid st) ∧ portal_of color d)
  ↔ (d ∈ cells (level_grid level) ∧ portal_of color d).
Proof.
  intros Hwf Hinv. pose proof (gi_wf _ _ _ _ _ Hinv) as Hwf'.
  split; intros [Hd [Ht Hcol]]; (split; [|done]).
  - pose proof (cell_grid_at _ _ Hwf' Hd) as Hat.
    destruct (opened_kept _ _ _ _ _ _ (gi_opened _ _ _ _ _ Hinv) Hat)
      as [Hat0 _]; [by rewrite Ht|].
    by destruct (grid_at_cell _ _ _ _ Hwf Hat0) as (_ & _ & ? & _).
  - pose proof (cell_grid_at _ _ Hwf Hd) as Hat.
    assert (grid_at (game_grid st) (cell_x d) (cell_y d) = Some d) as Hat'
      by (apply (opened_open level mode st broken ps); [done..|by rewrite Ht]).
    by destruct (grid_at_cell _ _ _ _ Hwf' Hat') as (_ & _ & ? & _).
Qed.

Lemma find_partner_pair level mode st broken ps color x y c c' :
  wf_grid (level_grid level) → game_inv level mode st broken ps →
  length (filter (portal_of color) (cells (level_grid level))) ≤ 2 →
  c ∈ cells (level_grid level) → portal_of color c → cell_pos c = (x, y) →
  c' ∈ cells (level_grid level) → portal_of color c' → cell_pos c' ≠ (x, y) →
  find_partner (game_grid st) color x y = Some c'.
Proof.
  intros Hwf Hinv Hlen Hc Hpc Hpos Hc' Hpc' Hpos'.
  pose proof (cells_NoDup _ Hwf) as Hnd.
  assert (c ≠ c') as Hne by (intros ->; congruence).
  assert (∀ d, d ∈ cells (game_grid st) →
               cell_type d = TPortal ∧ portalColor d = Some color
               ∧ (cell_x d ≠ x ∨ cell_y d ≠ y) → d = c') as Honly.
  { intros d Hd (Ht & Hcol & Hxy).
    destruct (proj1 (portals_kept level mode st broken ps color d Hwf Hinv))
      as [Hd0 Hpd]; [done|].
    destruct (pair_third (filter (portal_of color) (cells (level_grid level)))
                c c' d) as [->| ->]; try done;
      try (by apply list_elem_of_filter).
    - by apply NoDup_filter.
    - exfalso. injection Hpos as ? ?. destruct Hxy; done. }
  unfold find_partner.
  destruct (filter _ (cells (game_grid st))) as [|d l] eqn:Hf.
  - exfalso.
    destruct (proj2 (portals_kept level mode st broken ps color c' Hwf Hinv))
      as [Hin _]; [done|].
    assert (c' ∈ filter (fun cell => cell_type cell = TPortal
                                     ∧ portalColor cell = Some color
                                     ∧ (cell_x cell ≠ x ∨ cell_y cell ≠ y))
                        (cells (game_grid st))) as Hmem.
    { apply list_elem_of_filter. split; [|done]. destruct Hpc' as [? ?].
      split_and!; [done..|].
      destruct (decide (cell_x c' = x)) as [Hx|]; [|by left].
      right. intros Hy. apply Hpos'. unfold cell_pos. by rewrite Hx, Hy. }
    rewrite Hf in Hmem. by apply elem_of_nil in Hmem.
  - simpl. f_equal.
    assert (d ∈ d :: l) as Hd by apply list_elem_of_here.
    rewrite <- Hf in Hd. apply list_elem_of_filter in Hd as [HP Hd].
    by apply Honly.
Qed.

Lemma attemptTeleport_pair level mode st broken ps color c c' :
  wf_grid (level_grid level) → game_inv level mode st broken ps →
  status st = Playing →
  length (filter (portal_of color) (cells (level_grid level))) ≤ 2 →
  grid_at (level_grid level) (playerPos st).1 (playerPos st).2 = Some c →
  portal_of color c →
  c' ∈ cells (level_grid level) → portal_of color c' →
  cell_pos c' ≠ playerPos st →
  attemptTeleport st = Returns (move_player st (cell_x c', cell_y c') 0).
Proof.
  intros Hwf Hinv Hst Hlen Hc Hpc Hc' Hpc' Hne. unfold attemptTeleport.
  rewrite decide_False by (by rewrite Hst; intros ?).
  destruct Hpc as [Ht Hcol].
  rewrite (opened_open level mode st broken ps _ _ c Hinv Hc)
    by (by rewrite Ht).
  rewrite Ht, Hcol.
  destruct (grid_at_cell _ _ _ _ Hwf Hc) as (Hx & Hy & Hin & _).
  rewrite (find_partner_pair level mode st broken ps color _ _ c c');
    try done.
  - unfold cell_pos. by rewrite Hx, Hy.
  - by destruct (playerPos st).
Qed.

Section replay.
Context (level : Level) (mode : GameMode) (cs : Cell).
Context (Hwf : wf_grid (level_grid level)).
Context (Hcs : cs ∈ cells (level_grid level)) (Hts : cell_type cs = TStart).
Context (Hstart : find_start (level_grid level) = cell_pos cs).
Context (Hpairs : ∀ color,
           length (filter (portal_of color) (cells (level_grid level))) ≤ 2).

(** When every portal colour has at most two cells, a plan of the solver's
    actions can be keyed into the game one action at a time, until the plan
    ends or the game is won. *)
Lemma replay n k :
  plan (level_grid level) (mode_budget level mode)
       (cell_x cs, cell_y cs, 0%Z) n k →
  ∃ events st broken ps,
    play level mode events = Returns st
    ∧ game_inv level mode st broken ps ∧ settled st
    ∧ ((status st = Playing ∧ playerPos st = key_pos k
        ∧ movesTaken st = Z.of_nat n ∧ (wallsBroken st <= k.2)%Z)
       ∨ (status st = Won ∧ (movesTaken st <= Z.of_nat n)%Z)).
Proof.
  induction 1 as [|n k1 k2 _ IH Hact].
  - destruct (play_inv level mode cs [] Hwf Hcs Hts)
      as (st & broken & ps & Hplay & Hinv & Hs & _).
    exists [], st, broken, ps. split_and!; [done..|]. left.
    unfold play in Hplay. simpl in Hplay.
    rewrite (start_game_initial level cs Hwf Hcs Hts) in Hplay.
    injection Hplay as <-. simpl. by rewrite Hstart.
  - destruct IH as (events & st & broken & ps & Hplay & Hinv & Hs & Hcase).
    destruct Hcase as [(Hst & Hpos & Hm & Hb)|[Hwon Hm]].
    2:{ exists events, st, broken, ps. split_and!; [done..|]. right.
        split; [done|lia]. }
    pose proof (gi_count _ _ _ _ _ Hinv) as Hcount.
    assert (∃ e st1,
              handleKeyDown level mode e st = Returns st1
              ∧ playerPos st1 = key_pos k2
              ∧ movesTaken st1 = (movesTaken st + 1)%Z
              ∧ (wallsBroken st1 <= k2.2)%Z) as (e & st1 & Hkey & Hpos1 & Hm1 & Hb1).
    { assert (∀ e, handleKeyDown level mode e st
                   = match key_direction (event_key e) with
                     | Some (dx, dy) =>
                         attemptMove level mode dx dy (shiftKey e) st
                     | None =>
                         if decide (event_key e = "Enter")
                         then attemptTeleport st else Returns st
                     end) as Hhandle.
      { intros e. unfold handleKeyDown.
        by rewrite decide_False by (by rewrite Hst; intros ?). }
      inversion Hact as [x y b c color c' Hc Ht Hcol Hc' Ht' Hcol' Hne
                        |x y b dx dy n0 Hd Hn0 Ht
                        |x y b dx dy n0 Hd Hn0 Ht Hle]; subst k1 k2;
        simpl in Hpos, Hb.
      - exists (plain_key "Enter"). eexists. split.
        + rewrite Hhandle. simpl.
          apply (attemptTeleport_pair level mode st broken ps color c c');
            try done.
          * by rewrite Hpos.
          * by rewrite Hpos.
        + simpl. split_and!; [done..|lia].
      - destruct (cardinal_key dx dy Hd) as (key & Hdir & _).
        destruct (grid_at_cell _ _ _ _ Hwf Hn0) as (Hx & Hy & _).
        destruct (attemptMove_enter level mode st broken ps dx dy n0 Hinv Hst)
          as (st1 & Hmove & Hpos1 & Hm1 & Hb1 & Hsame);
          [by rewrite Hpos|done|].
        exists (shift_arrow key), st1. rewrite Hhandle. simpl. rewrite Hdir.
        split; [done|]. rewrite Hpos1, Hpos, Hx, Hy. simpl.
        split_and!; [done..|]. rewrite Hsame by done. lia.
      - destruct (cardinal_key dx dy Hd) as (key & Hdir & _).
        destruct (grid_at_cell _ _ _ _ Hwf Hn0) as (Hx & Hy & _).
        destruct (attemptMove_enter level mode st broken ps dx dy n0 Hinv Hst)
          as (st1 & Hmove & Hpos1 & Hm1 & Hb1 & Hsame);
          [by rewrite Hpos| |].
        { intros _. right. destruct mode; simpl in *; [lia|].
          split; [done|lia]. }
        exists (shift_arrow key), st1. rewrite Hhandle. simpl. rewrite Hdir.
        split; [done|]. rewrite Hpos1, Hpos, Hx, Hy. simpl.
        split_and!; [done..|]. lia. }
    destruct (press_exact level mode st broken ps e st1 Hinv Hkey)
      as (st' & broken' & ps' & Hpress & Hinv' & Hs' & _ & Hpos' & Hm' & Hb').
    exists (events ++ [e]), st', broken', ps'.
    split_and!; [|done..|].
    + unfold play in *. by rewrite foldl_snoc, Hplay.
    + pose proof (gi_status _ _ _ _ _ Hinv') as Hover.
      destruct (status st') eqn:Hst'; [left|right|done].
      * split_and!; [done|congruence|lia|lia].
      * split; [done|lia].
Qed.

End replay.

(** With at most two cells of each portal colour, the steps of the solver's
    solution can be played. *)
Lemma count_attained level mode sol :
  wf_grid (level_grid level) →
  count_type TStart (level_grid level) = 1 →
  count_type TGoal (level_grid level) = 1 →
  (∀ color,
     length (filter (portal_of color) (cells (level_grid level))) ≤ 2) →
  solveMaze (level_grid level) (mode_budget level mode) = Returns (Some sol) →
  ∃ events st,
    play level mode events = Returns st
    ∧ status st = Won ∧ movesTaken st = steps sol.
Proof.
  intros Hwf Hn1 Hn2 Hpairs Hsol.
  assert (0 <= mode_budget level mode)%Z as HK.
  { destruct (solveMaze_Some_walk _ _ _ Hwf Hsol)
      as (? & ? & ? & ? & ? & _ & _ & _ & _ & _ & _ & _ & _ & _ & ? & _).
    done. }
  destruct (solveMaze_verdict _ _ Hwf Hn1 Hn2 HK)
    as (result & Hres & Hverdict).
  rewrite Hsol in Hres. injection Hres as <-.
  destruct Hverdict as (Hpos & (s & g & b & Hs & Hts & Hg & Htg & Hb & Hplan)
                        & _).
  destruct (find_start_cell _ s Hs Hts) as (cs & Hcs & Hts' & Hstart).
  assert (cs = s) as -> by (by apply (count_type_unique TStart (level_grid level))).
  destruct (replay level mode s Hwf Hs Hts Hstart Hpairs _ _ Hplan)
    as (events & st & broken & ps & Hplay & Hinv & Hsettled & Hcase).
  assert (status st = Won ∧ (movesTaken st <= steps sol)%Z) as [Hwon Hm].
  { destruct Hcase as [(Hst & Hpos' & _ & _)|[Hwon Hm]]; [|split; [done|lia]].
    exfalso. simpl in Hpos'.
    pose proof (cell_grid_at _ _ Hwf Hg) as Hat.
    assert (grid_at (game_grid st) (playerPos st).1 (playerPos st).2 = Some g)
      as Hat'.
    { rewrite Hpos'. simpl.
      apply (opened_open level mode st broken ps); [done..|by rewrite Htg]. }
    rewrite (Hsettled g Hat' Htg) in Hst. done. }
  exists events, st. split_and!; [done..|].
  destruct (won_bound level mode events st Hwf Hn1 Hn2 HK Hplay Hwon)
    as (sol' & Hsol' & Hle).
  rewrite Hsol in Hsol'. injection Hsol' as <-. lia.
Qed.

(** X7. The solver's count can be played when portals come in pairs. On a
    well-formed level grid with exactly one start cell, exactly one goal
    cell and at most two cells of each portal colour, if [solveMaze] finds
    a solution for the budget of a mode (0 in no-break mode,
    [level.maxBreaks] in wall-break mode), then some sequence of key
    presses wins the game in that mode with exactly as many moves as the
    solution has steps. *)
Theorem solver_count_attained level mode sol :
  wf_grid (level_grid level) →
  count_type TStart (level_grid level) = 1 →
  count_type TGoal (level_grid level) = 1 →
  (∀ color,
     length (filter (portal_of color) (cells (level_grid level))) ≤ 2) →
  solveMaze (level_grid level) (mode_budget level mode) = Returns (Some sol) →
  ∃ events st,
    play level mode events = Returns st
    ∧ status st = Won ∧ movesTaken st = steps sol.
Proof. apply count_attained. Qed.

Lemma solver_count_attained_witness :
  ∃ events st,
    play (scenario_level portal_grid 0) NoBreak events = Returns st
    ∧ status st = Won ∧ movesTaken st = 3%Z.
Proof.
  apply (solver_count_attained (scenario_level portal_grid 0) NoBreak
           {| steps := 3;
              path := [(0, 0); (1, 0); (3, 1); (3, 0)]%Z |} portal_grid_wf).
  - reflexivity.
  - reflexivity.
  - intros []; vm_compute; lia.
  - vm_compute. reflexivity.
Defined.

(** * The demo level *)

Lemma wf_grid_unmap f grid :
  (∀ c, cell_x (f c) = cell_x c ∧ cell_y (f c) = cell_y c) →
  wf_grid (map_cells f grid) → wf_grid grid.
Proof.
  intros Hf Hwf. apply wf_grid_intro.
  - intros row Hrow. destruct Hwf as [Hlen _].
    rewrite Forall_forall in Hlen.
    specialize (Hlen (f <$> row)). rewrite length_fmap in Hlen.
    rewrite Hlen by (by apply list_elem_of_fmap_2).
    destruct grid; [done|]. simpl. by rewrite length_fmap.
  - intros j i row c Hrow Hc. destruct (Hf c) as [<- <-].
    apply (wf_lookup (map_cells f grid) j i (f <$> row)); [done|..].
    + unfold map_cells. by rewrite list_lookup_fmap, Hrow.
    + by rewrite list_lookup_fmap, Hc.
Qed.

Lemma count_type_map f t grid :
  (∀ c, cell_type (f c) = cell_type c) →
  count_type t (map_cells f grid) = count_type t grid.
Proof.
  intros Hf. unfold count_type. rewrite cells_map.
  induction (cells grid) as [|c l IH]; [done|].
  rewrite fmap_cons, !filter_cons.
  destruct (decide (cell_type (f c) = t)) as [H1|H1],
           (decide (cell_type c = t)) as [H2|H2];
    simpl; try (by rewrite IH); rewrite Hf in H1; done.
Qed.

Lemma count_portals_map f color grid :
  keeps_kind f →
  count_portals color (map_cells f grid) = count_portals color grid.
Proof.
  intros Hf. unfold count_portals. rewrite cells_map.
  induction (cells grid) as [|c l IH]; [done|].
  rewrite fmap_cons, !filter_cons.
  assert (portal_of color (f c) ↔ portal_of color c) as Hiff
    by (unfold portal_of; by destruct (Hf c) as (_ & _ & -> & ->)).
  destruct (decide (portal_of color (f c))), (decide (portal_of color c));
    simpl; try (by rewrite IH); tauto.
Qed.

Lemma update_cell_map g grid x y f :
  (∀ c, f (g c) = g (f c)) →
  update_cell (map_cells g grid) x y f = map_cells g <$> update_cell grid x y f.
Proof.
  intros Hfg. unfold update_cell. rewrite grid_at_map.
  destruct (grid_at grid x y) as [c0|]; [|done]. simpl. f_equal.
  unfold map_cells. symmetry. apply list_fmap_alter, Forall_forall. intros row _.
  apply list_fmap_alter, Forall_forall. intros c _. by rewrite Hfg.
Qed.

Lemma demo_edits_map g grid :
  (∀ t c, with_type t (g c) = g (with_type t c)) →
  (∀ color c, with_portal color (g c) = g (with_portal color c)) →
  demo_edits (map_cells g grid) = map_cells g <$> demo_edits grid.
Proof.
  intros Ht Hp. unfold demo_edits.
  assert (∀ l acc,
            foldl (fun acc yx => grid ← acc; set_type grid yx.2 yx.1 TWall)
                  (map_cells g <$> acc) l
            = map_cells g
              <$> foldl (fun acc yx => grid ← acc;
                                       set_type grid yx.2 yx.1 TWall) acc l)
    as Hfold.
  { induction l as [|yx l IH]; intros acc; [done|]. simpl. rewrite <- IH.
    f_equal. destruct acc as [grid0|]; [simpl|done]. unfold set_type.
    by apply update_cell_map. }
  change (Some (map_cells g grid)) with (map_cells g <$> Some grid).
  rewrite (Hfold demo_walls (Some grid)).
  destruct (foldl _ (Some grid) demo_walls) as [grid1|]; [simpl|done].
  unfold set_portal, set_type.
  repeat (rewrite update_cell_map by done;
          match goal with
          | |- context [update_cell ?G ?x ?y ?f] =>
              destruct (update_cell G x y f); [simpl|done]
          end).
  done.
Qed.

Lemma demo_edits_empty :
  demo_edits ((fun y => (fun x => {| cell_x := x; cell_y := y;
                                     cell_type := TEmpty;
                                     portalColor := None; cell_id := "" |})
                        <$> seqZ 0 8) <$> seqZ 0 8)
  = Some (grid_of demo_kinds).
Proof. vm_compute. reflexivity. Qed.

Section demo_facts.
Context {World : Type} (env : Oracle World).

Lemma empty_row_forget y xs w :
  (fun c => with_id "" c) <$> (empty_row env y xs w).1
  = (fun x => {| cell_x := x; cell_y := y; cell_type := TEmpty;
                 portalColor := None; cell_id := "" |}) <$> xs.
Proof.
  revert w. induction xs as [|x xs IH]; intros w; [done|].
  cbn [empty_row].
  destruct (generateId env w) as [id w1]. specialize (IH w1).
  destruct (empty_row env y xs w1) as [row w2]. cbn [fst] in *.
  rewrite !fmap_cons. f_equal. exact IH.
Qed.

Lemma empty_rows_forget ys cols w :
  relabel (fun _ => "") (empty_rows env ys cols w).1
  = (fun y => (fun x => {| cell_x := x; cell_y := y; cell_type := TEmpty;
                           portalColor := None; cell_id := "" |})
              <$> seqZ 0 cols) <$> ys.
Proof.
  revert w. induction ys as [|y ys IH]; intros w; [done|].
  cbn [empty_rows].
  pose proof (empty_row_forget y (seqZ 0 cols) w) as Hrow.
  destruct (empty_row env y (seqZ 0 cols) w) as [row w1].
  specialize (IH w1). destruct (empty_rows env ys cols w1) as [rows w2].
  unfold relabel, map_cells in *. cbn [fst] in *.
  rewrite !fmap_cons. f_equal; [exact Hrow | exact IH].
Qed.

(** Whatever ids are drawn, the demo grid is the grid of [demo_kinds] up to
    its ids. *)
Lemma demoGrid_kinds w :
  ∃ grid, (demoGrid env w).1 = Some grid
          ∧ relabel (fun _ => "") grid = grid_of demo_kinds.
Proof.
  unfold demoGrid, createEmptyGrid.
  pose proof (empty_rows_forget (seqZ 0 8) 8 w) as Hempty.
  destruct (empty_rows env (seqZ 0 8) 8 w) as [grid0 w1]. cbn [fst] in *.
  pose proof (demo_edits_map (fun c => with_id "" c) grid0) as Hedits.
  unfold relabel in Hempty. rewrite Hempty, demo_edits_empty in Hedits.
  specialize (Hedits ltac:(done) ltac:(done)).
  destruct (demo_edits grid0) as [grid|]; [|done].
  exists grid. split; [done|]. by injection Hedits.
Qed.

End demo_facts.

(** X10. The demo level stores 24 as its optimum without breaks, but the
    solver finds 12 steps for its grid, with no break as with the one break
    of the level (the stored count with breaks, 12, agrees), and in
    no-break mode the game can be won in 12 moves. This holds whatever ids
    the cells of the demo grid get. *)
Theorem demo_level_counts {World : Type} (env : Oracle World) (w : World) :
  ∃ level w' sol0 sol1,
    DEMO_LEVEL env w = Returns (level, w')
    ∧ optimalStepsNoBreak level = Some 24%Z
    ∧ optimalStepsWithBreak level = Some 12%Z
    ∧ solveMaze (level_grid level) 0 = Returns (Some sol0)
    ∧ steps sol0 = 12%Z
    ∧ solveMaze (level_grid level) (maxBreaks level) = Returns (Some sol1)
    ∧ steps sol1 = 12%Z
    ∧ ∃ events st,
        play level NoBreak events = Returns st
        ∧ status st = Won ∧ movesTaken st = 12%Z.
Proof.
  unfold DEMO_LEVEL.
  destruct (demoGrid_kinds env w) as (grid & Hgrid & Hkinds).
  destruct (demoGrid env w) as [og w1]. simpl in Hgrid. subst og.
  destruct (date_now env w1) as [now w2].
  pose proof (relabel_keeps_kind (fun _ => "")) as Hkeep.
  assert (∀ K, solveMaze grid K = solveMaze (grid_of demo_kinds) K) as Hsolve.
  { intros K. rewrite <- Hkinds. symmetry. by apply solveMaze_map. }
  pose (sol0 := {| steps := 12;
                   path := [(0, 0); (0, 1); (0, 2); (1, 2); (1, 3);
                            (7, 0); (7, 1); (7, 2); (7, 3); (7, 4);
                            (7, 5); (7, 6); (7, 7)]%Z |}).
  assert (solveMaze grid 0 = Returns (Some sol0)) as Hsol0
    by (rewrite Hsolve; vm_compute; reflexivity).
  assert (solveMaze grid 1
          = Returns (Some {| steps := 12;
                             path := [(0, 0); (1, 0); (1, 1); (1, 2); (1, 3);
                                      (7, 0); (7, 1); (7, 2); (7, 3); (7, 4);
                                      (7, 5); (7, 6); (7, 7)]%Z |})) as Hsol1
    by (rewrite Hsolve; vm_compute; reflexivity).
  eexists _, w2, sol0, _. split; [done|]. simpl.
  split_and!; [done|done|exact Hsol0|done|exact Hsol1|done|].
  apply (count_attained
           {| level_id := "demo-1"; level_name := "Tutorial Sector";
              level_grid := grid; maxBreaks := 1;
              optimalStepsNoBreak := Some 24%Z;
              optimalStepsWithBreak := Some 12%Z; createdAt := now |}
           NoBreak sol0); simpl.
  - apply (wf_grid_unmap (fun c => with_id "" c)); [done|].
    unfold relabel in Hkinds. rewrite Hkinds.
    apply (bool_decide_unpack _). vm_compute. exact I.
  - rewrite <- (count_type_map (fun c => with_id "" c)) by done.
    unfold relabel in Hkinds. by rewrite Hkinds.
  - rewrite <- (count_type_map (fun c => with_id "" c)) by done.
    unfold relabel in Hkinds. by rewrite Hkinds.
  - intros color.
    pose proof (count_portals_map (fun c => with_id "" c) color grid Hkeep)
      as Hcount.
    unfold relabel in Hkinds. rewrite Hkinds in Hcount.
    unfold count_portals in Hcount. rewrite <- Hcount.
    destruct color; vm_compute; lia.
  - exact Hsol0.
Qed.

(** * The editor *)

(** ** Empty grids *)

Lemma blank_wf (rows cols : Z) :
  wf_grid ((fun y => (fun x => {| cell_x := x; cell_y := y;
                                  cell_type := TEmpty; portalColor := None;
                                  cell_id := "" |})
                     <$> seqZ 0 cols) <$> seqZ 0 rows).
Proof.
  apply wf_grid_intro.
  - intros row (y & -> & Hy)%list_elem_of_fmap. rewrite length_fmap.
    destruct (seqZ 0 rows) as [|y0 ys]; [by apply elem_of_nil in Hy|].
    simpl. by rewrite length_fmap.
  - intros j i row c Hrow Hc. rewrite list_lookup_fmap in Hrow.
    destruct (seqZ 0 rows !! j) as [y|] eqn:Hy; [|done]. injection Hrow as <-.
    rewrite list_lookup_fmap in Hc.
    destruct (seqZ 0 cols !! i) as [x|] eqn:Hx; [|done]. injection Hc as <-.
    apply lookup_seqZ in Hx as [-> _], Hy as [-> _]. simpl. lia.
Qed.

Section empty_grids.
Context {World : Type} (env : Oracle World).

Lemma empty_grid_blank (rows cols : Z) (w : World) :
  wf_grid (createEmptyGrid env rows cols w).1
  ∧ grid_rows (createEmptyGrid env rows cols w).1 = Z.max 0 rows
  ∧ (∀ row, row ∈ (createEmptyGrid env rows cols w).1 →
            Z.of_nat (length row) = Z.max 0 cols)
  ∧ (∀ c, c ∈ cells (createEmptyGrid env rows cols w).1 →
          cell_type c = TEmpty ∧ portalColor c = None).
Proof.
  unfold createEmptyGrid.
  pose proof (empty_rows_forget env (seqZ 0 rows) cols w) as Hforget.
  set (grid := (empty_rows env (seqZ 0 rows) cols w).1) in *.
  unfold relabel in Hforget. split_and!.
  - apply (wf_grid_unmap (fun c => with_id "" c)); [done|].
    rewrite Hforget. apply blank_wf.
  - rewrite <- (grid_rows_map (fun c => with_id "" c)), Hforget.
    unfold grid_rows. rewrite length_fmap, length_seqZ. lia.
  - intros row Hrow.
    assert ((fun c => with_id "" c) <$> row
            ∈ map_cells (fun c => with_id "" c) grid) as Hin
      by (by apply list_elem_of_fmap_2).
    rewrite Hforget in Hin. apply list_elem_of_fmap in Hin as (y & Heq & _).
    apply (f_equal length) in Heq. rewrite !length_fmap, length_seqZ in Heq.
    lia.
  - intros c Hc.
    assert (with_id "" c ∈ cells (map_cells (fun c => with_id "" c) grid))
      as Hin by (rewrite cells_map; by apply list_elem_of_fmap_2).
    rewrite Hforget in Hin.
    apply list_elem_of_join in Hin as (row & Hin & Hrow).
    apply list_elem_of_fmap in Hrow as (y & -> & _).
    apply list_elem_of_fmap in Hin as (x & Heq & _).
    by injection Heq as _ _ -> ->.
Qed.

(** X9. [createEmptyGrid(rows, cols)] returns a well-formed grid of
    [rows] rows (none when [rows] is not positive) in which every row has
    [cols] cells (none when [cols] is not positive) and every cell is empty
    and carries no portal colour. *)
Theorem createEmptyGrid_blank (rows cols : Z) (w : World) :
  wf_grid (createEmptyGrid env rows cols w).1
  ∧ grid_rows (createEmptyGrid env rows cols w).1 = Z.max 0 rows
  ∧ (∀ row, row ∈ (createEmptyGrid env rows cols w).1 →
            Z.of_nat (length row) = Z.max 0 cols)
  ∧ (∀ c, c ∈ cells (createEmptyGrid env rows cols w).1 →
          cell_type c = TEmpty ∧ portalColor c = None).
Proof. apply empty_grid_blank. Qed.

End empty_grids.

(** ** Clicks *)

Lemma map_cells_id grid : map_cells (fun c => c) grid = grid.
Proof.
  unfold map_cells. induction grid as [|row grid IH]; [done|].
  rewrite fmap_cons, IH. f_equal. apply list_fmap_id.
Qed.

Lemma update_cell_ext grid x y f g c :
  grid_at grid x y = Some c → f c = g c →
  update_cell grid x y f = update_cell grid x y g.
Proof.
  intros Hc Hfg. unfold update_cell. rewrite Hc. f_equal.
  apply grid_at_Some in Hc as (_ & _ & row & Hrow & Hcell).
  apply list_alter_ext; [|done]. intros row' Hrow'.
  rewrite Hrow in Hrow'. injection Hrow' as <-.
  apply list_alter_ext; [|done]. intros c' Hc'.
  rewrite Hcell in Hc'. by injection Hc' as <-.
Qed.

Lemma cleared_coords tool c :
  cell_x (cleared tool c) = cell_x c ∧ cell_y (cleared tool c) = cell_y c.
Proof.
  destruct tool as [[]|]; simpl; try done; by destruct (decide _).
Qed.

Lemma painted_coords tool color c :
  cell_x (painted tool color c) = cell_x c
  ∧ cell_y (painted tool color c) = cell_y c.
Proof. by destruct tool. Qed.

Lemma painted_cleared tool color c :
  painted tool color (cleared tool c) = painted tool color c.
Proof.
  destruct tool as [[]|]; simpl; try done; by destruct (decide _).
Qed.

(** A click rewrites the clicked cell with the tool, after the other cells
    have been cleared of the start or of the goal the tool places. *)
Lemma handleCellClick_at tool color grid x y cell :
  wf_grid grid → grid_at grid x y = Some cell →
  ∃ grid',
    handleCellClick tool color grid x y = Some grid'
    ∧ wf_grid grid'
    ∧ grid_rows grid' = grid_rows grid ∧ grid_cols grid' = grid_cols grid
    ∧ ∀ x' y', grid_at grid' x' y'
               = if decide (x' = x ∧ y' = y)
                 then Some (painted tool color cell)
                 else cleared tool <$> grid_at grid x' y'.
Proof.
  intros Hwf Hcell.
  assert (handleCellClick tool color grid x y
          = update_cell (map_cells (cleared tool) grid) x y
                        (painted tool color)) as ->.
  { unfold handleCellClick. rewrite Hcell. cbn [mbind option_bind].
    assert (∀ newGrid,
              newGrid = map_cells (cleared tool) grid →
              update_cell newGrid x y (fun _ => painted tool color cell)
              = update_cell (map_cells (cleared tool) grid) x y
                            (painted tool color)) as Hnew.
    { intros ? ->.
      apply (update_cell_ext _ _ _ _ _ (cleared tool cell)).
      - by rewrite grid_at_map, Hcell.
      - by rewrite painted_cleared. }
    destruct tool as [[]|]; apply Hnew; try done;
      symmetry; apply map_cells_id. }
  assert (grid_at (map_cells (cleared tool) grid) x y
          = Some (cleared tool cell)) as Hcell'
    by (by rewrite grid_at_map, Hcell).
  destruct (update_cell_Some _ _ _ (painted tool color) _ Hcell')
    as [grid' Hup].
  destruct (update_cell_shape _ _ _ _ grid'
              (wf_grid_map _ _ (cleared_coords tool) Hwf)
              (painted_coords tool color) Hup) as (Hwf' & Hrows & Hcols).
  exists grid'. split_and!; [done..| | |].
  - by rewrite Hrows, grid_rows_map.
  - by rewrite Hcols, grid_cols_map.
  - intros x' y'. rewrite (grid_at_update _ _ _ _ grid' x' y' Hup).
    destruct (decide _); [|by rewrite grid_at_map].
    by rewrite Hcell', <- (painted_cleared tool color cell).
Qed.

Lemma cell_in_grid grid c :
  wf_grid grid →
  c ∈ cells grid ↔ grid_at grid (cell_x c) (cell_y c) = Some c.
Proof.
  intros Hwf. split; [by apply cell_grid_at|].
  intros Hat. by destruct (grid_at_cell _ _ _ _ Hwf Hat) as (_ & _ & ? & _).
Qed.

Lemma at_most_one_count t grid :
  wf_grid grid → at_most_one t grid ↔ count_type t grid ≤ 1.
Proof.
  intros Hwf. unfold at_most_one, count_type. split.
  - intros Hone.
    pose proof (NoDup_filter (fun c => cell_type c = t) _
                  (cells_NoDup grid Hwf)) as Hnd.
    destruct (filter _ (cells grid)) as [|a [|b l]] eqn:Hf; simpl; try lia.
    exfalso.
    assert (a ∈ filter (fun c => cell_type c = t) (cells grid)) as Ha
      by (rewrite Hf; apply list_elem_of_here).
    assert (b ∈ filter (fun c => cell_type c = t) (cells grid)) as Hb
      by (rewrite Hf; apply list_elem_of_further, list_elem_of_here).
    apply list_elem_of_filter in Ha as [? ?], Hb as [? ?].
    assert (a = b) as -> by (by apply Hone).
    apply NoDup_cons in Hnd as [Hnd _]. apply Hnd, list_elem_of_here.
  - intros Hlen c c' Hc Hc' Ht Ht'.
    assert (c ∈ filter (fun c => cell_type c = t) (cells grid)) as Hin
      by (by apply list_elem_of_filter).
    assert (c' ∈ filter (fun c => cell_type c = t) (cells grid)) as Hin'
      by (by apply list_elem_of_filter).
    destruct (filter _ (cells grid)) as [|a [|b l]]; simpl in Hlen; try lia.
    + by apply elem_of_nil in Hin.
    + apply list_elem_of_singleton in Hin, Hin'. congruence.
Qed.

(** The cells of the grid after a click. *)
Lemma click_cells tool color grid x y cell grid' c :
  wf_grid grid → wf_grid grid' → grid_at grid x y = Some cell →
  (∀ x' y', grid_at grid' x' y'
            = if decide (x' = x ∧ y' = y)
              then Some (painted tool color cell)
              else cleared tool <$> grid_at grid x' y') →
  c ∈ cells grid' ↔
  c = painted tool color cell
  ∨ (∃ c0, c0 ∈ cells grid ∧ cell_pos c0 ≠ (x, y) ∧ c = cleared tool c0).
Proof.
  intros Hwf Hwf' Hcell Hat.
  destruct (grid_at_cell _ _ _ _ Hwf Hcell) as (Hx & Hy & _).
  rewrite (cell_in_grid grid' c Hwf'). split.
  - intros Hc. rewrite Hat in Hc.
    destruct (decide _) as [[Hcx Hcy]|Hne]; [left; congruence|right].
    apply fmap_Some in Hc as (c0 & Hc0 & ->). exists c0.
    destruct (cleared_coords tool c0) as [Hx0 Hy0].
    rewrite Hx0, Hy0 in Hc0, Hne.
    split_and!; [by apply cell_in_grid| |done].
    unfold cell_pos. intros [= ? ?]. by apply Hne.
  - intros [->|(c0 & Hc0 & Hne & ->)]; rewrite Hat.
    + destruct (painted_coords tool color cell) as [-> ->].
      by rewrite decide_True.
    + destruct (cleared_coords tool c0) as [-> ->].
      rewrite decide_False
        by (intros [? ?]; apply Hne; unfold cell_pos; congruence).
      by rewrite (cell_grid_at _ _ Hwf Hc0).
Qed.

Lemma cleared_kept tool c t :
  t = TStart ∨ t = TGoal → cell_type (cleared tool c) = t →
  cleared tool c = c ∧ tool ≠ Paint t.
Proof.
  intros Ht Hc.
  destruct tool as [[]|]; simpl in *;
    try (destruct (decide _) as [Heq|Hneq]; simpl in *);
    destruct Ht as [-> | ->]; split; congruence.
Qed.

Lemma click_at_most_one t tool color grid x y cell grid' :
  t = TStart ∨ t = TGoal →
  wf_grid grid → wf_grid grid' → grid_at grid x y = Some cell →
  (∀ x' y', grid_at grid' x' y'
            = if decide (x' = x ∧ y' = y)
              then Some (painted tool color cell)
              else cleared tool <$> grid_at grid x' y') →
  tool = Paint t ∨ at_most_one t grid →
  at_most_one t grid'.
Proof.
  intros Ht Hwf Hwf' Hcell Hat Hone c c' Hc Hc' Htc Htc'.
  apply (click_cells tool color grid x y cell grid' _ Hwf Hwf' Hcell Hat)
    in Hc, Hc'.
  assert (∀ c0, cell_type (cleared tool c0) = t →
                cleared tool c0 = c0 ∧ cell_type c0 = t ∧ tool ≠ Paint t)
    as Hold.
  { intros c0 Hc0. destruct (cleared_kept tool c0 t Ht Hc0) as [Heq ?].
    rewrite Heq in Hc0. done. }
  assert (cell_type (painted tool color cell) = t → tool = Paint t)
    as Hnew.
  { destruct tool as [t'|]; simpl; [by intros ->|].
    intros <-. by destruct Ht. }
  destruct Hc as [->|(c0 & Hc0 & _ & ->)], Hc' as [->|(c0' & Hc0' & _ & ->)];
    try done.
  - destruct (Hold _ Htc') as (_ & _ & Hn). by apply Hnew in Htc.
  - destruct (Hold _ Htc) as (_ & _ & Hn). by apply Hnew in Htc'.
  - destruct (Hold _ Htc) as (-> & Ht0 & Hn).
    destruct (Hold _ Htc') as (-> & Ht0' & _).
    destruct Hone as [->|Hone]; [done|]. by apply Hone.
Qed.

(** One click keeps what the editor relies on. *)
Lemma click_ok tool color grid x y cell :
  editor_ok grid → grid_at grid x y = Some cell →
  ∃ grid', handleCellClick tool color grid x y = Some grid'
           ∧ editor_ok grid'
           ∧ grid_rows grid' = grid_rows grid
           ∧ grid_cols grid' = grid_cols grid.
Proof.
  intros (Hwf & Hs & Hg & Hcol) Hcell.
  destruct (handleCellClick_at tool color grid x y cell Hwf Hcell)
    as (grid' & Hclick & Hwf' & Hrows & Hcols & Hat).
  exists grid'. split_and!; [done| |done..]. split_and!; [done|..].
  - apply at_most_one_count; [done|].
    apply (click_at_most_one TStart tool color grid x y cell); try done;
      [by left|]. right. by apply at_most_one_count.
  - apply at_most_one_count; [done|].
    apply (click_at_most_one TGoal tool color grid x y cell); try done;
      [by right|]. right. by apply at_most_one_count.
  - intros c Hc.
    apply (click_cells tool color grid x y cell grid' _ Hwf Hwf' Hcell Hat)
      in Hc as [->|(c0 & Hc0 & _ & ->)].
    + destruct tool as [t|]; simpl.
      * destruct (decide (t = TPortal)); split; try done.
      * split; [done|]. by intros [? ?].
    + specialize (Hcol c0 Hc0).
      destruct tool as [[]|]; simpl; try done;
        (destruct (decide _) as [Heq|]; [|done]); simpl;
        rewrite Heq in Hcol; split; try done; intros Hsome;
        by apply Hcol in Hsome.
Qed.

Lemma count_type_none t grid :
  (∀ c, c ∈ cells grid → cell_type c ≠ t) → count_type t grid = 0.
Proof.
  intros Hno. unfold count_type.
  destruct (filter _ (cells grid)) as [|c l] eqn:Hf; [done|]. exfalso.
  assert (c ∈ filter (fun c => cell_type c = t) (cells grid)) as Hc
    by (rewrite Hf; apply list_elem_of_here).
  apply list_elem_of_filter in Hc as [Ht Hc]. by apply (Hno c).
Qed.

Lemma editor_grid_ok {World : Type} (env : Oracle World) (w : World) :
  editor_ok (editor_grid env w).1 ∧ grid10 (editor_grid env w).1.
Proof.
  destruct (empty_grid_blank env GRID_SIZE GRID_SIZE w)
    as (Hwf & Hrows & Hlen & Hblank).
  unfold createEmptyGrid in *. unfold editor_grid.
  set (grid := (empty_rows env (seqZ 0 GRID_SIZE) GRID_SIZE w).1) in *.
  split.
  - split_and!; [done|..].
    + rewrite count_type_none; [lia|]. intros c Hc.
      by destruct (Hblank c Hc) as [-> _].
    + rewrite count_type_none; [lia|]. intros c Hc.
      by destruct (Hblank c Hc) as [-> _].
    + intros c Hc. destruct (Hblank c Hc) as [-> ->]. split; [done|].
      by intros [? ?].
  - split_and!; [done..|]. unfold grid_rows in Hrows.
    destruct grid as [|row rows]; [simpl in Hrows; unfold GRID_SIZE in *; lia|].
    simpl. f_equal. rewrite (Hlen row) by apply list_elem_of_here. done.
Qed.

(** X11. The editor starts from a well-formed 10 x 10 grid of empty cells:
    it has no start, no goal and no portal, and no cell carries a portal
    colour, whatever ids the cells get. *)
Theorem editor_starts_blank {World : Type} (env : Oracle World) (w : World) :
  grid10 (editor_grid env w).1
  ∧ editor_ok (editor_grid env w).1
  ∧ ∀ c, c ∈ cells (editor_grid env w).1 →
         cell_type c = TEmpty ∧ portalColor c = None.
Proof.
  destruct (editor_grid_ok env w) as [Hok Hg]. split_and!; [done..|].
  by destruct (empty_grid_blank env GRID_SIZE GRID_SIZE w) as (_ & _ & _ & ?).
Qed.

(** X12. Editing keeps the grid in order. From a well-formed 10 x 10 grid
    with at most one start cell and at most one goal cell, in which exactly
    the portal cells carry a portal colour, any sequence of clicks on cells
    of the grid, with whatever tool and colour selected at each click, leads
    to a grid with the same properties. *)
Theorem editor_clicks_ok (grid : Grid) (clicks : list Click) :
  grid10 grid → editor_ok grid → Forall on_grid clicks →
  ∃ grid',
    handleClicks grid clicks = Some grid' ∧ grid10 grid' ∧ editor_ok grid'.
Proof.
  intros Hg0 Hok0 Hon. unfold handleClicks.
  induction clicks as [|click clicks IH] using rev_ind.
  - by exists grid.
  - apply Forall_app in Hon as [Hon Hclick].
    apply Forall_singleton in Hclick as [Hx Hy].
    destruct (IH Hon) as (grid1 & Hgrid & Hg & Hok).
    rewrite foldl_snoc, Hgrid. cbn [mbind option_bind].
    destruct (grid10_at grid1 _ _ Hg Hx Hy) as [cell Hcell].
    destruct (click_ok (click_tool click) (click_color click) grid1 _ _ cell
                Hok Hcell) as (grid' & Hclick & Hok' & Hrows & Hcols).
    exists grid'. split; [done|]. split; [|done].
    destruct Hg as (_ & Hr & Hc). destruct Hok' as (Hwf' & _).
    split_and!; [done|by rewrite Hrows|by rewrite Hcols].
Qed.

Lemma editor_clicks_ok_witness :
  ∃ grid',
    handleClicks (editor_grid first_oracle ()).1
      [mkClick (Paint TStart) Blue 0 0; mkClick (Paint TStart) Blue 2 0;
       mkClick (Paint TPortal) Red 2 0; mkClick Erase Red 2 0;
       mkClick (Paint TGoal) Blue 9 9]
    = Some grid'
    ∧ grid10 grid' ∧ editor_ok grid'.
Proof.
  apply (editor_clicks_ok (editor_grid first_oracle ()).1).
  - apply (editor_grid_ok first_oracle ()).
  - apply (editor_grid_ok first_oracle ()).
  - repeat (apply Forall_cons; split;
            [unfold on_grid, GRID_SIZE; simpl; lia|]).
    apply Forall_nil_2.
Defined.

(** X13. Placing the start (or the goal) makes it the only one. On a
    well-formed grid, however many start cells it had, a click with the
    start tool on a cell of the grid leaves exactly one start cell, the
    clicked one; likewise for the goal tool. *)
Theorem click_places_one t color grid x y cell :
  t = TStart ∨ t = TGoal →
  wf_grid grid → grid_at grid x y = Some cell →
  ∃ grid' c,
    handleCellClick (Paint t) color grid x y = Some grid'
    ∧ count_type t grid' = 1
    ∧ grid_at grid' x y = Some c ∧ cell_type c = t.
Proof.
  intros Ht Hwf Hcell.
  destruct (handleCellClick_at (Paint t) color grid x y cell Hwf Hcell)
    as (grid' & Hclick & Hwf' & _ & _ & Hat).
  exists grid', (painted (Paint t) color cell).
  assert (grid_at grid' x y = Some (painted (Paint t) color cell)) as Hnew
    by (by rewrite Hat, decide_True).
  split_and!; [done| |done..].
  destruct (grid_at_cell _ _ _ _ Hwf' Hnew) as (_ & _ & Hin & _).
  apply (count_type_singleton t grid' _ Hwf' Hin); [done|].
  intros c' Hc' Ht'.
  by apply (click_at_most_one t (Paint t) color grid x y cell grid' Ht Hwf
              Hwf' Hcell Hat (or_introl eq_refl)).
Qed.

Lemma click_places_one_witness :
  ∃ grid' c,
    handleCellClick (Paint TStart) Blue
      (grid_of [[(TStart, None); (TStart, None); (TEmpty, None)]]) 2 0
    = Some grid'
    ∧ count_type TStart grid' = 1
    ∧ grid_at grid' 2 0 = Some c ∧ cell_type c = TStart.
Proof.
  apply (click_places_one TStart Blue
           (grid_of [[(TStart, None); (TStart, None); (TEmpty, None)]]) 2 0
           (cell_of 0 2 (TEmpty, None))).
  - by left.
  - apply (bool_decide_unpack _). vm_compute. exact I.
  - reflexivity.
Defined.

(** ** Validation *)

Lemma bump_spec color portals :
  NoDup portals.*1 →
  NoDup (bump color portals).*1
  ∧ ∀ c n, (c, n) ∈ bump color portals ↔
           (c ≠ color ∧ (c, n) ∈ portals)
           ∨ (c = color
              ∧ ((n = 1 ∧ color ∉ portals.*1)
                 ∨ ∃ m, n = S m ∧ (color, m) ∈ portals)).
Proof.
  induction portals as [|[c0 n0] rest IH]; intros Hnd.
  - split; [apply NoDup_singleton|]. intros c n. simpl.
    rewrite list_elem_of_singleton. split.
    + intros [= -> ->]. right. split; [done|]. left. split; [done|].
      apply not_elem_of_nil.
    + intros [[_ []%elem_of_nil]|[-> [[-> _]|(m & _ & []%elem_of_nil)]]].
      done.
  - simpl in Hnd. apply NoDup_cons in Hnd as [Hc0 Hnd].
    destruct (IH Hnd) as [IHnd IHin]. simpl.
    destruct (decide (c0 = color)) as [->|Hne].
    + split; [simpl; by apply NoDup_cons|]. intros c n. split.
      * intros [[= -> ->]|Hin]%elem_of_cons.
        -- right. split; [done|]. right. exists n0. split; [done|].
           apply list_elem_of_here.
        -- left. split; [|by apply list_elem_of_further]. intros ->.
           apply Hc0, list_elem_of_fmap. by exists (color, n).
      * intros [[Hc Hin]|[-> [[_ Hno]|(m & -> & Hin)]]].
        -- apply elem_of_cons in Hin as [[= ? ?]|Hin]; [done|].
           by apply list_elem_of_further.
        -- exfalso. apply Hno. simpl. apply list_elem_of_here.
        -- apply elem_of_cons in Hin as [[= ->]|Hin];
             [apply list_elem_of_here|].
           exfalso. apply Hc0, list_elem_of_fmap. by exists (color, m).
    + split.
      * simpl. apply NoDup_cons. split; [|done].
        intros ([c n] & Heq & Hin)%list_elem_of_fmap. simpl in Heq. subst c.
        apply IHin in Hin as [[_ Hin]|[-> _]]; [|done].
        apply Hc0. apply list_elem_of_fmap. by exists (c0, n).
      * intros c n. split.
        -- intros [[= -> ->]|Hin]%elem_of_cons.
           ++ left. split; [done|apply list_elem_of_here].
           ++ apply IHin in Hin as [[Hc Hin]|[-> Hcase]].
              ** left. split; [done|by apply list_elem_of_further].
              ** right. split; [done|].
                 destruct Hcase as [[-> Hno]|(m & -> & Hin)].
                 --- left. split; [done|]. simpl.
                     intros [?|?]%elem_of_cons; done.
                 --- right. exists m. split; [done|].
                     by apply list_elem_of_further.
        -- intros [[Hc Hin]|[-> Hcase]].
           ++ apply elem_of_cons in Hin as [[= -> ->]|Hin];
                [apply list_elem_of_here|].
              apply list_elem_of_further, IHin. left. done.
           ++ apply list_elem_of_further, IHin. right. split; [done|].
              destruct Hcase as [[-> Hno]|(m & -> & Hin)].
              ** left. split; [done|]. intros Hin. apply Hno. simpl.
                 by apply list_elem_of_further.
              ** apply elem_of_cons in Hin as [[= ? ?]|Hin]; [done|].
                 right. by exists m.
Qed.

Lemma tallied_nil : tallied [] [].
Proof.
  split; [constructor|]. intros color n. split.
  - by intros ?%elem_of_nil.
  - simpl. lia.
Qed.

Lemma tallied_snoc l portals c :
  tallied l portals →
  tallied (l ++ [c])
          (match cell_type c, portalColor c with
           | TPortal, Some color => bump color portals
           | _, _ => portals
           end).
Proof.
  intros [Hnd Hin].
  assert (∀ color, ¬ portal_of color c →
                   length (filter (portal_of color) (l ++ [c]))
                   = length (filter (portal_of color) l)) as Hsame.
  { intros color Hno. rewrite filter_app, filter_cons, filter_nil.
    rewrite decide_False by done. by rewrite app_nil_r. }
  assert (∀ color, portal_of color c →
                   length (filter (portal_of color) (l ++ [c]))
                   = S (length (filter (portal_of color) l))) as Hmore.
  { intros color Hyes. rewrite filter_app, filter_cons, filter_nil.
    rewrite decide_True by done. rewrite length_app. simpl. lia. }
  assert ((∀ color, ¬ portal_of color c) → tallied (l ++ [c]) portals)
    as Hskip.
  { intros Hno. split; [done|]. intros color n.
    by rewrite Hsame, Hin by apply Hno. }
  destruct (cell_type c) eqn:Ht;
    try (apply Hskip; intros color [Ht' _]; congruence).
  destruct (portalColor c) as [color|] eqn:Hcol;
    [|apply Hskip; intros color [_ Hc]; congruence].
  destruct (bump_spec color portals Hnd) as [Hnd' Hin'].
  split; [done|]. intros c' n. rewrite Hin'. split.
  - intros [[Hne Hold]|[-> Hcase]].
    + apply Hin in Hold. rewrite Hsame; [done|].
      intros [_ Hc]. congruence.
    + rewrite Hmore by done.
      destruct Hcase as [[-> Hno]|(m & -> & Hold)].
      * split; [lia|]. f_equal.
        destruct (length (filter (portal_of color) l)) as [|k] eqn:Hk;
          [done|]. exfalso. apply Hno. apply list_elem_of_fmap.
        exists (color, S k). split; [done|]. apply Hin. split; [lia|done].
      * apply Hin in Hold as [_ ->]. split; [lia|done].
  - intros [Hpos ->]. destruct (decide (c' = color)) as [->|Hne].
    + right. split; [done|]. rewrite Hmore by done.
      destruct (length (filter (portal_of color) l)) as [|k] eqn:Hk.
      * left. split; [done|].
        intros ([c0 n0] & Heq & Hold)%list_elem_of_fmap. simpl in Heq.
        subst c0. apply Hin in Hold. lia.
      * right. exists (S k). split; [done|]. apply Hin. split; [lia|done].
    + left. split; [done|]. apply Hin.
      rewrite Hsame in * by (intros [_ Hc]; congruence). done.
Qed.

(** What the scan of [validateAndSave] finds: the last start cell, the last
    goal cell, and the tally of the portal cells by colour. *)
Lemma scan_cells_spec l :
  scan_start (foldl scan_cell
                {| scan_start := None; scan_goal := None;
                   scan_portals := [] |} l)
  = last (filter (fun c => cell_type c = TStart) l)
  ∧ scan_goal (foldl scan_cell
                 {| scan_start := None; scan_goal := None;
                    scan_portals := [] |} l)
    = last (filter (fun c => cell_type c = TGoal) l)
  ∧ tallied l (scan_portals
                 (foldl scan_cell
                    {| scan_start := None; scan_goal := None;
                       scan_portals := [] |} l)).
Proof.
  induction l as [|c l (IHs & IHg & IHp)] using rev_ind.
  - split_and!; [done..|apply tallied_nil].
  - rewrite foldl_snoc, !filter_app, !filter_cons, !filter_nil.
    unfold scan_cell at 1 2 3. cbn [scan_start scan_goal scan_portals].
    split_and!.
    + destruct (decide (cell_type c = TStart)).
      * by rewrite last_snoc.
      * by rewrite app_nil_r.
    + destruct (decide (cell_type c = TGoal)).
      * by rewrite last_snoc.
      * by rewrite app_nil_r.
    + by apply tallied_snoc.
Qed.

Lemma last_filter_None {A} (P : A → Prop) `{∀ x, Decision (P x)} (l : list A) :
  last (filter P l) = None ↔ length (filter P l) = 0.
Proof.
  destruct (filter P l) as [|a k] using rev_ind; [done|].
  rewrite last_snoc, length_app. simpl. split; [done|lia].
Qed.

Lemma plan_budget_mono grid K K' k n k' :
  (K <= K')%Z → plan grid K k n k' → plan grid K' k n k'.
Proof.
  intros HK. induction 1 as [|n k1 k2 _ IH Hact]; [constructor|].
  apply (plan_more _ _ _ _ k1); [done|].
  inversion Hact; subst.
  - by eapply action_teleport.
  - by eapply action_move.
  - eapply action_break; [done..|lia].
Qed.

Lemma solvable_budget_mono grid K K' n :
  (K <= K')%Z → solvable_in grid K n → solvable_in grid K' n.
Proof.
  intros HK (s & g & b & ? & ? & ? & ? & ? & Hplan).
  exists s, g, b. split_and!; [done..|lia|].
  by apply (plan_budget_mono grid K).
Qed.

Section validation.
Context {World : Type} (env : Oracle World).

(** What [validateAndSave] does with a well-formed grid. *)
Lemma validate_outcome levelName K grid w :
  wf_grid grid →
  ∃ result w',
    validateAndSave env levelName K grid w = Returns (result, w')
    ∧ match result with
      | Published level =>
          0 < count_type TStart grid ∧ 0 < count_type TGoal grid
          ∧ (∀ color, count_portals color grid ≠ 1)
          ∧ level_grid level = grid ∧ maxBreaks level = K
          ∧ ∃ noBreakSol breakSol,
              solveMaze grid 0 = Returns noBreakSol
              ∧ solveMaze grid K = Returns breakSol
              ∧ (is_Some noBreakSol ∨ is_Some breakSol)
              ∧ optimalStepsNoBreak level = steps <$> noBreakSol
              ∧ optimalStepsWithBreak level = steps <$> breakSol
      | Rejected message =>
          (count_type TStart grid = 0 ∧ message = "Missing START point.")
          ∨ (0 < count_type TStart grid ∧ count_type TGoal grid = 0
             ∧ message = "Missing GOAL point.")
          ∨ (0 < count_type TStart grid ∧ 0 < count_type TGoal grid
             ∧ ∃ color, count_portals color grid = 1
                        ∧ message = PortalColor_upper color
                                    +:+ " portal has no pair.")
          ∨ (solveMaze grid 0 = Returns None
             ∧ solveMaze grid K = Returns None
             ∧ message = "Level is impossible to complete in either mode.")
      end.
Proof.
  intros Hwf. unfold validateAndSave, scan_grid. rewrite foldl_rows.
  destruct (scan_cells_spec (cells grid)) as (Hs & Hg & Hnd & Hp).
  rewrite Hs, Hg.
  destruct (last (filter (fun c => cell_type c = TStart) (cells grid)))
    as [cs|] eqn:Hcs.
  2:{ eexists _, w. split; [done|]. left. split; [|done].
      by apply last_filter_None in Hcs. }
  assert (0 < count_type TStart grid) as Hn1.
  { revert Hcs. unfold count_type.
    destruct (filter (fun c => cell_type c = TStart) (cells grid));
      [done|simpl; lia]. }
  destruct (last (filter (fun c => cell_type c = TGoal) (cells grid)))
    as [cg|] eqn:Hcg.
  2:{ eexists _, w. split; [done|]. right. left. split_and!; [done| |done].
      by apply last_filter_None in Hcg. }
  assert (0 < count_type TGoal grid) as Hn2.
  { revert Hcg. unfold count_type.
    destruct (filter (fun c => cell_type c = TGoal) (cells grid));
      [done|simpl; lia]. }
  destruct (head (filter _ (scan_portals _))) as [[col n]|] eqn:Hhead.
  { eexists _, w. split; [done|]. right. right. left.
    split_and!; [done..|]. exists col. split; [|done].
    apply head_Some_elem_of, list_elem_of_filter in Hhead as [Hlt Hin].
    apply Hp in Hin. simpl in Hlt. unfold count_portals. lia. }
  assert (∀ color, count_portals color grid ≠ 1) as Hpairs.
  { intros color Hone.
    assert ((color, 1) ∈ filter (fun entry : PortalColor * nat => entry.2 < 2)
                           (scan_portals (foldl scan_cell
                              {| scan_start := None; scan_goal := None;
                                 scan_portals := [] |} (cells grid))))
      as Hin.
    { apply list_elem_of_filter. split; [simpl; lia|]. apply Hp.
      unfold count_portals in Hone. lia. }
    destruct (filter _ (scan_portals _)); [by apply elem_of_nil in Hin|done]. }
  apply last_elem_of, list_elem_of_filter in Hcs as [Hts Hcs].
  apply last_elem_of, list_elem_of_filter in Hcg as [Htg Hcg].
  destruct (findEndpoints_start_Some grid cs Hcs Hts) as [s Hes].
  destruct (findEndpoints_goal_Some grid cg Hcg Htg) as [g Heg].
  assert (findEndpoints grid = (Some s, Some g)) as He
    by (destruct (findEndpoints grid); simpl in *; congruence).
  destruct (solveMaze_wf grid 0 s g Hwf He) as (_ & r0 & _ & _ & Hr0 & _).
  destruct (solveMaze_wf grid K s g Hwf He) as (_ & rK & _ & _ & HrK & _).
  rewrite Hr0, HrK.
  destruct r0 as [sol0|], rK as [solK|];
    try (destruct (generateId env w) as [id w1];
         destruct (date_now env w1) as [now w2];
         eexists _, w2; split; [done|]; simpl;
         split_and!; [done..|]; eexists _, _;
         split_and!; [done|done| |done|done]; eauto).
  eexists _, w. split; [done|]. right. right. right. done.
Qed.


(** A published level of the editor, with a budget that is not negative:
    the facts the game relies on. *)
Lemma published_facts levelName K grid w level w' :
  editor_ok grid → (0 <= K)%Z →
  validateAndSave env levelName K grid w = Returns (Published level, w') →
  wf_grid (level_grid level)
  ∧ count_type TStart (level_grid level) = 1
  ∧ count_type TGoal (level_grid level) = 1
  ∧ maxBreaks level = K
  ∧ ∃ noBreakSol solK,
      solveMaze (level_grid level) 0 = Returns noBreakSol
      ∧ solveMaze (level_grid level) K = Returns (Some solK)
      ∧ optimalStepsNoBreak level = steps <$> noBreakSol
      ∧ optimalStepsWithBreak level = Some (steps solK)
      ∧ ∀ sol0, noBreakSol = Some sol0 → (steps solK <= steps sol0)%Z.
Proof.
  intros (Hwf & Hs & Hg & _) HK Hsave.
  destruct (validate_outcome levelName K grid w Hwf)
    as (result & w1 & Hsave' & Hres).
  rewrite Hsave in Hsave'. injection Hsave' as <- <-.
  destruct Hres as (Hn1 & Hn2 & _ & -> & -> & r0 & rK & Hr0 & HrK & Hsome
                    & Ho0 & HoK).
  assert (count_type TStart grid = 1) as Hs1 by lia.
  assert (count_type TGoal grid = 1) as Hg1 by lia.
  split_and!; [done..|].
  destruct (solveMaze_verdict grid 0 Hwf Hs1 Hg1) as (r0' & Hr0' & Hv0);
    [lia|].
  destruct (solveMaze_verdict grid K Hwf Hs1 Hg1 HK) as (rK' & HrK' & HvK).
  rewrite Hr0 in Hr0'. injection Hr0' as <-.
  rewrite HrK in HrK'. injection HrK' as <-.
  destruct rK as [solK|].
  - exists r0, solK. split_and!; [done..|].
    intros sol0 ->. destruct Hv0 as (Hpos & Hsolv & _).
    destruct HvK as (_ & _ & Hmin).
    specialize (Hmin _ (solvable_budget_mono grid 0 K _ HK Hsolv)). lia.
  - exfalso. destruct r0 as [sol0|].
    + destruct Hv0 as (_ & Hsolv & _).
      by apply (HvK _ (solvable_budget_mono grid 0 K _ HK Hsolv)).
    + by destruct Hsome as [[? ?]|[? ?]].
Qed.

(** X15. A level published by the editor from a grid it has kept in order,
    with a budget that is not negative, always has a count with breaks, and
    that count is at most the count without breaks when there is one: a
    published level can be solved in wall-break mode, and breaks never make
    the optimum longer. *)
Theorem published_counts levelName K grid w level w' :
  editor_ok grid → (0 <= K)%Z →
  validateAndSave env levelName K grid w = Returns (Published level, w') →
  ∃ n, optimalStepsWithBreak level = Some n
       ∧ ∀ m, optimalStepsNoBreak level = Some m → (n <= m)%Z.
Proof.
  intros Hok HK Hsave.
  destruct (published_facts levelName K grid w level w' Hok HK Hsave)
    as (_ & _ & _ & _ & r0 & solK & _ & _ & Ho0 & HoK & Hle).
  exists (steps solK). split; [done|]. intros m Hm. rewrite Ho0 in Hm.
  destruct r0 as [sol0|]; [|done]. injection Hm as <-. by apply Hle.
Qed.

(** X16. No play beats the count of a level published from a grid in
    order. Let the grid be well formed, with at most one start cell, at
    most one goal cell, and a portal colour on its portal cells and on no
    other cell ([editor_ok]), and let the budget be not negative. When
    [validateAndSave] publishes a level from that grid and a sequence of
    key presses wins the game on the level in a mode, the level stores a
    count for that mode, and the moves the game counts are at least that
    count. *)
Theorem published_never_beaten levelName K grid w level w' mode events st :
  editor_ok grid → (0 <= K)%Z →
  validateAndSave env levelName K grid w = Returns (Published level, w') →
  play level mode events = Returns st → status st = Won →
  ∃ n, stored_count level mode = Some n ∧ (n <= movesTaken st)%Z.
Proof.
  intros Hok HK Hsave Hplay Hwon.
  destruct (published_facts levelName K grid w level w' Hok HK Hsave)
    as (Hwf & Hn1 & Hn2 & Hmax & r0 & solK & Hr0 & HrK & Ho0 & HoK & _).
  assert (0 <= mode_budget level mode)%Z as Hbudget
    by (destruct mode; simpl; lia).
  destruct (won_bound level mode events st Hwf Hn1 Hn2 Hbudget Hplay Hwon)
    as (sol & Hsol & Hle).
  exists (steps sol). split; [|done]. destruct mode; simpl in *.
  - rewrite Hr0 in Hsol. injection Hsol as ->. by rewrite Ho0.
  - rewrite Hmax, HrK in Hsol. injection Hsol as ->. done.
Qed.

End validation.

Lemma walled_grid_editor_ok : editor_ok walled_grid.
Proof.
  split_and!.
  - exact walled_grid_wf.
  - vm_compute. lia.
  - vm_compute. lia.
  - apply Forall_forall. vm_compute cells.
    repeat (apply Forall_cons; split; [split; [done|by intros [? ?]]|]).
    apply Forall_nil_2.
Defined.


Lemma published_counts_witness :
  validateAndSave first_oracle "Walled" 1 walled_grid ()
  = Returns (Published walled_level, ())
  ∧ ∃ n, optimalStepsWithBreak walled_level = Some n
         ∧ ∀ m, optimalStepsNoBreak walled_level = Some m → (n <= m)%Z.
Proof.
  split; [vm_compute; reflexivity|].
  apply (published_counts first_oracle "Walled" 1 walled_grid () walled_level
           () walled_grid_editor_ok); [lia|].
  vm_compute. reflexivity.
Defined.

Lemma published_never_beaten_witness :
  ∃ st,
    validateAndSave first_oracle "Walled" 1 walled_grid ()
    = Returns (Published walled_level, ())
    ∧ play walled_level WallBreak
           [shift_arrow "ArrowRight"; plain_key "ArrowRight"] = Returns st
    ∧ status st = Won
    ∧ ∃ n, stored_count walled_level WallBreak = Some n
           ∧ (n <= movesTaken st)%Z.
Proof.
  assert (validateAndSave first_oracle "Walled" 1 walled_grid ()
          = Returns (Published walled_level, ())) as Hsave
    by (vm_compute; reflexivity).
  assert (∃ st, play walled_level WallBreak
                  [shift_arrow "ArrowRight"; plain_key "ArrowRight"]
                = Returns st ∧ status st = Won) as (st & Hplay & Hwon)
    by (vm_compute; eauto).
  exists st. split_and!; [done..|].
  apply (published_never_beaten first_oracle "Walled" 1 walled_grid ()
           walled_level () WallBreak
           [shift_arrow "ArrowRight"; plain_key "ArrowRight"] st
           walled_grid_editor_ok); [lia|done..].
Defined.

(** * The shape of generated grids *)

Lemma shaped_update places places' grid x y f grid' :
  shaped places grid → update_cell grid x y f = Some grid' →
  interior x y → (∀ p, p ∈ places → p ∈ places') →
  (∀ c, grid_at grid x y = Some c →
        (cell_type (f c) = TPortal →
         (x, y) ∈ places' ∧ portalColor (f c) = Some Blue)
        ∧ (cell_type (f c) ≠ TPortal → portalColor (f c) = None)) →
  shaped places' grid'.
Proof.
  intros Hsh Hup Hint Hsub Hf x' y' c'.
  rewrite (grid_at_update grid x y f grid' x' y' Hup).
  destruct (decide (x' = x ∧ y' = y)) as [[-> ->]|Hne].
  - intros (c & Hc & ->)%fmap_Some. destruct (Hf c Hc) as [Hp Hn].
    split_and!; done.
  - intros Hc'. destruct (Hsh x' y' c' Hc') as (Hb & Hp & Hn).
    split_and!; [done| |done]. intros Ht. destruct (Hp Ht). split; auto.
Qed.

(** Retyping a cell that is not a portal into something that is not a
    portal. *)
Lemma shaped_set_type places grid x y t grid' :
  shaped places grid → set_type grid x y t = Some grid' →
  interior x y → t ≠ TPortal →
  (∀ c, grid_at grid x y = Some c → cell_type c ≠ TPortal) →
  shaped places grid'.
Proof.
  intros Hsh Hup Hint Ht Hc.
  apply (shaped_update places places grid x y (with_type t) grid');
    try done.
  intros c Hat. split; [done|]. intros _. simpl.
  by apply (Hsh x y c Hat), Hc.
Qed.

Lemma shaped_set_portal places grid x y grid' :
  shaped places grid → set_portal grid x y Blue = Some grid' →
  interior x y → shaped ((x, y) :: places) grid'.
Proof.
  intros Hsh Hup Hint.
  apply (shaped_update places ((x, y) :: places) grid x y
           (with_portal Blue) grid'); try done.
  - intros p Hp. by apply list_elem_of_further.
  - intros c _. split; [|done]. intros _. split; [|done].
    apply list_elem_of_here.
Qed.

(** In a shaped grid the cells that are not walls are off the border. *)
Lemma shaped_interior places grid x y :
  shaped places grid →
  (∃ c, grid_at grid x y = Some c ∧ cell_type c ≠ TWall) → interior x y.
Proof.
  intros Hsh (c & Hc & Ht). destruct (Hsh x y c Hc) as (Hb & _).
  destruct (decide (interior x y)) as [|Hno]; [done|].
  by apply Hb in Hno.
Qed.

(** With its portals at two places at most, a shaped grid has at most two
    portal cells. *)
Lemma shaped_pairs places grid color :
  wf_grid grid → shaped places grid → length places ≤ 2 →
  count_portals color grid ≤ 2.
Proof.
  intros Hwf Hsh Hlen. unfold count_portals.
  rewrite <- (length_fmap cell_pos). etrans; [|exact Hlen].
  apply submseteq_length, NoDup_submseteq.
  - apply NoDup_fmap_2_strong; [|apply NoDup_filter, cells_NoDup; done].
    intros c c' [_ Hc]%list_elem_of_filter [_ Hc']%list_elem_of_filter.
    by apply (cell_pos_inj grid).
  - intros p (c & -> & [[Ht _] Hc]%list_elem_of_filter)%list_elem_of_fmap.
    pose proof (cell_grid_at _ _ Hwf Hc) as Hat.
    by destruct (Hsh _ _ c Hat) as (_ & [? _] & _).
Qed.

Section shaping.
Context {World : Type} (env : Oracle World).

Lemma wall_row_plain y xs w c :
  c ∈ (MazeGenerator.wall_row env y xs w).1 →
  cell_type c = TWall ∧ portalColor c = None.
Proof.
  revert w. induction xs as [|x xs IH]; intros w; simpl.
  - by intros ?%elem_of_nil.
  - destruct (generateId env w) as [id w1]. specialize (IH w1).
    destruct (MazeGenerator.wall_row env y xs w1) as [row w2]. simpl in *.
    intros [->|Hc]%elem_of_cons; [done|by apply IH].
Qed.

Lemma wall_grid_plain ys w c :
  c ∈ cells (MazeGenerator.wall_grid env ys w).1 →
  cell_type c = TWall ∧ portalColor c = None.
Proof.
  revert w. induction ys as [|y ys IH]; intros w.
  - by intros ?%elem_of_nil.
  - cbn [MazeGenerator.wall_grid].
    pose proof (wall_row_plain y (seqZ 0 GRID_SIZE) w c) as Hrow.
    destruct (MazeGenerator.wall_row env y (seqZ 0 GRID_SIZE) w) as [row w1].
    specialize (IH w1).
    destruct (MazeGenerator.wall_grid env ys w1) as [rows w2].
    cbn [fst] in *. unfold cells in *. simpl.
    intros [Hc|Hc]%elem_of_app; [by apply Hrow|by apply IH].
Qed.

Lemma wall_grid_shaped w :
  shaped [] (MazeGenerator.wall_grid env (seqZ 0 GRID_SIZE) w).1.
Proof.
  destruct (wall_grid_grid10 env w) as [(Hwf & _) _].
  intros x y c Hc.
  destruct (grid_at_cell _ _ _ _ Hwf Hc) as (_ & _ & Hin & _).
  destruct (wall_grid_plain _ _ _ Hin) as [Ht Hcol].
  rewrite Ht. split_and!; done.
Qed.

(** The carving keeps the shape: it opens cells off the border only. *)
Lemma carve_shaped fuel grid stack visited w grid' w' :
  carve_inv grid stack visited → shaped [] grid →
  MazeGenerator.carve env fuel grid stack visited w = Returns (grid', w') →
  shaped [] grid'.
Proof.
  revert grid stack visited w.
  induction fuel as [|fuel IH]; intros grid stack visited w; [done|].
  intros (Hg & Hbare & Hstack & Hvis) Hsh. simpl.
  destruct stack as [|[x y] below]; [by intros [= <- <-]|].
  destruct (decide (0 < length (MazeGenerator.neighbors visited x y)))
    as [Hns|Hns].
  - destruct (random_floor env _ w) as [i w1] eqn:Hr.
    destruct (MazeGenerator.neighbors visited x y !! i)
      as [[[[nx ny] dx] dy]|] eqn:Hn; [|done].
    assert ((nx, ny, dx, dy) ∈ MazeGenerator.neighbors visited x y) as Hin
      by (apply list_elem_of_lookup; eauto).
    apply neighbors_spec in Hin as (Hnx & Hny & Hnv & Hex & Hey & Hd).
    destruct (Hvis (x, y)) as [Hx Hy];
      [apply Hstack, elem_of_cons; by left|]. simpl in Hx, Hy.
    assert (0 < x + dx < GRID_SIZE - 1 ∧ 0 < y + dy < GRID_SIZE - 1)%Z
      as [Hbx Hby] by (unfold GRID_SIZE, cardinal in *; lia).
    destruct (set_type_step grid (x + dx) (y + dy) TEmpty Hg)
      as (grid1 & Hset1 & Hg1 & Hat1); [unfold GRID_SIZE in *; lia..|].
    rewrite Hset1.
    destruct (set_empty_bare grid _ _ grid1 Hbare Hat1) as (Hbare1 & _ & _).
    destruct (set_type_step grid1 nx ny TEmpty Hg1)
      as (grid2 & Hset2 & Hg2 & Hat2); [unfold GRID_SIZE in *; lia..|].
    rewrite Hset2.
    destruct (set_empty_bare grid1 _ _ grid2 Hbare1 Hat2) as (Hbare2 & _ & _).
    apply IH.
    + split_and!; [done..| |].
      * intros p [->|Hp]%elem_of_cons; apply elem_of_union;
          [left; by apply elem_of_singleton | right; by apply Hstack].
      * intros p [->%elem_of_singleton|Hp]%elem_of_union;
          [done | by apply Hvis].
    + apply (shaped_set_type [] grid1 nx ny TEmpty grid2); try done.
      * apply (shaped_set_type [] grid (x + dx) (y + dy) TEmpty grid1);
          try done.
        intros c Hc. by destruct (Hbare _ _ c Hc) as [-> | ->].
      * intros c Hc. by destruct (Hbare1 _ _ c Hc) as [-> | ->].
  - apply IH; [|done]. split_and!; try done.
    intros p Hp. apply Hstack, elem_of_cons. by right.
Qed.

Lemma place_portals_shaped grid w grid' w' :
  grid10 grid → shaped [] grid →
  MazeGenerator.place_portals env grid w = Returns (grid', w') →
  ∃ places, length places ≤ 2 ∧ shaped places grid'.
Proof.
  intros Hg Hsh. unfold MazeGenerator.place_portals.
  destruct (empties_of_spec grid Hg) as (empties & -> & Hempty).
  destruct (decide (2 <= length empties)) as [Hlen|].
  2:{ intros [= <- <-]. exists []. split; [simpl; lia|done]. }
  destruct (random_sort env empties w) as [sorted w1] eqn:Hr.
  pose proof (random_sort_perm _ env empties w) as Hperm.
  rewrite Hr in Hperm. simpl in Hperm.
  destruct sorted as [|p1 [|p2 rest]]; try done.
  assert (∀ p, p ∈ [p1; p2] → kind_at grid p.1 p.2 = Some TEmpty) as Hk.
  { intros p Hp. apply Hempty. rewrite <- Hperm.
    apply elem_of_cons in Hp as [->|Hp]; [apply list_elem_of_here|].
    apply list_elem_of_singleton in Hp as ->.
    apply list_elem_of_further, list_elem_of_here. }
  assert (∀ p, p ∈ [p1; p2] → interior p.1 p.2) as Hint.
  { intros p Hp. apply (shaped_interior [] grid); [done|].
    specialize (Hk p Hp). unfold kind_at in Hk.
    destruct (grid_at grid p.1 p.2) as [c|]; [|done].
    exists c. split; [done|]. injection Hk as ->. done. }
  destruct (set_portal grid p1.1 p1.2 Blue) as [grid1|] eqn:Hset1; [|done].
  destruct (set_portal grid1 p2.1 p2.2 Blue) as [grid2|] eqn:Hset2; [|done].
  intros [= <- <-]. exists [(p2.1, p2.2); (p1.1, p1.2)]. split; [done|].
  apply (shaped_set_portal _ grid1); [|done|].
  - apply (shaped_set_portal _ grid); [done..|].
    apply Hint, list_elem_of_here.
  - apply Hint, list_elem_of_further, list_elem_of_here.
Qed.

Lemma punch_shaped places grid w p grid' w' :
  grid10 grid → shaped places grid → interior p.1 p.2 →
  MazeGenerator.punch env (Returns (grid, w)) p = Returns (grid', w') →
  grid10 grid' ∧ shaped places grid'.
Proof.
  intros Hg Hsh Hint. unfold MazeGenerator.punch.
  destruct (grid_at grid p.1 p.2) as [cell|] eqn:Hc; [|done].
  destruct (decide (cell_type cell = TWall)) as [Hw|];
    [|by intros [= <- <-]].
  destruct (random_below_tenth env w) as [[|] w1]; [|by intros [= <- <-]].
  destruct (set_type grid p.1 p.2 TEmpty) as [grid1|] eqn:Hset; [|done].
  intros [= <- <-]. split.
  - by apply (update_cell_grid10 grid p.1 p.2 (with_type TEmpty) grid1 Hg
                (with_type_coords TEmpty)).
  - apply (shaped_set_type places grid p.1 p.2 TEmpty grid1); try done.
    intros c Hc'. rewrite Hc in Hc'. injection Hc' as <-. by rewrite Hw.
Qed.

Lemma punch_holes_shaped places grid w grid' w' :
  grid10 grid → shaped places grid →
  MazeGenerator.punch_holes env grid w = Returns (grid', w') →
  shaped places grid'.
Proof.
  unfold MazeGenerator.punch_holes.
  assert (∀ p, p ∈ MazeGenerator.scan_order 1 (GRID_SIZE - 1) →
               interior p.1 p.2) as Hin.
  { intros [x y] Hp%elem_of_scan_order. unfold interior. simpl. lia. }
  revert grid w Hin.
  induction (MazeGenerator.scan_order 1 (GRID_SIZE - 1)) as [|p l IH];
    intros grid w Hin Hg Hsh; [by intros [= <- <-]|].
  cbn [foldl].
  destruct (MazeGenerator.punch env (Returns (grid, w)) p)
    as [[grid1 w1]| |] eqn:Hpunch.
  - destruct (punch_shaped places grid w p grid1 w1 Hg Hsh) as [Hg1 Hsh1];
      [apply Hin, list_elem_of_here|done|].
    apply IH; [|done..]. intros p' Hp'. by apply Hin, list_elem_of_further.
  - intros Hfold. exfalso. revert Hfold. clear.
    induction l as [|q l IH]; [done|]. done.
  - intros Hfold. exfalso. revert Hfold. clear.
    induction l as [|q l IH]; [done|]. done.
Qed.

(** One attempt returns a sound grid that has the shape. *)
Lemma attempt_shaped w :
  ∃ grid' w' g places,
    MazeGenerator.attempt env w = Returns (grid', w')
    ∧ sound grid' g ∧ length places ≤ 2 ∧ shaped places grid'.
Proof.
  unfold MazeGenerator.attempt.
  pose proof (wall_grid_grid10 env w) as [Hg0 Hbare0].
  pose proof (wall_grid_shaped w) as Hsh0.
  destruct (MazeGenerator.wall_grid env (seqZ 0 GRID_SIZE) w) as [grid0 w0].
  cbn [fst] in Hg0, Hbare0, Hsh0.
  assert (interior 1 1) as Hint11 by (unfold interior, GRID_SIZE; lia).
  destruct (set_type_step grid0 1 1 TEmpty Hg0) as (grid1 & Hset1 & Hg1 & Hat1);
    [by unfold GRID_SIZE..|].
  rewrite Hset1.
  destruct (set_empty_bare grid0 _ _ grid1 Hbare0 Hat1) as (Hbare1 & _ & _).
  assert (shaped [] grid1) as Hsh1.
  { apply (shaped_set_type [] grid0 1 1 TEmpty grid1); try done.
    intros c Hc. by destruct (Hbare0 _ _ c Hc) as [-> | ->]. }
  assert (carve_inv grid1 [(1, 1)%Z] {[ (1, 1)%Z ]}) as Hinv.
  { split_and!; [done..| |].
    - intros p ->%list_elem_of_singleton. by apply elem_of_singleton.
    - intros p ->%elem_of_singleton. by unfold GRID_SIZE. }
  destruct (carve_returns env MazeGenerator.carve_fuel grid1 [(1, 1)%Z]
              {[ (1, 1)%Z ]} w0 Hinv)
    as (grid2 & w1 & Hcarve & Hg2 & Hbare2 & _ & Hopen).
  { pose proof (unvisited_bound {[ (1, 1)%Z ]}).
    unfold MazeGenerator.carve_fuel. simpl. lia. }
  rewrite Hcarve.
  pose proof (carve_shaped _ _ _ _ _ _ _ Hinv Hsh1 Hcarve) as Hsh2.
  clear Hcarve Hinv.
  destruct (Hopen 1%Z 1%Z [] eq_refl) as (dx & dy & Hd & Hdx & Hdy & Hk2).
  { intros Hnil.
    assert ((1, 3, 0, 1)%Z ∈ MazeGenerator.neighbors {[ (1, 1)%Z ]} 1 1)
      as Hin.
    { apply neighbors_spec. unfold GRID_SIZE, cardinal.
      split_and!; try lia. by intros [= ?]%elem_of_singleton. }
    rewrite Hnil in Hin. by apply elem_of_nil in Hin. }
  destruct (set_type_step grid2 1 1 TStart Hg2) as (grid3 & Hset3 & Hg3 & Hat3);
    [by unfold GRID_SIZE..|].
  rewrite Hset3.
  assert (shaped [] grid3) as Hsh3.
  { apply (shaped_set_type [] grid2 1 1 TStart grid3); try done.
    intros c Hc. by destruct (Hbare2 _ _ c Hc) as [-> | ->]. }
  assert (kind_at grid3 1 2 = Some TEmpty ∨ kind_at grid3 2 1 = Some TEmpty)
    as Hopen3.
  { unfold kind_at, GRID_SIZE, cardinal in *. rewrite !Hat3.
    rewrite !decide_False by lia.
    destruct Hd as [[-> [->| ->]]|[-> [->| ->]]]; simpl in *;
      try lia; [by left | by right]. }
  destruct (farthest_initial MazeGenerator.scan_fuel grid3 Hg3 Hopen3)
    as (g & -> & Hkg & Hlg); [unfold MazeGenerator.scan_fuel; lia|].
  assert (∃ cg, grid_at grid3 g.1 g.2 = Some cg ∧ cell_type cg = TEmpty)
    as (cg & Hcg & Htg).
  { unfold kind_at in Hkg. destruct (grid_at grid3 g.1 g.2) as [cg|]; [|done].
    injection Hkg as Hkg. eauto. }
  destruct (grid10_bounds grid3 _ _ cg Hg3 Hcg) as [Hgx Hgy].
  destruct g as [gx gy]. cbn [fst snd] in *.
  assert ((gx, gy) ≠ (1, 1)%Z) as Hg11.
  { intros [= -> ->]. rewrite Hat3, decide_True in Hcg by done.
    destruct (grid_at grid2 1 1); [|done]. injection Hcg as <-. done. }
  destruct (set_type_step grid3 gx gy TGoal Hg3 Hgx Hgy)
    as (grid4 & Hset4 & Hg4 & Hat4).
  rewrite Hset4.
  assert (shaped [] grid4) as Hsh4.
  { apply (shaped_set_type [] grid3 gx gy TGoal grid4); try done.
    - apply (shaped_interior [] grid3); [done|]. exists cg.
      split; [done|]. by rewrite Htg.
    - intros c Hc. rewrite Hcg in Hc. injection Hc as <-. by rewrite Htg. }
  assert (sound grid4 (gx, gy)) as Hs4.
  { split_and!; [done| |].
    - intros x y c. rewrite Hat4.
      destruct (decide (x = gx ∧ y = gy)) as [[-> ->]|Hne].
      + rewrite Hcg. simpl. intros [= <-]. simpl.
        split; split; try done.
      + rewrite Hat3. destruct (decide (x = 1%Z ∧ y = 1%Z)) as [[-> ->]|Hne1].
        * destruct (grid_at grid2 1 1); [|done]. simpl. intros [= <-]. simpl.
          split; split; try done;
            try (intros Heq; by rewrite <- Heq in Hg11).
        * intros Hc. destruct (Hbare2 x y c Hc) as [Ht|Ht]; rewrite Ht;
            split; split; try done;
            intros [= -> ->]; exfalso; (by apply Hne1) || (by apply Hne).
    - apply (linked_mono grid3); [|done]. intros x y c Hc Ht.
      rewrite Hat4. destruct (decide _) as [[-> ->]|]; [|eauto].
      rewrite Hcg. simpl. eexists. split; [done|]. done. }
  destruct (place_portals_sound env grid4 _ w1 Hs4)
    as (grid5 & w2 & Hplace & Hs5).
  destruct (place_portals_shaped grid4 w1 grid5 w2 Hg4 Hsh4 Hplace)
    as (places & Hlen & Hsh5).
  destruct (punch_holes_sound env grid5 _ w2 Hs5)
    as (grid6 & w3 & Hpunch & Hs6).
  pose proof (punch_holes_shaped places grid5 w2 grid6 w3 (proj1 Hs5) Hsh5
                Hpunch) as Hsh6.
  rewrite Hplace, Hpunch. exists grid6, w3, (gx, gy), places. done.
Qed.

End shaping.

Section generated.
Context {World : Type} (env : Oracle World).

(** With a budget that is not negative the first attempt is returned: a
    sound and shaped grid with the solver's two counts. *)
Lemma generated_facts K w :
  (0 <= K)%Z →
  ∃ level w' g places sol0 solK,
    MazeGenerator.generateRandomLevel env K w = Returns (level, w')
    ∧ sound (level_grid level) g
    ∧ length places ≤ 2 ∧ shaped places (level_grid level)
    ∧ maxBreaks level = K
    ∧ solveMaze (level_grid level) 0 = Returns (Some sol0)
    ∧ solveMaze (level_grid level) K = Returns (Some solK)
    ∧ optimalStepsNoBreak level = Some (steps sol0)
    ∧ optimalStepsWithBreak level = Some (steps solK).
Proof.
  intros HK. unfold MazeGenerator.generateRandomLevel.
  change 20 with (S 19). generalize 19. intros remaining.
  cbn [MazeGenerator.attempts].
  destruct (attempt_shaped env w) as (grid & w1 & g & places & -> & Hs & Hlen
                                      & Hsh).
  destruct (sound_solvable grid g 0 Hs) as [sol0 Hsol0]; [lia|].
  destruct (sound_solvable grid g K Hs) as [solK HsolK]; [lia|].
  rewrite Hsol0, HsolK.
  destruct (generateId env w1) as [id w2].
  destruct (random_floor env 900 w2) as [n w3].
  destruct (date_now env w3) as [now w4].
  eexists _, _, g, places, sol0, solK. split; [done|]. simpl.
  split_and!; done.
Qed.

(** Whatever the budget, a level is returned, on a 10 x 10 grid with walls
    all around. *)
Lemma generated_frame K w :
  ∃ level w',
    MazeGenerator.generateRandomLevel env K w = Returns (level, w')
    ∧ grid10 (level_grid level)
    ∧ ∀ x y c, grid_at (level_grid level) x y = Some c →
               ¬ interior x y → cell_type c = TWall.
Proof.
  destruct (decide (0 <= K)%Z) as [HK|HK].
  - destruct (generated_facts K w HK)
      as (level & w' & g & places & _ & _ & Hgen & Hs & _ & Hsh & _).
    exists level, w'. split_and!; [done|apply Hs|].
    intros x y c Hc. by apply (Hsh x y c Hc).
  - unfold MazeGenerator.generateRandomLevel.
    destruct (attempts_all_fail env 20 K [] w)
      as (level & w' & last & Hrun & Hlast & _ & _ & _ & _ & Hg & _ & _ & _
          & Hsame); [apply negative_budget_all_fail; lia|done|].
    exists level, w'. split_and!; [done..|].
    destruct Hlast as [[? _]|(w0 & w1 & g & Ha & _)]; [done|].
    destruct (attempt_shaped env w0)
      as (last' & w1' & _ & places & Ha' & _ & _ & Hsh).
    rewrite Ha in Ha'. injection Ha' as <- <-.
    intros x y c Hc Hout. rewrite Hsame in Hc.
    + by apply (Hsh x y c Hc).
    + intros [-> Hx]. apply Hout. unfold interior, GRID_SIZE. lia.
Qed.

(** X18. [generateRandomLevel] always returns a level, for every budget
    (negative ones included) and every random source: it neither throws
    nor loops. The grid of the level is a well-formed 10 x 10 grid whose
    outer border consists of walls only. *)
Theorem generate_framed K w :
  ∃ level w',
    MazeGenerator.generateRandomLevel env K w = Returns (level, w')
    ∧ wf_grid (level_grid level)
    ∧ grid_rows (level_grid level) = 10%Z
    ∧ grid_cols (level_grid level) = Some 10%Z
    ∧ ∀ x y c, grid_at (level_grid level) x y = Some c →
               (x = 0 ∨ x = 9 ∨ y = 0 ∨ y = 9)%Z → cell_type c = TWall.
Proof.
  destruct (generated_frame K w) as (level & w' & Hgen & (Hwf & Hr & Hc) & Hb).
  exists level, w'. split_and!; try done.
  intros x y c Hat Hxy. apply (Hb x y c Hat).
  unfold interior, GRID_SIZE. lia.
Qed.

(** The grid of a generated level is one the editor keeps in order. *)
Lemma shaped_editor_ok places grid g :
  sound grid g → shaped places grid → editor_ok grid.
Proof.
  intros Hs Hsh. destruct (sound_endpoints grid g Hs) as (Hn1 & Hn2 & _).
  destruct Hs as ((Hwf & _) & _). split_and!; [done|lia|lia|].
  intros c Hc. pose proof (cell_grid_at _ _ Hwf Hc) as Hat.
  destruct (Hsh _ _ c Hat) as (_ & Hp & Hn). split.
  - intros Ht. destruct (Hp Ht) as [_ ->]. eauto.
  - intros Hsome. destruct (decide (cell_type c = TPortal)) as [|Hne]; [done|].
    rewrite (Hn Hne) in Hsome. by destruct Hsome.
Qed.

(** X19. A level generated with a budget that is not negative has at most
    two portal cells; they are blue, and no other cell carries a portal
    colour. *)
Theorem generate_portals K w :
  (0 <= K)%Z →
  ∃ level w',
    MazeGenerator.generateRandomLevel env K w = Returns (level, w')
    ∧ count_type TPortal (level_grid level) ≤ 2
    ∧ ∀ c, c ∈ cells (level_grid level) →
           (cell_type c = TPortal → portalColor c = Some Blue)
           ∧ (cell_type c ≠ TPortal → portalColor c = None).
Proof.
  intros HK.
  destruct (generated_facts K w HK)
    as (level & w' & g & places & _ & _ & Hgen & Hs & Hlen & Hsh & _).
  destruct Hs as ((Hwf & _) & _).
  exists level, w'. split_and!; [done| |].
  - pose proof (shaped_pairs places _ Blue Hwf Hsh Hlen) as Hpairs.
    etrans; [|exact Hpairs]. unfold count_type, count_portals.
    apply submseteq_length, NoDup_submseteq.
    + by apply NoDup_filter, cells_NoDup.
    + intros c [Ht Hc]%list_elem_of_filter. apply list_elem_of_filter.
      split; [|done]. split; [done|].
      pose proof (cell_grid_at _ _ Hwf Hc) as Hat.
      by destruct (Hsh _ _ c Hat) as (_ & [_ ?] & _).
  - intros c Hc. pose proof (cell_grid_at _ _ Hwf Hc) as Hat.
    destruct (Hsh _ _ c Hat) as (_ & Hp & Hn). split; [|done].
    intros Ht. by destruct (Hp Ht).
Qed.

(** A generated level in a mode: its stored count can be played, and no
    play wins with fewer moves. *)
Lemma generated_optimum K w mode :
  (0 <= K)%Z →
  ∃ level w' n,
    MazeGenerator.generateRandomLevel env K w = Returns (level, w')
    ∧ maxBreaks level = K
    ∧ stored_count level mode = Some n
    ∧ (∃ events st,
         play level mode events = Returns st
         ∧ status st = Won ∧ movesTaken st = n)
    ∧ ∀ events st,
        play level mode events = Returns st → status st = Won →
        (n <= movesTaken st)%Z.
Proof.
  intros HK.
  destruct (generated_facts K w HK)
    as (level & w' & g & places & sol0 & solK & Hgen & Hs & Hlen & Hsh & Hmax
        & Hsol0 & HsolK & Ho0 & HoK).
  destruct (sound_endpoints _ g Hs) as (Hn1 & Hn2 & _).
  pose proof Hs as ((Hwf & _) & _).
  assert (0 <= mode_budget level mode)%Z as Hbudget
    by (destruct mode; simpl; lia).
  assert (∃ sol, solveMaze (level_grid level) (mode_budget level mode)
                 = Returns (Some sol)
                 ∧ stored_count level mode = Some (steps sol))
    as (sol & Hsol & Hstored).
  { destruct mode; simpl; [by exists sol0|]. rewrite Hmax. by exists solK. }
  exists level, w', (steps sol). split_and!; [done..| |].
  - apply count_attained; try done.
    intros color. by apply (shaped_pairs places).
  - intros events st Hplay Hwon.
    destruct (won_bound level mode events st Hwf Hn1 Hn2 Hbudget Hplay Hwon)
      as (sol' & Hsol' & Hle).
    rewrite Hsol in Hsol'. by injection Hsol' as <-.
Qed.

(** X20. The counts of a generated level are true optima of the game. For
    a level generated with a budget that is not negative, in either mode:
    the stored count of the mode is not null, some sequence of key presses
    wins the game in exactly that many moves, and no sequence of key
    presses wins it in fewer. *)
Theorem generated_playable K w mode :
  (0 <= K)%Z →
  ∃ level w' n,
    MazeGenerator.generateRandomLevel env K w = Returns (level, w')
    ∧ stored_count level mode = Some n
    ∧ (∃ events st,
         play level mode events = Returns st
         ∧ status st = Won ∧ movesTaken st = n)
    ∧ ∀ events st,
        play level mode events = Returns st → status st = Won →
        (n <= movesTaken st)%Z.
Proof.
  intros HK.
  destruct (generated_optimum K w mode HK)
    as (level & w' & n & ? & _ & ? & ? & ?).
  by exists level, w', n.
Qed.

(** X21. [generateAndStart] never fails: it generates a level with a budget
    of 1, 2 or 3 breaks, appends it to the levels and starts it in no-break
    mode; the stored count without breaks of that level is not null, it can
    be played, and it cannot be beaten. *)
Theorem generateAndStart_playable (app : AppState) (w : World) :
  ∃ app' w' level n,
    generateAndStart env app w = Returns (app', w')
    ∧ screen app' = GameScreen ∧ gameMode app' = NoBreak
    ∧ lastResult app' = None
    ∧ activeLevel app' = Some level
    ∧ levels app' = levels app ++ [level]
    ∧ (1 <= maxBreaks level <= 3)%Z
    ∧ optimalStepsNoBreak level = Some n
    ∧ (∃ events st,
         play level NoBreak events = Returns st
         ∧ status st = Won ∧ movesTaken st = n)
    ∧ ∀ events st,
        play level NoBreak events = Returns st → status st = Won →
        (n <= movesTaken st)%Z.
Proof.
  unfold generateAndStart.
  pose proof (random_floor_lt _ env 3 w) as Hr.
  destruct (random_floor env 3 w) as [r w1]. simpl in Hr.
  destruct (generated_optimum (Z.of_nat r + 1) w1 NoBreak)
    as (level & w' & n & -> & Hmax & Hstored & Hplay & Hmin); [lia|].
  eexists _, w', level, n. split; [done|]. simpl.
  split_and!; try done; lia.
Qed.

(** X17. The editor's [generateRandom] never shows its failure message:
    whatever the budget in the editor, the generator returns, and the grid
    that replaces the editor's is a well-formed 10 x 10 grid; with a budget
    that is not negative it has one start, one goal, and portal colours on
    its portal cells only. *)
Theorem generateRandom_never_fails K (grid : Grid) (w : World) :
  ∃ grid' w',
    generateRandom env K grid w = Returns (grid', None, w')
    ∧ grid10 grid'
    ∧ ((0 <= K)%Z →
       editor_ok grid'
       ∧ count_type TStart grid' = 1 ∧ count_type TGoal grid' = 1).
Proof.
  unfold generateRandom.
  destruct (generated_frame K w) as (level & w' & Hgen & Hg & _).
  rewrite Hgen. exists (level_grid level), w'. split_and!; [done..|].
  intros HK.
  destruct (generated_facts K w HK)
    as (level' & w'' & g & places & _ & _ & Hgen' & Hs & _ & Hsh & _).
  rewrite Hgen in Hgen'. injection Hgen' as <- <-.
  destruct (sound_endpoints _ g Hs) as (Hn1 & Hn2 & _).
  split_and!; [|done..]. by apply (shaped_editor_ok places _ g).
Qed.

End generated.

Lemma generate_portals_witness :
  ∃ level w',
    MazeGenerator.generateRandomLevel lcg_oracle 2 7%N = Returns (level, w')
    ∧ count_type TPortal (level_grid level) ≤ 2
    ∧ ∀ c, c ∈ cells (level_grid level) →
           (cell_type c = TPortal → portalColor c = Some Blue)
           ∧ (cell_type c ≠ TPortal → portalColor c = None).
Proof. apply (generate_portals lcg_oracle 2 7%N). lia. Defined.

Lemma generated_playable_witness :
  ∃ level w' n,
    MazeGenerator.generateRandomLevel first_oracle 1 () = Returns (level, w')
    ∧ stored_count level WallBreak = Some n
    ∧ (∃ events st,
         play level WallBreak events = Returns st
         ∧ status st = Won ∧ movesTaken st = n)
    ∧ ∀ events st,
        play level WallBreak events = Returns st → status st = Won →
        (n <= movesTaken st)%Z.
Proof. apply (generated_playable first_oracle 1 () WallBreak). lia. Defined.

(** ** Three portals of one colour *)

Lemma press_left_of_wall st e :
  left_of_wall st = true →
  match press (scenario_level triple_grid 0) NoBreak (Returns st) e with
  | Returns st' => left_of_wall st' = true
  | _ => False
  end.
Proof.
  destruct st as [grid p m u b s]. unfold left_of_wall. simpl.
  rewrite !andb_true_iff, !bool_decide_eq_true.
  intros [[-> Hp] ->].
  unfold press, handleKeyDown. cbn [status].
  destruct (decide (Playing ≠ Playing)) as [?|_]; [done|].
  destruct (key_direction (event_key e)) as [[dx dy]|] eqn:Hk.
  - apply key_direction_cardinal in Hk.
    rewrite !elem_of_cons, elem_of_nil in Hp.
    destruct Hp as [->|[->|[->|[]]]];
      destruct Hk as [[-> [->| ->]]|[-> [->| ->]]];
      destruct (shiftKey e); vm_compute; reflexivity.
  - rewrite !elem_of_cons, elem_of_nil in Hp.
    destruct (decide (event_key e = "Enter"));
      destruct Hp as [->|[->|[->|[]]]]; vm_compute; reflexivity.
Qed.

(** X8. The game's teleport is not the solver's when a colour has three
    portals. On the row [start, portal, portal, wall, portal, goal] with
    three blue portals, [solveMaze] finds 3 steps with no break
    (it teleports from the first portal to the third), and the editor
    publishes the level with that count; but in no-break mode no sequence
    of key presses ever wins: the game's teleport only leads to the first
    other portal in row-major order, so the third portal is never
    reached. *)
Theorem third_portal_unreachable :
  wf_grid triple_grid
  ∧ count_type TStart triple_grid = 1 ∧ count_type TGoal triple_grid = 1
  ∧ (∃ sol, solveMaze triple_grid 0 = Returns (Some sol) ∧ steps sol = 3%Z)
  ∧ (∃ level, validateAndSave first_oracle "Triple" 0 triple_grid ()
              = Returns (Published level, ())
              ∧ level_grid level = triple_grid
              ∧ optimalStepsNoBreak level = Some 3%Z)
  ∧ ∀ events,
      ∃ st, play (scenario_level triple_grid 0) NoBreak events = Returns st
            ∧ status st = Playing.
Proof.
  split_and!.
  - apply (bool_decide_unpack _). vm_compute. exact I.
  - reflexivity.
  - reflexivity.
  - eexists. split; vm_compute; reflexivity.
  - eexists. split; [vm_compute; reflexivity|]. split; reflexivity.
  - intros events.
    cut (∃ st, play (scenario_level triple_grid 0) NoBreak events = Returns st
               ∧ left_of_wall st = true).
    { intros (st & Hplay & Hleft). exists st. split; [done|].
      unfold left_of_wall in Hleft.
      rewrite !andb_true_iff, !bool_decide_eq_true in Hleft. apply Hleft. }
    unfold play. induction events as [|e events IH] using rev_ind.
    + eexists. split; vm_compute; reflexivity.
    + destruct IH as (st & Hplay & Hleft). rewrite foldl_snoc, Hplay.
      pose proof (press_left_of_wall st e Hleft) as Hpress.
      destruct (press _ _ (Returns st) e) as [st'| |]; [|done..].
      by exists st'.
Qed.

(** ** Erasing what was painted *)

Lemma update_cell_twice grid x y f g grid1 :
  update_cell grid x y f = Some grid1 →
  update_cell grid1 x y g = update_cell grid x y (g ∘ f).
Proof.
  intros Hup. pose proof (grid_at_update grid x y f grid1 x y Hup) as Hat.
  rewrite decide_True in Hat by done.
  unfold update_cell in *. rewrite Hat.
  destruct (grid_at grid x y) as [c|]; [|done]. injection Hup as <-. simpl.
  f_equal. rewrite list_alter_alter_eq.
  apply list_alter_ext; [|done]. intros row _. simpl.
  by rewrite list_alter_alter_eq.
Qed.

Lemma update_cell_fix grid x y f c :
  grid_at grid x y = Some c → f c = c → update_cell grid x y f = Some grid.
Proof.
  intros Hc Hf.
  rewrite (update_cell_ext grid x y f (fun c => c) c Hc Hf).
  unfold update_cell. rewrite Hc. f_equal.
  apply list_alter_id. intros row. by apply list_alter_id.
Qed.

(** X22. Erasing undoes painting. On a well-formed grid, a click with the
    wall, portal or empty tool on an empty cell without portal colour,
    followed by a click with the eraser on the same cell, gives back the
    grid as it was. *)
Theorem erase_undoes_paint t color color' grid x y cell :
  wf_grid grid → grid_at grid x y = Some cell →
  cell_type cell = TEmpty → portalColor cell = None →
  t ≠ TStart → t ≠ TGoal →
  ∃ grid1,
    handleCellClick (Paint t) color grid x y = Some grid1
    ∧ handleCellClick Erase color' grid1 x y = Some grid.
Proof.
  intros Hwf Hcell Ht Hcol Hns Hng.
  destruct (handleCellClick_at (Paint t) color grid x y cell Hwf Hcell)
    as (grid1 & Hclick & Hwf1 & _ & _ & Hat).
  exists grid1. split; [done|].
  assert (handleCellClick (Paint t) color grid x y
          = update_cell grid x y (fun _ => painted (Paint t) color cell))
    as Hpaint.
  { unfold handleCellClick. rewrite Hcell. cbn [mbind option_bind].
    by destruct t. }
  rewrite Hpaint in Hclick.
  unfold handleCellClick. rewrite Hat, decide_True by done.
  cbn [mbind option_bind].
  rewrite (update_cell_twice grid x y _ _ grid1 Hclick).
  apply (update_cell_fix grid x y _ cell Hcell).
  destruct cell as [cx cy ct cc cid]. simpl in *. by subst.
Qed.

Lemma erase_undoes_paint_witness :
  ∃ grid1,
    handleCellClick (Paint TPortal) Red corridor_grid 1 0 = Some grid1
    ∧ handleCellClick Erase Blue grid1 1 0 = Some corridor_grid.
Proof.
  apply (erase_undoes_paint TPortal Red Blue corridor_grid 1 0
           (cell_of 0 1 (TEmpty, None)) corridor_grid_wf);
    [reflexivity | reflexivity | reflexivity | discriminate | discriminate].
Defined.

(** ** There and back through a portal pair *)

Lemma press_enter level mode st broken ps color c c' :
  wf_grid (level_grid level) → game_inv level mode st broken ps →
  status st = Playing →
  count_portals color (level_grid level) ≤ 2 →
  grid_at (level_grid level) (playerPos st).1 (playerPos st).2 = Some c →
  portal_of color c →
  c' ∈ cells (level_grid level) → portal_of color c' →
  cell_pos c' ≠ playerPos st →
  ∃ broken' ps',
    press level mode (Returns st) (plain_key "Enter")
    = Returns (move_player st (cell_x c', cell_y c') 0)
    ∧ game_inv level mode (move_player st (cell_x c', cell_y c') 0)
               broken' ps'.
Proof.
  intros Hwf Hinv Hst Hlen Hc Hpc Hc' Hpc' Hne.
  assert (handleKeyDown level mode (plain_key "Enter") st
          = Returns (move_player st (cell_x c', cell_y c') 0)) as Hkey.
  { unfold handleKeyDown. rewrite decide_False by (by rewrite Hst; intros ?).
    simpl. by apply (attemptTeleport_pair level mode st broken ps color c c'). }
  destruct (press_inv level mode st broken ps (plain_key "Enter") Hinv)
    as (st' & broken' & ps' & Hpress & Hinv' & _).
  exists broken', ps'.
  assert (st' = move_player st (cell_x c', cell_y c') 0) as ->; [|done].
  unfold press in Hpress. rewrite Hkey in Hpress. unfold check_goal in Hpress.
  cbn [game_grid playerPos move_player fst snd] in Hpress.
  rewrite (opened_open level mode st broken ps _ _ c' Hinv
             (cell_grid_at _ _ Hwf Hc')) in Hpress
    by (destruct Hpc' as [-> _]; done).
  rewrite decide_False in Hpress
    by (destruct Hpc' as [-> _]; by intros [? _]).
  by injection Hpress.
Qed.

(** X23. There and back through a portal pair. On a well-formed level with
    a start cell, when the player is still playing and stands on a portal
    whose colour has exactly two cells, pressing Enter leads to the other
    cell of the pair, and pressing Enter again leads back: after the two
    presses the player is where it was, two moves later, with the grid and
    the broken walls as they were. *)
Theorem teleport_round_trip level mode cs events st c color :
  wf_grid (level_grid level) →
  cs ∈ cells (level_grid level) → cell_type cs = TStart →
  play level mode events = Returns st → status st = Playing →
  grid_at (level_grid level) (playerPos st).1 (playerPos st).2 = Some c →
  portal_of color c → count_portals color (level_grid level) = 2 →
  ∃ st1 st2,
    play level mode (events ++ [plain_key "Enter"]) = Returns st1
    ∧ playerPos st1 ≠ playerPos st
    ∧ play level mode (events ++ [plain_key "Enter"; plain_key "Enter"])
      = Returns st2
    ∧ playerPos st2 = playerPos st
    ∧ movesTaken st2 = (movesTaken st + 2)%Z
    ∧ game_grid st2 = game_grid st
    ∧ wallsBroken st2 = wallsBroken st
    ∧ status st2 = Playing.
Proof.
  intros Hwf Hcs Hts Hplay Hst Hc Hpc Htwo.
  destruct (play_inv level mode cs events Hwf Hcs Hts)
    as (st' & broken & ps & Hplay' & Hinv & _ & _).
  rewrite Hplay in Hplay'. injection Hplay' as <-.
  destruct (grid_at_cell _ _ _ _ Hwf Hc) as (Hx & Hy & Hin & _).
  assert (∃ c', c' ∈ cells (level_grid level) ∧ portal_of color c'
                ∧ c' ≠ c) as (c' & Hin' & Hpc' & Hne).
  { unfold count_portals in Htwo.
    pose proof (NoDup_filter (portal_of color) _
                  (cells_NoDup _ Hwf)) as Hnd.
    assert (c ∈ filter (portal_of color) (cells (level_grid level))) as Hmem
      by (by apply list_elem_of_filter).
    destruct (filter (portal_of color) (cells (level_grid level)))
      as [|a [|b [|? ?]]] eqn:Hf; try done.
    assert (a ∈ filter (portal_of color) (cells (level_grid level))) as Ha
      by (rewrite Hf; apply list_elem_of_here).
    assert (b ∈ filter (portal_of color) (cells (level_grid level))) as Hb
      by (rewrite Hf; apply list_elem_of_further, list_elem_of_here).
    apply list_elem_of_filter in Ha as [? ?], Hb as [? ?].
    apply NoDup_cons in Hnd as [Hab _].
    destruct (decide (c = a)) as [->|Hca].
    - exists b. split_and!; [done..|]. intros ->. apply Hab.
      apply list_elem_of_here.
    - exists a. split_and!; [done..|]. by intros ->. }
  assert (cell_pos c' ≠ playerPos st) as Hpos'.
  { intros Heq. apply Hne. apply (cell_pos_inj (level_grid level)); try done.
    rewrite Heq. unfold cell_pos. rewrite Hx, Hy. by destruct (playerPos st). }
  assert (count_portals color (level_grid level) ≤ 2) as Hle by lia.
  destruct (press_enter level mode st broken ps color c c' Hwf Hinv Hst Hle
              Hc Hpc Hin' Hpc' Hpos')
    as (broken1 & ps1 & Hpress1 & Hinv1).
  set (st1 := move_player st (cell_x c', cell_y c') 0) in *.
  destruct (press_enter level mode st1 broken1 ps1 color c' c Hwf Hinv1)
    as (broken2 & ps2 & Hpress2 & Hinv2); try done.
  - simpl. by apply cell_grid_at.
  - simpl. unfold cell_pos. rewrite Hx, Hy. intros Heq. apply Hpos'.
    unfold cell_pos. by rewrite <- Heq; destruct (playerPos st).
  - exists st1, (move_player st1 (cell_x c, cell_y c) 0). split_and!.
    + unfold play in *. by rewrite foldl_snoc, Hplay.
    + simpl. intros Heq. apply Hpos'. by rewrite <- Heq.
    + unfold play in *.
      change [plain_key "Enter"; plain_key "Enter"]
        with ([plain_key "Enter"] ++ [plain_key "Enter"]).
      by rewrite app_assoc, foldl_snoc, foldl_snoc, Hplay, Hpress1.
    + simpl. rewrite Hx, Hy. by destruct (playerPos st).
    + simpl. lia.
    + done.
    + simpl. lia.
    + done.
Qed.

Lemma teleport_round_trip_witness :
  ∃ st,
    play (scenario_level portal_grid 0) NoBreak [plain_key "d"] = Returns st
    ∧ ∃ st1 st2,
    play (scenario_level portal_grid 0) NoBreak
           ([plain_key "d"] ++ [plain_key "Enter"]) = Returns st1
    ∧ playerPos st1 ≠ playerPos st
    ∧ play (scenario_level portal_grid 0) NoBreak
           ([plain_key "d"] ++ [plain_key "Enter"; plain_key "Enter"])
      = Returns st2
    ∧ playerPos st2 = playerPos st
    ∧ movesTaken st2 = (movesTaken st + 2)%Z
    ∧ game_grid st2 = game_grid st
    ∧ wallsBroken st2 = wallsBroken st
    ∧ status st2 = Playing.
Proof.
  assert (∃ st, play (scenario_level portal_grid 0) NoBreak [plain_key "d"]
                = Returns st ∧ status st = Playing
                ∧ grid_at portal_grid (playerPos st).1 (playerPos st).2
                  = Some (cell_of 0 1 (TPortal, Some Blue)))
    as (st & Hplay & Hst & Hc) by (vm_compute; eauto).
  exists st. split; [done|].
  apply (teleport_round_trip (scenario_level portal_grid 0) NoBreak
           (cell_of 0 0 (TStart, None)) [plain_key "d"] st
           (cell_of 0 1 (TPortal, Some Blue)) Blue portal_grid_wf);
    try done.
  vm_compute. apply list_elem_of_here.
Defined.
